(** * lishgreek: Greeklish to Greek transliteration

    A shallow embedding of [lishgreek.py] and the verification of its
    specification.  Python strings are sequences of Unicode code points: a
    character is a code point in [Z] and a string is a [list Z].  The tables
    of the module are written as they are in the source, as UTF-8 literals
    decoded to code points.  Exceptions ([IndexError], [KeyError]) and the
    two [while] loops are modelled in the monad [M]. *)

From Stdlib Require Import ZArith List Bool Lia String Ascii.
From Stdlib Require Import Sorting.Sorted Sorting.Permutation.
From stdpp Require Import base option list gmap.

Local Open Scope Z_scope.

(** ** Strings *)

Abbreviation str := (list Z).

(** UTF-8 decoding of the bytes of a literal (well-formed input assumed). *)
Fixpoint utf8_decode (bs : list Z) : str :=
  match bs with
  | [] => []
  | b0 :: bs1 =>
    if b0 <? 128 then b0 :: utf8_decode bs1
    else match bs1 with
    | [] => [b0]
    | b1 :: bs2 =>
      if b0 <? 224 then
        Z.lor (Z.shiftl (Z.land b0 31) 6) (Z.land b1 63) :: utf8_decode bs2
      else match bs2 with
      | [] => [b0]
      | b2 :: bs3 =>
        if b0 <? 240 then
          Z.lor (Z.shiftl (Z.land b0 15) 12)
            (Z.lor (Z.shiftl (Z.land b1 63) 6) (Z.land b2 63)) :: utf8_decode bs3
        else match bs3 with
        | [] => [b0]
        | b3 :: bs4 =>
          Z.lor (Z.shiftl (Z.land b0 7) 18)
            (Z.lor (Z.shiftl (Z.land b1 63) 12)
               (Z.lor (Z.shiftl (Z.land b2 63) 6) (Z.land b3 63))) :: utf8_decode bs4
        end
      end
    end
  end.

Definition u8 (s : string) : str :=
  utf8_decode (map (fun a => Z.of_N (N_of_ascii a)) (list_ascii_of_string s)).


(** [str.split()]: the maximal runs of characters that are not white space. *)
Definition isspace (c : Z) : bool :=
  (9 <=? c) && (c <=? 13) || (28 <=? c) && (c <=? 32) || (c =? 133) || (c =? 160)
  || (c =? 5760) || (8192 <=? c) && (c <=? 8202) || (c =? 8232) || (c =? 8233)
  || (c =? 8239) || (c =? 8287) || (c =? 12288).

Fixpoint split_from (cur : str) (s : str) : list str :=
  match s with
  | [] => match cur with [] => [] | _ => [cur] end
  | c :: rest =>
    if isspace c
    then match cur with [] => split_from [] rest | _ => cur :: split_from [] rest end
    else split_from (cur ++ [c]) rest
  end.

Definition split (s : str) : list str := split_from [] s.

(** [s.strip()] *)
Fixpoint lstrip (s : str) : str :=
  match s with
  | c :: s' => if isspace c then lstrip s' else s
  | [] => []
  end.

Definition strip (s : str) : str := rev (lstrip (rev (lstrip s))).

(** [s.startswith(prefix)] *)
Fixpoint startswith (s prefix : str) {struct prefix} : bool :=
  match prefix, s with
  | [], _ => true
  | _ :: _, [] => false
  | p :: prefix', c :: s' => (c =? p) && startswith s' prefix'
  end.

(** [sub in s] on strings: [sub] occurs in [s] as a substring. *)
Fixpoint str_in (sub s : str) : bool :=
  startswith s sub || match s with [] => false | _ :: s' => str_in sub s' end.

(** [s.count(sub)]: the number of non-overlapping occurrences of a non-empty
    [sub], scanning from the left. *)
Fixpoint count_from (fuel : nat) (s sub : str) : Z :=
  match fuel, s with
  | S fuel', _ :: rest =>
    if startswith s sub
    then 1 + count_from fuel' (drop (length sub) s) sub
    else count_from fuel' rest sub
  | _, _ => 0
  end.

Definition count (s sub : str) : Z := count_from (length s) s sub.

(** ** Exceptions and loops *)

Inductive exn := IndexError | KeyError.

(** The outcome of a call: a value, an uncaught exception, or a [while]
    loop that makes no progress. *)
Inductive M (A : Type) : Type :=
  | Ok (a : A)
  | Raise (e : exn)
  | Diverge.
Arguments Ok {A} a.
Arguments Raise {A} e.
Arguments Diverge {A}.

#[export] Instance M_ret : MRet M := fun A a => Ok a.
#[export] Instance M_bind : MBind M := fun A B f m =>
  match m with
  | Ok a => f a
  | Raise e => Raise e
  | Diverge => Diverge
  end.

(** [for x in l: ... append(f(x))] *)
Fixpoint for_each {A B} (f : A -> M B) (l : list A) : M (list B) :=
  match l with
  | [] => Ok []
  | x :: l' => y ← f x; ys ← for_each f l'; Ok (y :: ys)
  end.

(** [for x in l: state = body(state, x)] *)
Fixpoint for_loop {S A} (body : S -> A -> M S) (l : list A) (state : S) : M S :=
  match l with
  | [] => Ok state
  | x :: l' => state' ← body state x; for_loop body l' state'
  end.

(** [l[i]] for [i >= 0] *)
Definition getitem {A} (l : list A) (i : nat) : M A :=
  match l !! i with
  | Some x => Ok x
  | None => Raise IndexError
  end.

(** [enumerate(l)] *)
Definition enumerate {A} (l : list A) : list (nat * A) := zip (seq 0 (length l)) l.

(** ** Tables *)

Definition greek_accented : str := Eval vm_compute in u8 "ά έ ή ί ΐ ό ύ ΰ ώ".
Definition greek_unaccented : str := Eval vm_compute in u8 "α ε η ι ϊ ο υ ϋ ω".

Definition lat_accented : str := Eval vm_compute in u8 "à è ì ò ù ẁ á é í ó ú ẃ".
Definition lat_unaccented : str := Eval vm_compute in u8 "a e i o u w a e i o u w".

(** A [dict] keeps its keys in insertion order; assigning to a key that is
    present keeps its place. *)
Abbreviation dict := (list (str * str)).

Fixpoint dict_set (d : dict) (k v : str) : dict :=
  match d with
  | [] => [(k, v)]
  | (k', v') :: d' =>
    if bool_decide (k' = k) then (k, v) :: d' else (k', v') :: dict_set d' k v
  end.

Fixpoint dict_get (d : dict) (k : str) : M str :=
  match d with
  | [] => Raise KeyError
  | (k', v') :: d' => if bool_decide (k' = k) then Ok v' else dict_get d' k
  end.

Definition keys (d : dict) : list str := map fst d.

Definition make_dictionary_from_strings (original_string replace_string : str) : M dict :=
  let orig_list := split original_string in
  let replace_list := split replace_string in
  for_loop (fun output_dict '(i, l) =>
              r ← getitem replace_list i; Ok (dict_set output_dict l r))
           (enumerate orig_list) [].

(** ** The transducer

    [replace] on a string.  The [while] loop runs on [fuel]: an iteration
    that matches a graph drops its length from [s_in], one that matches none
    drops one character, so [length s_in] iterations are enough unless the
    empty graph matches, which leaves [s_in] as it is for ever. *)
Fixpoint replace_loop (fuel : nat) (replace_dict : dict) (s_in : str)
    (s_out : list str) : M (list str) :=
  match s_in with
  | [] => Ok s_out
  | c :: rest =>
    match fuel with
    | O => Diverge
    | S fuel' =>
      match find (startswith s_in) (keys replace_dict) with
      | Some original_graph =>
        alternatives ← dict_get replace_dict original_graph;
        replace_loop fuel' replace_dict (drop (length original_graph) s_in)
          (flat_map (fun alternative => map (fun string => string ++ [alternative]) s_out)
                    alternatives)
      | None =>
        replace_loop fuel' replace_dict rest (map (fun string => string ++ [c]) s_out)
      end
    end
  end.

Definition replace (string : str) (replace_dict : dict) : M (list str) :=
  replace_loop (length string) replace_dict string [[]].

(** [replace] on a list of strings (the [isinstance(string, list)] branch). *)
Fixpoint replace_list (strings : list str) (replace_dict : dict) : M (list str) :=
  match strings with
  | [] => Ok []
  | s :: strings' =>
    r ← replace s replace_dict;
    rs ← replace_list strings' replace_dict;
    Ok (r ++ rs)
  end.

Definition from_ok {A} (default : A) (m : M A) : A :=
  match m with Ok a => a | _ => default end.

Definition greek_digraph : str :=
  Eval vm_compute in u8 "αβ αφ αυ αι γγ γκ εβ εφ ευ ει μπ μβ νδ ντ οι ου γχ ".
Definition g_uglish_digraph : str :=
  Eval vm_compute in u8 "A  A  A  e  G  G  E  Ε  E  i  b  V  d  d  i  u  H  ".

Definition greek_monograph : str :=
  Eval vm_compute in u8 "α β γ δ ε ζ η θ ι ϊ κ λ μ ν ξ ο π ρ σ ς τ υ ϋ φ χ ψ ω ".
Definition g_uglish_monograph : str :=
  Eval vm_compute in u8 "a v g d e z i 8 i i k l m n 3 o p r s s t i i f x 4 o ".

Definition greek_accent_dictionary : dict :=
  Eval vm_compute in
    from_ok [] (make_dictionary_from_strings greek_accented greek_unaccented).
Definition g2u_dict : dict :=
  Eval vm_compute in
    from_ok [] (make_dictionary_from_strings (greek_digraph ++ greek_monograph)
                  (g_uglish_digraph ++ g_uglish_monograph)).

Definition lish_trigraph : str := Eval vm_compute in u8 "nch ".
Definition l_uglish_trigraph : str := Eval vm_compute in u8 "H   ".

Definition lish_digraph : str :=
  Eval vm_compute in
    u8 "ai au af av ay ch ei eu ef ev ey gg gk ks ng nk mp mb mv nt nd oi ou ps th ".
Definition l_uglish_digraph : str :=
  Eval vm_compute in
    u8 "e  A  A  A  A  x  i  E  E  E  E  G  G  3  G  G  b  bV V  d  d  i  u  4  8  ".

Definition lish_monograph : str :=
  Eval vm_compute in u8 "a b  c d e f g h  i j k l m n o p q r s t u v w x  y z 3 8 9 4 ".
Definition l_uglish_monograph : str :=
  Eval vm_compute in u8 "a bv s d e f g xi i 3 k l m n o p q r s t i v o 3x i z 3 8 8 4 ".

Definition tiebreaker_tokens_lish : str :=
  Eval vm_compute in u8 "y u h ai au ay ei eu ey oi ou mv".
Definition tiebreaker_tokens_greek : str :=
  Eval vm_compute in u8 "υ υ η αι αυ αυ ει ευ ευ οι ου μβ".

Definition tiebreaker_dict : dict :=
  Eval vm_compute in
    fold_left (fun d '(tok_lish, tok_greek) => dict_set d tok_lish tok_greek)
      (zip (split tiebreaker_tokens_lish) (split tiebreaker_tokens_greek)) [].

Definition lat_accent_dictionary : dict :=
  Eval vm_compute in
    from_ok [] (make_dictionary_from_strings lat_accented lat_unaccented).
Definition l2u_dict : dict :=
  Eval vm_compute in
    from_ok [] (make_dictionary_from_strings
                  (lish_trigraph ++ lish_digraph ++ lish_monograph)
                  (l_uglish_trigraph ++ l_uglish_digraph ++ l_uglish_monograph)).

Definition is_greek_letter (char : str) : bool :=
  let alphabet := greek_monograph ++ u8 " " ++ greek_accented in
  if str_in char alphabet && negb (bool_decide (char = u8 " ")) then true else false.

Definition is_latin_letter (char : str) : bool :=
  let alphabet := lish_monograph ++ u8 " " ++ lat_accented in
  if str_in char alphabet && negb (bool_decide (char = u8 " ")) then true else false.

(** The graph list of [tokenize_graphs]: the keys of a table or the words of
    a string. *)
Inductive graph_string_or_dict :=
  | GraphString (graph_string : str)
  | GraphDict (graph_dict : dict).

Fixpoint tokenize_loop (fuel : nat) (graph_list : list str) (word : str)
    (token_list : list str) : M (list str) :=
  match word with
  | [] => Ok token_list
  | c :: rest =>
    match fuel with
    | O => Diverge
    | S fuel' =>
      match find (startswith word) graph_list with
      | Some graph =>
        tokenize_loop fuel' graph_list (drop (length graph) word) (token_list ++ [graph])
      | None => tokenize_loop fuel' graph_list rest (token_list ++ [[c]])
      end
    end
  end.

Definition tokenize_graphs (word : str) (graphs : graph_string_or_dict) : M (list str) :=
  let graph_list :=
    match graphs with
    | GraphDict d => keys d
    | GraphString s => split s
    end in
  tokenize_loop (length word) graph_list word [].

Definition count_graphs (word : str) (graphs : graph_string_or_dict) : M Z :=
  toks ← tokenize_graphs word graphs; Ok (Z.of_nat (length toks)).

Definition find_accent (string : str) : list nat :=
  flat_map (fun '(pos, l) =>
              if str_in [l] greek_accented || str_in [l] lat_accented then [pos] else [])
           (enumerate string).

Definition find_accent_graph_position (word : str) (graph_string : graph_string_or_dict)
    : M Z :=
  match getitem (find_accent word) 0 with
  | Raise IndexError => Ok 100
  | Ok accent_pos =>
    let word := take (accent_pos + 1) word in
    ws ← replace word greek_accent_dictionary;
    word ← getitem ws 0;
    ws ← replace word lat_accent_dictionary;
    word ← getitem ws 0;
    count_graphs word graph_string
  | Raise e => Raise e
  | Diverge => Diverge
  end.

(** [sorted(l, key=key)]: Python's sort is stable; insertion from the right
    in front of the first element whose key is not smaller is the stable
    sort. *)
Fixpoint insert_by {A} (key : A -> Z) (x : A) (l : list A) : list A :=
  match l with
  | [] => [x]
  | y :: l' => if key y <? key x then y :: insert_by key x l' else x :: l
  end.

Fixpoint sorted {A} (key : A -> Z) (l : list A) : list A :=
  match l with
  | [] => []
  | x :: l' => insert_by key x (sorted key l')
  end.

Definition sort_possibilities_by (possibilities : list str) (metric_list : list Z)
    : M (list str) :=
  let sorted_indices := map fst (sorted snd (enumerate metric_list)) in
  for_each (fun i => getitem possibilities i) sorted_indices.

(** ** The earlier transducer

    [replace_old] on a string: it visits every position of the input once,
    tries every graph at it without leaving the loop at a match, and
    overwrites a matched graph with underscores, which the later positions
    skip.  On a list of strings it calls [replace], as [replace] does, and
    is [replace_list]. *)
Definition replace_old_graph (pos : nat) (replace_dict : dict)
    (state : bool * str * list str) (original_graph : str) : M (bool * str * list str) :=
  let '(replace_made, s_in, s_out) := state in
  let char := take (length original_graph) (drop pos s_in) in
  if bool_decide (char = original_graph) then
    alternatives ← dict_get replace_dict original_graph;
    Ok (true,
        take pos s_in ++ repeat 95 (length original_graph)
          ++ drop (pos + length original_graph) s_in,
        flat_map (fun alternative => map (fun string => string ++ [alternative]) s_out)
                 alternatives)
  else Ok state.

Definition replace_old_position (replace_dict : dict) (state : str * list str) (pos : nat)
    : M (str * list str) :=
  let '(s_in, s_out) := state in
  '(replace_made, s_in, s_out) ←
    for_loop (replace_old_graph pos replace_dict) (keys replace_dict) (false, s_in, s_out);
  if negb replace_made then
    c ← getitem s_in pos;
    if negb (c =? 95) then Ok (s_in, map (fun string => string ++ [c]) s_out)
    else Ok (s_in, s_out)
  else Ok (s_in, s_out).

Definition replace_old (string : str) (replace_dict : dict) : M (list str) :=
  '(s_in, s_out) ←
    for_loop (replace_old_position replace_dict) (seq 0 (length string)) (string, [[]]);
  Ok s_out.

(** ** The program

    [str.lower], [str.upper] and [str.isupper] are Python's; the index
    [uglish_dict] is loaded from [uglish-dict.json.gz].  The program is
    parameterised by them. *)
Section Program.

Variable lower upper : str -> str.
Variable isupper : str -> bool.
Variable uglish_dict : gmap str (list str).

Definition is_greek (string : str) : M bool :=
  ws ← replace (lower string) greek_accent_dictionary;
  string ← getitem ws 0;
  Ok (forallb (fun letter => is_greek_letter [letter]) string).

Definition is_latin (string : str) : M bool :=
  ws ← replace (lower string) greek_accent_dictionary;
  string ← getitem ws 0;
  Ok (forallb (fun letter => is_latin_letter [letter]) string).

Definition greek_to_uglish (string : str) : M (list str) :=
  let s := lower string in
  s ← replace s greek_accent_dictionary;
  s ← replace_list s g2u_dict;
  Ok s.

(** [build_g_uglish_dict] on the lines of the word list, from the empty
    index.  [LIMIT] is [-1], so the test on [line_number] never leaves the
    loop; reading the list and writing the index are left out. *)
Definition build_line (uglish_dict : gmap str (list str)) (line : str)
    : M (gmap str (list str)) :=
  word ← getitem (split line) 0;
  let word := strip word in
  greek ← is_greek word;
  if negb greek then Ok uglish_dict
  else if (1 <? length (find_accent word))%nat then Ok uglish_dict
  else
    uglish ← greek_to_uglish word;
    Ok (fold_left (fun (uglish_dict : gmap str (list str)) uglish_word =>
                     let uglish_dict :=
                       match uglish_dict !! uglish_word with
                       | None => <[uglish_word := []]> uglish_dict
                       | Some _ => uglish_dict
                       end in
                     match uglish_dict !! uglish_word with
                     | Some words => <[uglish_word := words ++ [word]]> uglish_dict
                     | None => uglish_dict
                     end)
                  uglish uglish_dict).

Definition build_g_uglish_dict (lines : list str) : M (gmap str (list str)) :=
  for_loop build_line lines ∅.

Definition lish_to_uglish (string : str) : M (list str) :=
  let s := lower string in
  s ← replace s lat_accent_dictionary;
  s ← replace_list s l2u_dict;
  Ok s.

Definition find_possibilities (lat_string : str) : M (list str) :=
  uglish ← lish_to_uglish lat_string;
  Ok (flat_map (fun uglish_word =>
                  match uglish_dict !! uglish_word with
                  | Some words => words
                  | None => []
                  end) uglish).

Definition sort_possibilities_by_accent (lat_string : str) (possibilities : list str)
    : M (list str) :=
  if (length (find_accent lat_string) =? 0)%nat then Ok possibilities
  else
    lat_accent_position ←
      find_accent_graph_position lat_string
        (GraphString (lish_trigraph ++ lish_digraph ++ lish_monograph));
    greek_accent_position_differences ←
      for_each (fun greek_word =>
                  p ← find_accent_graph_position greek_word
                        (GraphString (greek_digraph ++ greek_monograph));
                  Ok (Z.abs (p - lat_accent_position)))
               possibilities;
    sort_possibilities_by possibilities greek_accent_position_differences.

Definition digraphs_to_monographs : list str := Eval vm_compute in split (u8 "ch th ps").

Definition sort_possibilities_by_length (lat_string : str) (possibilities : list str)
    : M (list str) :=
  let lat_len := Z.of_nat (length lat_string) in
  let lat_len :=
    fold_left (fun lat_len digraph => lat_len - count (lower lat_string) digraph)
              digraphs_to_monographs lat_len in
  let greek_length_differences :=
    map (fun greek_word => Z.abs (Z.of_nat (length greek_word) - lat_len)) possibilities in
  sort_possibilities_by possibilities greek_length_differences.

(** The inner loop of the tie-break stage, for the Latin token at position
    [i] with target [target_greek_tok]. *)
Definition tiebreak_token (i : nat) (target_greek_tok : str)
    (tokenized_possibilities : list (list str)) (inverse_probabilities : list Z)
    : M (list Z) :=
  for_loop (fun inverse_probabilities '(j, tokenized_possibility) =>
              tok ← getitem tokenized_possibility i;
              if bool_decide (tok = target_greek_tok)
              then p ← getitem inverse_probabilities j;
                   Ok (<[j := p - 1]> inverse_probabilities)
              else Ok inverse_probabilities)
           (enumerate tokenized_possibilities) inverse_probabilities.

Definition sort_possibilities_by_tiebreakers (lat_string : str) (possibilities : list str)
    : M (list str) :=
  ws ← replace (lower lat_string) lat_accent_dictionary;
  lat_string ← getitem ws 0;
  tokenized_lat ← tokenize_graphs lat_string (GraphDict l2u_dict);
  let inverse_probabilities := repeat 100 (length possibilities) in
  tokenized_possibilities ←
    for_each (fun possibility =>
                ws ← replace (lower possibility) greek_accent_dictionary;
                w ← getitem ws 0;
                tokenize_graphs w (GraphDict g2u_dict))
             possibilities;
  inverse_probabilities ←
    for_loop (fun inverse_probabilities '(i, tok) =>
                match dict_get tiebreaker_dict tok with
                | Raise KeyError => Ok inverse_probabilities
                | Ok target_greek_tok =>
                  tiebreak_token i target_greek_tok tokenized_possibilities
                    inverse_probabilities
                | Raise e => Raise e
                | Diverge => Diverge
                end)
             (enumerate tokenized_lat) inverse_probabilities;
  sort_possibilities_by possibilities inverse_probabilities.

Definition sorted_possibilities (lat_string : str) : M (list str) :=
  possibilities ← find_possibilities lat_string;
  possibilities ← sort_possibilities_by_length lat_string possibilities;
  possibilities ← sort_possibilities_by_accent lat_string possibilities;
  possibilities ← sort_possibilities_by_tiebreakers lat_string possibilities;
  Ok possibilities.

Definition guess (word : str) : M str :=
  w0 ← getitem word 0;
  let capitalize := if isupper [w0] then true else false in
  guess_list ← sorted_possibilities word;
  let translated_word :=
    match getitem guess_list 0 with
    | Ok w => w
    | _ => word
    end in
  if capitalize
  then t0 ← getitem translated_word 0; Ok (upper [t0] ++ drop 1 translated_word)
  else Ok translated_word.

(** One iteration of the loop of [translate_text] on the state
    [(word, text_out)]. *)
Definition translate_step (state : str * str) (char : Z) : M (str * str) :=
  let '(word, text_out) := state in
  if negb (is_latin_letter (lower [char])) then
    match word with
    | _ :: _ => g ← guess word; Ok ([], text_out ++ g ++ [char])
    | [] => Ok (word, text_out ++ [char])
    end
  else Ok (word ++ [char], text_out).

Definition translate_text (text : str) : M str :=
  '(word, text_out) ← for_loop translate_step text ([], []);
  match word with
  | _ :: _ => g ← guess word; Ok (text_out ++ g)
  | [] => Ok text_out
  end.

End Program.

(** ** A case mapping and an index to run the program

    [lower_model], [upper_model] and [isupper_model] stand for Python's
    case functions in the examples.  They agree with them on the ASCII
    letters, on the Latin-1 and Greek letters whose other case is a single
    character of the same block, and on the two accented [w]; every other
    character is mapped to itself.  They differ from Python's where the
    mapping is not of that kind: the sharp s, the y with diaeresis, the
    micro sign, U+0390 and U+03B0 (whose uppercase forms are longer or in
    another block), the Kelvin sign U+212A, and a final sigma.  The
    theorems take the case functions as parameters; the models are used on
    none of these characters. *)
Definition lower_char (c : Z) : Z :=
  if (65 <=? c) && (c <=? 90) then c + 32
  else if (192 <=? c) && (c <=? 222) && negb (c =? 215) then c + 32
  else if (913 <=? c) && (c <=? 939) && negb (c =? 930) then c + 32
  else if c =? 902 then 940
  else if (904 <=? c) && (c <=? 906) then c + 37
  else if c =? 908 then 972
  else if (910 <=? c) && (c <=? 911) then c + 63
  else if (c =? 7808) || (c =? 7810) then c + 1
  else c.

Definition isupper_char (c : Z) : bool :=
  (65 <=? c) && (c <=? 90)
  || (192 <=? c) && (c <=? 222) && negb (c =? 215)
  || (913 <=? c) && (c <=? 939) && negb (c =? 930)
  || (c =? 902) || (904 <=? c) && (c <=? 906) || (c =? 908)
  || (910 <=? c) && (c <=? 911) || (c =? 7808) || (c =? 7810).

Definition upper_char (c : Z) : Z :=
  if (97 <=? c) && (c <=? 122) then c - 32
  else if (224 <=? c) && (c <=? 254) && negb (c =? 247) then c - 32
  else if (945 <=? c) && (c <=? 971) && negb (c =? 962) then c - 32
  else if c =? 962 then 931
  else if c =? 940 then 902
  else if (941 <=? c) && (c <=? 943) then c - 37
  else if c =? 972 then 908
  else if (973 <=? c) && (c <=? 974) then c - 63
  else if (c =? 7809) || (c =? 7811) then c - 1
  else c.

Definition lower_model (s : str) : str := map lower_char s.
Definition upper_model (s : str) : str := map upper_char s.
Definition isupper_model (s : str) : bool :=
  existsb isupper_char s && forallb (fun c => upper_char c =? c) s.

(** The index of the three words "τα", "τά" and "ξ". *)
Definition example_index : gmap str (list str) :=
  {[ u8 "ta" := [u8 "τα"; u8 "τά"]; u8 "3" := [u8 "ξ"] ]}.

(** The index of the two words "ειχύ" and "είχυ", in this order. *)
Definition accent_index : gmap str (list str) :=
  {[ u8 "ixi" := [u8 "ειχύ"; u8 "είχυ"] ]}.

(** * Definitions of the specification

    The properties and the derived quantities the theorems are stated
    with. *)

(** The graphs (keys), the alternatives (values) of a table are non-empty
    strings. *)
Definition graphs_nonempty (d : dict) : Prop := Forall (fun kv => kv.1 <> []) d.
Definition alternatives_nonempty (d : dict) : Prop := Forall (fun kv => kv.2 <> []) d.

(** A table of single characters: every graph and every value is one
    character. *)
Definition char_table (d : dict) : Prop :=
  Forall (fun kv => length kv.1 = 1%nat /\ length kv.2 = 1%nat) d.

(** The image of a character under a table of single characters. *)
Definition table_char (d : dict) (c : Z) : Z :=
  match dict_get d [c] with
  | Ok (v :: _) => v
  | _ => c
  end.

(** First by key, then by the order [R] the list had before. *)
Definition lex {A} (key : A -> Z) (R : A -> A -> Prop) (a b : A) : Prop :=
  key a < key b \/ (key a = key b /\ R a b).

(** The order of the positions in the list. *)
Definition by_position {A} (a b : nat * A) : Prop := (a.1 < b.1)%nat.

(** [r] is [l] sorted by ascending [key], elements of equal key in the
    order they have in [l]: [r] lists the positions of [l], each once, in
    the strict order of the pairs (key, position). *)
Definition stably_sorted_by (key : str -> Z) (l r : list str) : Prop :=
  exists t : list (nat * str),
    r = map snd t /\ Permutation t (enumerate l)
    /\ StronglySorted (lex (fun ix => key ix.2) by_position) t.

(** The number of positions of [s] at which [sub] occurs. *)
Fixpoint occurrences (sub s : str) : Z :=
  match s with
  | [] => 0
  | _ :: s' => (if startswith s sub then 1 else 0) + occurrences sub s'
  end.

(** The test of [find_accent] on a character. *)
Definition accent_mark (c : Z) : bool :=
  str_in [c] greek_accented || str_in [c] lat_accented.

(** The first position of [s], counted from [k], that holds an accent. *)
Fixpoint first_accent_from (k : nat) (s : str) : option nat :=
  match s with
  | [] => None
  | c :: s' => if accent_mark c then Some k else first_accent_from (S k) s'
  end.

(** A string loses its accents in the two passes of
    [find_accent_graph_position]. *)
Definition strip_accents (s : str) : str :=
  map (table_char lat_accent_dictionary) (map (table_char greek_accent_dictionary) s).

(** The graph strings the accent stage tokenizes with. *)
Definition lish_graphs : str := lish_trigraph ++ lish_digraph ++ lish_monograph.
Definition greek_graphs : str := greek_digraph ++ greek_monograph.

(** The value [find_accent_graph_position] returns for a graph string. *)
Definition accent_graph_position (word graph_string : str) : Z :=
  from_ok 100 (find_accent_graph_position word (GraphString graph_string)).

(** The metric of the accent stage when the Latin word has an accent. *)
Definition accent_difference (lat_string greek_word : str) : Z :=
  Z.abs (accent_graph_position greek_word greek_graphs
         - accent_graph_position lat_string lish_graphs).

(** The key of the accent stage: the accent-position difference when the
    Latin word has an accent; without one the stage does not sort. *)
Definition accent_key (lat_string greek_word : str) : Z :=
  if (length (find_accent lat_string) =? 0)%nat then 0
  else accent_difference lat_string greek_word.

(** Some graph of the table starts with [c] (or is empty). *)
Definition graph_start (d : dict) (c : Z) : bool :=
  existsb (fun k => match k with [] => true | k0 :: _ => k0 =? c end) (keys d).

(** With every graph, the table has the graph of its first character. *)
Definition monograph_closed (d : dict) : bool :=
  forallb (fun k => match k with
                    | [] => false
                    | k0 :: _ => existsb (fun k' => bool_decide (k' = [k0])) (keys d)
                    end) (keys d).

(** A character that starts no graph of the accent table nor of the Greek
    graph table. *)
Definition canonical (c : Z) : Prop :=
  graph_start greek_accent_dictionary c = false /\ graph_start g2u_dict c = false.

(** The two transduction passes of [greek_to_uglish], without [lower]. *)
Definition greek_passes (s : str) : M (list str) :=
  s ← replace s greek_accent_dictionary;
  s ← replace_list s g2u_dict;
  Ok s.

(** The effect on a candidate's score of the Latin token at position [i]
    with target [target_greek_tok]. *)
Definition tiebreak_step (i : nat) (target_greek_tok : str) (tokenized_possibility : list str)
    (p : Z) : Z :=
  if bool_decide (tokenized_possibility !! i = Some target_greek_tok) then p - 1 else p.

(** The score of a candidate with tokens [tokenized_possibility] after the
    Latin tokens [toks], listed with their positions, starting from [p]. *)
Definition tiebreak_fold (toks : list (nat * str)) (tokenized_possibility : list str) (p : Z)
    : Z :=
  fold_left (fun p '(i, tok) =>
               match dict_get tiebreaker_dict tok with
               | Ok target_greek_tok => tiebreak_step i target_greek_tok tokenized_possibility p
               | _ => p
               end) toks p.

(** Every candidate has a token wherever the Latin word has a tiebreaker. *)
Definition tokens_reach (toks : list (nat * str)) (tps : list (list str)) : Prop :=
  forall i tok target, In (i, tok) toks -> dict_get tiebreaker_dict tok = Ok target ->
  forall tp, In tp tps -> (i < length tp)%nat.

(** The alphabet [is_latin_letter] tests against, and its letters. *)
Definition latin_alphabet : str := lish_monograph ++ u8 " " ++ lat_accented.
Definition latin_letters : str :=
  Eval vm_compute in u8 "abcdefghijklmnopqrstuvwxyz3894àèìòùẁáéíóúẃ".

Section Specification.

Variable lower upper : str -> str.
Variable isupper : str -> bool.
Variable uglish_dict : gmap str (list str).

(** The Latin length less one for each occurrence of "ch", "th", "ps" in
    the lowercased word. *)
Definition adjusted_latin_length (lat_string : str) : Z :=
  Z.of_nat (length lat_string)
  - occurrences (u8 "ch") (lower lat_string)
  - occurrences (u8 "th") (lower lat_string)
  - occurrences (u8 "ps") (lower lat_string).

(** The metric of the length-fit stage. *)
Definition length_difference (lat_string greek_word : str) : Z :=
  Z.abs (Z.of_nat (length greek_word) - adjusted_latin_length lat_string).

(** The tokens the stage compares: of the accent-stripped lowercased Latin
    word under the Latin table, of a candidate under the Greek table. *)
Definition lat_tokens (lat_string : str) : list str :=
  from_ok [] (tokenize_graphs (map (table_char lat_accent_dictionary) (lower lat_string))
                (GraphDict l2u_dict)).

Definition greek_tokens (possibility : str) : list str :=
  from_ok [] (tokenize_graphs (map (table_char greek_accent_dictionary) (lower possibility))
                (GraphDict g2u_dict)).

(** The score of a candidate: 100 less the number of positions at which
    the Latin word has a tiebreaker token and the candidate its target. *)
Definition tiebreak_score (lat_string possibility : str) : Z :=
  tiebreak_fold (enumerate (lat_tokens lat_string)) (greek_tokens possibility) 100.

(** Every candidate has a token at each tiebreaker position of the Latin
    word. *)
Definition candidates_reach (lat_string : str) (possibilities : list str) : Prop :=
  tokens_reach (enumerate (lat_tokens lat_string)) (map greek_tokens possibilities).

(** Every word of the index is filed under its own canonical forms, as
    [build_g_uglish_dict] files it. *)
Definition index_consistent : Prop :=
  forall (uglish_word : str) (words : list str) (word : str),
    uglish_dict !! uglish_word = Some words -> In word words ->
    exists us, greek_to_uglish lower word = Ok us /\ In uglish_word us.

(** The stages of [sorted_possibilities] after the lookup. *)
Definition sort_stages (lat_string : str) (possibilities : list str) : M (list str) :=
  possibilities ← sort_possibilities_by_length lower lat_string possibilities;
  possibilities ← sort_possibilities_by_accent lat_string possibilities;
  sort_possibilities_by_tiebreakers lower lat_string possibilities.

(** The lexicographic order on the candidates with their positions in the
    list: tie-break score, accent key, length difference, position. *)
Definition rank_lt (lat_string : str) : nat * str -> nat * str -> Prop :=
  lex (fun ix => tiebreak_score lat_string ix.2)
    (lex (fun ix => accent_key lat_string ix.2)
       (lex (fun ix => length_difference lat_string ix.2) by_position)).

(** The classification of the segmenter. *)
Definition latin (c : Z) : bool := is_latin_letter (lower [c]).

(** What [translate_text] does after its loop. *)
Definition flush (state : str * str) : M str :=
  let '(word, text_out) := state in
  match word with
  | _ :: _ => g ← guess lower upper isupper uglish_dict word; Ok (text_out ++ g)
  | [] => Ok text_out
  end.

(** The loop from the state [(word, text_out)] on, and the flush. *)
Definition translate_from (text : str) (state : str * str) : M str :=
  state' ← for_loop (translate_step lower upper isupper uglish_dict) text state; flush state'.

End Specification.

(** ** Definitions for the further properties *)

(** The characters a token is transduced to: the alternatives of its graph,
    or the token itself when it is no graph of the table. *)
Definition token_alternatives (d : dict) (tok : str) : str :=
  match dict_get d tok with
  | Ok alternatives => alternatives
  | _ => tok
  end.

(** The outputs [s_out] extended by one of [alternatives], in the order of
    [replace]. *)
Definition fan_out (s_out : list str) (alternatives : str) : list str :=
  flat_map (fun alternative => map (fun string => string ++ [alternative]) s_out)
           alternatives.

(** Every graph of the table has one alternative. *)
Definition single_valued (d : dict) : Prop := Forall (fun kv => length kv.2 = 1%nat) d.

(** The alphabet [is_greek_letter] tests against. *)
Definition greek_alphabet : str := greek_monograph ++ u8 " " ++ greek_accented.

(** A string without its underscores. *)
Definition without_underscores (s : str) : str := filter (fun c => c <> 95) s.

(** No graph of the table is empty or starts with an underscore, and no
    alternative is an underscore. *)
Definition underscore_free (d : dict) : Prop :=
  Forall (fun kv => (exists c g, kv.1 = c :: g /\ c <> 95) /\ ~ In 95 kv.2) d.

(** The words filed under a key of the index, none for a missing key. *)
Definition bucket (uglish_dict : gmap str (list str)) (uglish_word : str) : list str :=
  default [] (uglish_dict !! uglish_word).

(** The word [build_g_uglish_dict] reads from a line. *)
Definition line_word (line : str) : str := strip (hd [] (split line)).

Section IndexSpecification.

Variable lower : str -> str.

(** The words [build_g_uglish_dict] files: Greek, with at most one accent. *)
Definition qualifies (word : str) : bool :=
  from_ok false (is_greek lower word) && (length (find_accent word) <=? 1)%nat.

(** The canonical form of a Greek word, the first that [greek_to_uglish]
    returns. *)
Definition canonical_form (word : str) : str :=
  hd [] (from_ok [] (greek_to_uglish lower word)).

(** The words of the lines that are filed under [uglish_word], in the order
    of the lines. *)
Definition filed_under (lines : list str) (uglish_word : str) : list str :=
  List.filter (fun word => qualifies word && bool_decide (canonical_form word = uglish_word))
              (map line_word lines).

End IndexSpecification.

(** No word of the index is the empty string. *)
Definition words_nonempty (uglish_dict : gmap str (list str)) : Prop :=
  forall (uglish_word : str) (words : list str) (word : str),
    uglish_dict !! uglish_word = Some words -> In word words -> word <> [].

(** [form] has one character for each token, one of the alternatives of
    the token. *)
Definition picks (d : dict) (toks : list str) (form : str) : Prop :=
  Forall2 (fun c tok => In c (token_alternatives d tok)) form toks.

(** The number of ways to pick one alternative for each token. *)
Definition choices (d : dict) (toks : list str) : nat :=
  fold_right Nat.mul 1%nat (map (fun tok => length (token_alternatives d tok)) toks).

(** ** Definitions for the accent position

    [graph] is the first graph of the list that [word] starts with. *)
Definition first_graph (graph_list : list str) (word graph : str) : Prop :=
  exists earlier later,
    graph_list = earlier ++ graph :: later
    /\ (exists rest, word = graph ++ rest)
    /\ forall g, In g earlier -> ~ exists rest, word = g ++ rest.

(** The graphs of a word under a graph list, read from the left: the first
    graph of the list that what is left of the word starts with, or the
    next character when it starts with none. *)
Inductive graphs_of (graph_list : list str) : str -> list str -> Prop :=
| graphs_of_nil : graphs_of graph_list [] []
| graphs_of_graph (graph rest : str) (toks : list str) :
    graph <> [] -> first_graph graph_list (graph ++ rest) graph ->
    graphs_of graph_list rest toks ->
    graphs_of graph_list (graph ++ rest) (graph :: toks)
| graphs_of_char (c : Z) (rest : str) (toks : list str) :
    (forall g, In g graph_list -> ~ exists r, c :: rest = g ++ r) ->
    graphs_of graph_list rest toks ->
    graphs_of graph_list (c :: rest) ([c] :: toks).

(** * Verification *)

(** ** The monad *)

Lemma bind_Ok {A B} (m : M A) (f : A -> M B) (b : B) :
  m ≫= f = Ok b -> exists a, m = Ok a /\ f a = Ok b.
Proof. destruct m as [a| |]; simpl; intros H; try discriminate. eauto. Qed.

Lemma bind_assoc {A B C} (m : M A) (f : A -> M B) (g : B -> M C) :
  (m ≫= f) ≫= g = m ≫= (fun a => f a ≫= g).
Proof. destruct m; reflexivity. Qed.

Lemma bind_ret {A} (m : M A) : (a ← m; Ok a) = m.
Proof. destruct m; reflexivity. Qed.

Lemma bind_ext {A B} (m : M A) (f g : A -> M B) :
  (forall a, f a = g a) -> m ≫= f = m ≫= g.
Proof. intros H. destruct m; simpl; [apply H | reflexivity | reflexivity]. Qed.

Lemma for_each_Ok {A B} (f : A -> M B) (g : A -> B) (l : list A) :
  (forall x, In x l -> f x = Ok (g x)) -> for_each f l = Ok (map g l).
Proof.
  induction l as [|x l IH]; intros H; simpl; [reflexivity|].
  rewrite (H x) by (left; reflexivity). simpl.
  rewrite IH by (intros y Hy; apply H; right; exact Hy). reflexivity.
Qed.

Lemma for_each_length {A B} (f : A -> M B) (l : list A) (r : list B) :
  for_each f l = Ok r -> length r = length l.
Proof.
  revert r. induction l as [|x l IH]; simpl; intros r H.
  - injection H as <-. reflexivity.
  - apply bind_Ok in H as (y & _ & H). apply bind_Ok in H as (ys & Hys & H).
    injection H as <-. simpl. f_equal. apply IH, Hys.
Qed.

(** ** Prefixes *)

Lemma startswith_app (s prefix : str) :
  startswith s prefix = true <-> exists rest, s = prefix ++ rest.
Proof.
  revert s. induction prefix as [|p prefix IH]; intros s; simpl.
  - split; [intros _; exists s; reflexivity | reflexivity].
  - destruct s as [|c s].
    + split; [discriminate | intros [rest H]; discriminate].
    + rewrite andb_true_iff, Z.eqb_eq, IH. split.
      * intros [-> [rest ->]]. exists rest. reflexivity.
      * intros [rest H]. injection H as -> ->. eauto.
Qed.

Lemma startswith_drop (s prefix : str) :
  startswith s prefix = true -> s = prefix ++ drop (length prefix) s.
Proof.
  intros H. apply startswith_app in H as [rest ->].
  rewrite drop_app_length. reflexivity.
Qed.

Lemma find_keys_get (d : dict) (P : str -> bool) (k : str) :
  find P (keys d) = Some k -> exists v, dict_get d k = Ok v /\ In (k, v) d.
Proof.
  intros H. apply find_some in H as [Hin _]. clear P.
  induction d as [|[k' v'] d IH]; simpl in *; [contradiction|].
  case_bool_decide as Hk.
  - subst k'. exists v'. split; [reflexivity | left; reflexivity].
  - destruct Hin as [Hin | Hin]; [congruence|].
    destruct (IH Hin) as (v & Hv & Hd). exists v. split; [exact Hv | right; exact Hd].
Qed.

(** ** The transducer returns, and returns at least one string *)

Lemma find_graph_shorter (d : dict) (s k : str) :
  graphs_nonempty d -> find (startswith s) (keys d) = Some k ->
  (length (drop (length k) s) < length s)%nat.
Proof.
  intros Hd H. destruct (find_keys_get _ _ _ H) as (v & _ & Hin).
  apply find_some in H as [_ Hs]. apply startswith_drop in Hs.
  unfold graphs_nonempty in Hd. rewrite List.Forall_forall in Hd. specialize (Hd _ Hin). simpl in Hd.
  rewrite Hs at 2. rewrite length_app. destruct k; [congruence | simpl; lia].
Qed.

Lemma fan_out_nonempty (alternatives : str) (s_out : list str) :
  alternatives <> [] -> s_out <> [] ->
  flat_map (fun alternative => map (fun string => string ++ [alternative]) s_out)
    alternatives <> [].
Proof.
  destruct alternatives as [|a alts]; [congruence|].
  destruct s_out as [|o s_out]; [congruence|]. simpl. discriminate.
Qed.

Lemma replace_loop_returns (d : dict) :
  graphs_nonempty d -> alternatives_nonempty d ->
  forall fuel s_in s_out, (length s_in <= fuel)%nat -> s_out <> [] ->
  exists l, replace_loop fuel d s_in s_out = Ok l /\ l <> [].
Proof.
  intros Hk Hv. induction fuel as [|fuel IH]; intros s_in s_out Hlen Hout.
  - destruct s_in; [|simpl in Hlen; lia]. exists s_out. split; [reflexivity | exact Hout].
  - destruct s_in as [|c rest]; [exists s_out; split; [reflexivity | exact Hout]|].
    cbn [replace_loop].
    destruct (find (startswith (c :: rest)) (keys d)) as [k|] eqn:Hf.
    + pose proof (find_graph_shorter _ _ _ Hk Hf) as Hsh.
      destruct (find_keys_get _ _ _ Hf) as (v & -> & Hin). cbn [mbind M_bind].
      apply IH; [simpl in *; lia|].
      apply fan_out_nonempty; [|exact Hout].
      unfold alternatives_nonempty in Hv. rewrite List.Forall_forall in Hv. apply (Hv _ Hin).
    + apply IH; [simpl in Hlen; lia|]. destruct s_out; [congruence | discriminate].
Qed.

Lemma replace_loop_fuel (d : dict) (fuel fuel' : nat) (s_in : str) (s_out l : list str) :
  replace_loop fuel d s_in s_out = Ok l -> (fuel <= fuel')%nat ->
  replace_loop fuel' d s_in s_out = Ok l.
Proof.
  revert fuel' s_in s_out. induction fuel as [|fuel IH]; intros fuel' s_in s_out H Hle.
  - destruct s_in; [|discriminate]. destruct fuel'; exact H.
  - destruct fuel' as [|fuel']; [lia|]. destruct s_in as [|c rest]; [exact H|].
    cbn [replace_loop] in *.
    destruct (find (startswith (c :: rest)) (keys d)) as [k|].
    + destruct (dict_get d k); cbn [mbind M_bind] in *; try discriminate.
      apply IH; [exact H | lia].
    + apply IH; [exact H | lia].
Qed.

(** ** Tables built by [make_dictionary_from_strings] *)

Lemma for_loop_invariant {S A} (I : S -> Prop) (P : A -> Prop) (body : S -> A -> M S)
    (l : list A) (st r : S) :
  Forall P l ->
  (forall s x s', I s -> P x -> body s x = Ok s' -> I s') ->
  I st -> for_loop body l st = Ok r -> I r.
Proof.
  intros Hl Hbody. revert st. induction Hl as [|x l Hx Hl IH]; intros st Hst H; simpl in H.
  - injection H as <-. exact Hst.
  - apply bind_Ok in H as (st' & Hb & H). exact (IH st' (Hbody _ _ _ Hst Hx Hb) H).
Qed.

Lemma split_from_nonempty (s cur : str) : Forall (fun w => w <> []) (split_from cur s).
Proof.
  revert cur. induction s as [|c s IH]; intros cur; simpl.
  - destruct cur; [constructor | constructor; [discriminate | constructor]].
  - destruct (isspace c).
    + destruct cur; [apply IH | constructor; [discriminate | apply IH]].
    + apply IH.
Qed.

Lemma enumerate_In {A} (l : list A) (i : nat) (x : A) : In (i, x) (enumerate l) -> In x l.
Proof.
  unfold enumerate. rewrite <- !list_elem_of_In. apply elem_of_zip_r.
Qed.

Lemma getitem_Some {A} (l : list A) (i : nat) (x : A) : l !! i = Some x -> getitem l i = Ok x.
Proof. unfold getitem. intros ->. reflexivity. Qed.

Lemma getitem_In {A} (l : list A) (i : nat) (x : A) : getitem l i = Ok x -> In x l.
Proof.
  unfold getitem. destruct (l !! i) eqn:H; [|discriminate].
  intros [= <-]. apply list_elem_of_In. eapply list_elem_of_lookup_2, H.
Qed.

Lemma dict_set_Forall (P : str * str -> Prop) (d : dict) (k v : str) :
  Forall P d -> P (k, v) -> Forall P (dict_set d k v).
Proof.
  intros Hd Hkv. induction Hd as [|[k' v'] d Hx Hd IH]; simpl.
  - constructor; [exact Hkv | constructor].
  - case_bool_decide; constructor; assumption.
Qed.

Lemma make_dictionary_from_strings_nonempty (original_string replace_string : str) (d : dict) :
  make_dictionary_from_strings original_string replace_string = Ok d ->
  graphs_nonempty d /\ alternatives_nonempty d.
Proof.
  unfold make_dictionary_from_strings. intros H.
  pose proof (split_from_nonempty original_string []) as Ho.
  pose proof (split_from_nonempty replace_string []) as Hr.
  rewrite List.Forall_forall in Ho, Hr.
  refine (for_loop_invariant (fun d => graphs_nonempty d /\ alternatives_nonempty d)
            (fun il => il.2 <> []) _ _ _ _ _ _ _ H).
  - apply List.Forall_forall. intros [i l] Hin. apply Ho. eapply enumerate_In, Hin.
  - intros s [i l] s' [Hk Hv] Hl Hb. apply bind_Ok in Hb as (r & Hget & Hb).
    injection Hb as <-. apply getitem_In, Hr in Hget.
    split; apply dict_set_Forall; assumption.
  - split; constructor.
Qed.

(** The tables of the module are the results of their constructors. *)
Lemma tables_built :
  make_dictionary_from_strings greek_accented greek_unaccented = Ok greek_accent_dictionary
  /\ make_dictionary_from_strings lat_accented lat_unaccented = Ok lat_accent_dictionary
  /\ make_dictionary_from_strings (greek_digraph ++ greek_monograph)
       (g_uglish_digraph ++ g_uglish_monograph) = Ok g2u_dict
  /\ make_dictionary_from_strings (lish_trigraph ++ lish_digraph ++ lish_monograph)
       (l_uglish_trigraph ++ l_uglish_digraph ++ l_uglish_monograph) = Ok l2u_dict.
Proof. repeat split; vm_compute; reflexivity. Qed.

Lemma replace_returns (d : dict) (s : str) :
  graphs_nonempty d -> alternatives_nonempty d ->
  exists l x, replace s d = Ok l /\ getitem l 0 = Ok x.
Proof.
  intros Hk Hv.
  destruct (replace_loop_returns d Hk Hv (length s) s [[]]) as (l & Hl & Hne);
    [lia | discriminate |].
  destruct l as [|x l]; [congruence|]. exists (x :: l), x. split; [exact Hl | reflexivity].
Qed.

(** C10 (as amended): for every string and every table whose graphs and
    alternatives are all non-empty strings, as those of every table built by
    [make_dictionary_from_strings] are, [replace] returns a list with a
    first element, whatever fuel at least the length of the string the loop
    is run with; [replace] of the empty string returns the list of the empty
    string for every table; and indexing [[0]] into the result for the two
    accent tables, as [is_greek], [is_latin], [find_accent_graph_position]
    and [sort_possibilities_by_tiebreakers] do, never fails. *)
Theorem replace_returns_nonempty :
  (forall (s : str) (d : dict),
      graphs_nonempty d -> alternatives_nonempty d ->
      exists l x, replace s d = Ok l /\ getitem l 0 = Ok x
        /\ forall fuel, (length s <= fuel)%nat -> replace_loop fuel d s [[]] = Ok l)
  /\ (forall d : dict, replace [] d = Ok [[]])
  /\ (forall (original_string replace_string : str) (d : dict),
        make_dictionary_from_strings original_string replace_string = Ok d ->
        graphs_nonempty d /\ alternatives_nonempty d)
  /\ (forall s : str,
        exists w w', (ws ← replace s greek_accent_dictionary; getitem ws 0) = Ok w
                  /\ (ws ← replace s lat_accent_dictionary; getitem ws 0) = Ok w').
Proof.
  split; [|split; [|split]].
  - intros s d Hk Hv. destruct (replace_returns d s Hk Hv) as (l & x & Hl & Hx).
    exists l, x. split; [exact Hl|]. split; [exact Hx|].
    intros fuel Hle. exact (replace_loop_fuel _ _ _ _ _ _ Hl Hle).
  - reflexivity.
  - exact make_dictionary_from_strings_nonempty.
  - intros s. destruct tables_built as (Hg & Hl & _).
    apply make_dictionary_from_strings_nonempty in Hg as [Hg1 Hg2].
    apply make_dictionary_from_strings_nonempty in Hl as [Hl1 Hl2].
    destruct (replace_returns _ s Hg1 Hg2) as (l & x & -> & Hx).
    destruct (replace_returns _ s Hl1 Hl2) as (l' & x' & -> & Hx').
    exists x, x'. split; assumption.
Qed.

Lemma replace_returns_nonempty_witness :
  exists l x, replace (u8 "mbh") l2u_dict = Ok l /\ getitem l 0 = Ok x
    /\ forall fuel, (length (u8 "mbh") <= fuel)%nat ->
         replace_loop fuel l2u_dict (u8 "mbh") [[]] = Ok l.
Proof.
  apply (proj1 replace_returns_nonempty).
  - unfold graphs_nonempty. repeat constructor; discriminate.
  - unfold alternatives_nonempty. repeat constructor; discriminate.
Defined.

(** C10 as stated fails for a table with the empty string as a graph: every
    alternative is non-empty, but the empty graph is a prefix of any input,
    no character is consumed, and the loop never returns. *)
Lemma replace_empty_graph_diverges :
  let d : dict := [([], u8 "a")] in
  alternatives_nonempty d
  /\ forall fuel s_out, replace_loop fuel d (u8 "x") s_out = Diverge.
Proof.
  split.
  - repeat constructor; discriminate.
  - induction fuel as [|fuel IH]; intros s_out; [reflexivity|]. apply IH.
Qed.

(** ** Tables of single characters: the accent tables *)

Lemma dict_get_In (d : dict) (k v : str) : dict_get d k = Ok v -> In (k, v) d.
Proof.
  induction d as [|[k' v'] d IH]; simpl; [discriminate|].
  case_bool_decide as Hk.
  - intros [= <-]. subst k'. left. reflexivity.
  - intros H. right. exact (IH H).
Qed.

Lemma find_None_get (d : dict) (c : Z) (rest : str) :
  find (startswith (c :: rest)) (keys d) = None -> dict_get d [c] = Raise KeyError.
Proof.
  intros Hf. destruct (dict_get d [c]) as [v|e|] eqn:Hg.
  - apply dict_get_In in Hg. apply (in_map fst) in Hg.
    apply (find_none _ _ Hf) in Hg. simpl in Hg.
    rewrite Z.eqb_refl in Hg. discriminate.
  - clear Hf. induction d as [|[k' v'] d IH]; simpl in Hg.
    + injection Hg as <-. reflexivity.
    + destruct (bool_decide (k' = [c])); [discriminate | exact (IH Hg)].
  - clear Hf. induction d as [|[k' v'] d IH]; simpl in Hg; [discriminate|].
    destruct (bool_decide (k' = [c])); [discriminate | exact (IH Hg)].
Qed.

Lemma replace_loop_char_table (d : dict) :
  char_table d ->
  forall (s : str) (fuel : nat) (o : str), (length s <= fuel)%nat ->
  replace_loop fuel d s [o] = Ok [o ++ map (table_char d) s].
Proof.
  intros Hd. induction s as [|c rest IH]; intros fuel o Hlen.
  - destruct fuel; simpl; rewrite app_nil_r; reflexivity.
  - destruct fuel as [|fuel]; [simpl in Hlen; lia|]. cbn [replace_loop].
    destruct (find (startswith (c :: rest)) (keys d)) as [k|] eqn:Hf.
    + destruct (find_keys_get _ _ _ Hf) as (v & Hg & Hin).
      apply find_some in Hf as [_ Hs].
      unfold char_table in Hd. rewrite List.Forall_forall in Hd.
      destruct (Hd _ Hin) as [Hk Hv]. simpl in Hk, Hv.
      destruct k as [|k0 [|]]; try discriminate. destruct v as [|v0 [|]]; try discriminate.
      simpl in Hs. rewrite andb_true_r, Z.eqb_eq in Hs. subst k0.
      rewrite Hg. cbn [mbind M_bind flat_map map app length drop].
      rewrite IH by (simpl in Hlen; lia).
      unfold table_char at 2. rewrite Hg. rewrite <- app_assoc. reflexivity.
    + cbn [map]. rewrite IH by (simpl in Hlen; lia).
      unfold table_char at 2. rewrite (find_None_get _ _ _ Hf).
      rewrite <- app_assoc. reflexivity.
Qed.

Lemma replace_char_table (d : dict) (s : str) :
  char_table d -> replace s d = Ok [map (table_char d) s].
Proof. intros Hd. apply (replace_loop_char_table d Hd s (length s) []). lia. Qed.

Lemma accent_tables_char :
  char_table greek_accent_dictionary /\ char_table lat_accent_dictionary.
Proof. split; repeat constructor. Qed.

Lemma replace_greek_accent (s : str) :
  replace s greek_accent_dictionary = Ok [map (table_char greek_accent_dictionary) s].
Proof. apply replace_char_table, accent_tables_char. Qed.

Lemma replace_lat_accent (s : str) :
  replace s lat_accent_dictionary = Ok [map (table_char lat_accent_dictionary) s].
Proof. apply replace_char_table, accent_tables_char. Qed.

(** ** Tokens and transduced strings

    [replace] and [tokenize_graphs] walk the input the same way; every
    iteration adds one token and one character to every output. *)

Lemma fan_out_length (alternatives : str) (s_out : list str) (n : nat) :
  Forall (fun x => length x = n) s_out ->
  Forall (fun x => length x = S n)
    (flat_map (fun alternative => map (fun string => string ++ [alternative]) s_out)
       alternatives).
Proof.
  intros Ho. induction alternatives as [|a alts IH]; simpl; [constructor|].
  apply Forall_app. split; [|exact IH].
  clear IH. induction Ho as [|x o Hx Ho IH]; simpl; constructor; [|exact IH].
  rewrite length_app. simpl. lia.
Qed.

Lemma tokenize_loop_returns (graph_list : list str) :
  Forall (fun g => g <> []) graph_list ->
  forall fuel word token_list, (length word <= fuel)%nat ->
  exists toks, tokenize_loop fuel graph_list word token_list = Ok toks.
Proof.
  intros Hg. induction fuel as [|fuel IH]; intros word ts Hlen.
  - destruct word; [|simpl in Hlen; lia]. exists ts. reflexivity.
  - destruct word as [|c rest]; [exists ts; reflexivity|]. cbn [tokenize_loop].
    destruct (find (startswith (c :: rest)) graph_list) as [k|] eqn:Hf.
    + apply find_some in Hf as [Hin Hs]. apply IH.
      rewrite List.Forall_forall in Hg. specialize (Hg _ Hin).
      apply startswith_drop in Hs. apply (f_equal length) in Hs.
      rewrite length_app in Hs. destruct k; [congruence|]. simpl in *. lia.
    + apply IH. simpl in Hlen. lia.
Qed.

Lemma replace_tokenize_length (d : dict) :
  graphs_nonempty d ->
  forall fuel s s_out token_list n l,
  (length s <= fuel)%nat ->
  Forall (fun x => length x = (n + length token_list)%nat) s_out ->
  replace_loop fuel d s s_out = Ok l ->
  exists toks, tokenize_loop fuel (keys d) s token_list = Ok toks
    /\ Forall (fun x => length x = (n + length toks)%nat) l.
Proof.
  intros Hk. induction fuel as [|fuel IH]; intros s o ts n l Hlen Ho H.
  - destruct s; [|simpl in Hlen; lia]. injection H as <-. exists ts. split; [reflexivity | exact Ho].
  - destruct s as [|c rest].
    { injection H as <-. exists ts. split; [reflexivity | exact Ho]. }
    cbn [replace_loop tokenize_loop] in *.
    destruct (find (startswith (c :: rest)) (keys d)) as [k|] eqn:Hf.
    + pose proof (find_graph_shorter _ _ _ Hk Hf) as Hsh.
      apply bind_Ok in H as (v & _ & H).
      apply (IH _ _ (ts ++ [k]) n) in H; [exact H | simpl in *; lia |].
      rewrite length_app. simpl. replace (n + (length ts + 1))%nat with (S (n + length ts)) by lia.
      apply fan_out_length, Ho.
    + apply (IH _ _ (ts ++ [[c]]) n) in H; [exact H | simpl in *; lia |].
      rewrite length_app. simpl. clear -Ho.
      induction Ho as [|x o Hx Ho IHo]; simpl; constructor; [|exact IHo].
      rewrite length_app. simpl. lia.
Qed.

(** ** The stable sort *)

Section Sorted.

Context {A : Type}.

Lemma insert_by_Permutation (key : A -> Z) (x : A) (l : list A) :
  Permutation (insert_by key x l) (x :: l).
Proof.
  induction l as [|y l IH]; simpl; [reflexivity|].
  destruct (key y <? key x); [|reflexivity].
  rewrite IH. apply perm_swap.
Qed.

Lemma sorted_Permutation (key : A -> Z) (l : list A) : Permutation (sorted key l) l.
Proof.
  induction l as [|x l IH]; simpl; [reflexivity|].
  rewrite insert_by_Permutation, IH. reflexivity.
Qed.

Lemma lex_key_le (key : A -> Z) (R : A -> A -> Prop) (a b : A) :
  lex key R a b -> key a <= key b.
Proof. intros [H | [H _]]; lia. Qed.

Lemma insert_by_sorted (key : A -> Z) (R : A -> A -> Prop) (x : A) (l : list A) :
  StronglySorted (lex key R) l -> List.Forall (R x) l ->
  StronglySorted (lex key R) (insert_by key x l).
Proof.
  intros Hs Hx. induction Hs as [|y l Hs IH Hy]; simpl.
  - constructor; constructor.
  - destruct (key y <? key x) eqn:Hc.
    + apply Z.ltb_lt in Hc. inversion Hx; subst. constructor; [apply IH; assumption|].
      eapply Permutation_Forall; [symmetry; apply insert_by_Permutation|].
      constructor; [left; exact Hc | exact Hy].
    + apply Z.ltb_ge in Hc. constructor; [constructor; assumption|].
      rewrite List.Forall_forall in *. intros z Hz.
      assert (key y <= key z) as Hyz.
      { destruct Hz as [<- | Hz]; [lia | eapply lex_key_le, Hy, Hz]. }
      destruct (Z.eq_dec (key x) (key z)) as [He | Hne].
      * right. split; [exact He | apply Hx, Hz].
      * left. lia.
Qed.

Lemma sorted_refines (key : A -> Z) (R : A -> A -> Prop) (l : list A) :
  StronglySorted R l -> StronglySorted (lex key R) (sorted key l).
Proof.
  induction 1 as [|x l Hs IH Hx]; simpl; [constructor|].
  apply insert_by_sorted; [exact IH|].
  eapply Permutation_Forall; [symmetry; apply sorted_Permutation | exact Hx].
Qed.

(** A list has one sorted permutation when no two elements are below each
    other. *)
Lemma sorted_Permutation_unique (R : A -> A -> Prop) (l1 l2 : list A) :
  (forall a b, In a l1 -> In b l1 -> R a b -> R b a -> a = b) ->
  StronglySorted R l1 -> StronglySorted R l2 -> Permutation l1 l2 -> l1 = l2.
Proof.
  intros Hanti H1. revert l2. induction H1 as [|a l1 H1 IH Ha]; intros l2 H2 Hp.
  - apply Permutation_nil in Hp. subst. reflexivity.
  - destruct H2 as [|b l2 H2 Hb]; [apply Permutation_sym, Permutation_nil in Hp; discriminate|].
    assert (a = b) as ->.
    { assert (In a (b :: l2)) as Ha2 by (eapply Permutation_in; [exact Hp | left; reflexivity]).
      assert (In b (a :: l1)) as Hb1
        by (eapply Permutation_in; [symmetry; exact Hp | left; reflexivity]).
      destruct Ha2 as [-> | Ha2]; [reflexivity|].
      destruct Hb1 as [-> | Hb1]; [reflexivity|].
      rewrite List.Forall_forall in Ha, Hb.
      apply Hanti; [left; reflexivity | right; exact Hb1 | apply Ha, Hb1 | apply Hb, Ha2]. }
    f_equal. apply IH; [|exact H2 | eapply Permutation_cons_inv, Hp].
    intros x y Hx Hy. apply Hanti; right; assumption.
Qed.

End Sorted.

Lemma insert_by_map {A B} (f : A -> B) (keyA : A -> Z) (keyB : B -> Z) (x : A) (l : list A) :
  (forall y, keyB (f y) = keyA y) ->
  map f (insert_by keyA x l) = insert_by keyB (f x) (map f l).
Proof.
  intros Hk. induction l as [|y l IH]; simpl; [reflexivity|].
  rewrite !Hk. destruct (keyA y <? keyA x); simpl; [rewrite IH|]; reflexivity.
Qed.

Lemma sorted_map {A B} (f : A -> B) (keyA : A -> Z) (keyB : B -> Z) (l : list A) :
  (forall y, keyB (f y) = keyA y) -> map f (sorted keyA l) = sorted keyB (map f l).
Proof.
  intros Hk. induction l as [|x l IH]; simpl; [reflexivity|].
  rewrite (insert_by_map f keyA keyB) by exact Hk. rewrite IH. reflexivity.
Qed.

(** ** [enumerate] *)

Lemma enumerate_fst {A} (l : list A) : map fst (enumerate l) = seq 0 (length l).
Proof. unfold enumerate. apply fst_zip. rewrite length_seq. lia. Qed.

Lemma enumerate_snd {A} (l : list A) : map snd (enumerate l) = l.
Proof. unfold enumerate. apply snd_zip. rewrite length_seq. lia. Qed.

Lemma zip_seq_lookup {A} (l : list A) (k i : nat) (x : A) :
  In (i, x) (zip (seq k (length l)) l) -> (k <= i)%nat /\ l !! (i - k)%nat = Some x.
Proof.
  revert k. induction l as [|y l IH]; intros k; simpl; [contradiction|].
  intros [[= <- <-] | H].
  - split; [lia|]. replace (k - k)%nat with 0%nat by lia. reflexivity.
  - apply IH in H as [Hle H]. split; [lia|].
    replace (i - k)%nat with (S (i - S k)) by lia. exact H.
Qed.

Lemma enumerate_lookup {A} (l : list A) (i : nat) (x : A) :
  In (i, x) (enumerate l) -> l !! i = Some x.
Proof.
  intros H. apply zip_seq_lookup in H as [_ H].
  replace (i - 0)%nat with i in H by lia. exact H.
Qed.

Lemma enumerate_map {A B} (f : A -> B) (l : list A) :
  enumerate (map f l) = map (fun ix => (ix.1, f ix.2)) (enumerate l).
Proof.
  unfold enumerate. rewrite length_map. generalize 0%nat.
  induction l as [|x l IH]; intros k; simpl; [reflexivity|]. rewrite IH. reflexivity.
Qed.

Lemma zip_seq_sorted {A} (l : list A) (k : nat) :
  StronglySorted by_position (zip (seq k (length l)) l).
Proof.
  revert k. induction l as [|x l IH]; intros k; simpl; constructor; [apply IH|].
  apply List.Forall_forall. intros [i y] H. apply zip_seq_lookup in H as [H _].
  unfold by_position. simpl. lia.
Qed.

Lemma enumerate_sorted {A} (l : list A) : StronglySorted by_position (enumerate l).
Proof. apply zip_seq_sorted. Qed.

(** ** [sort_possibilities_by] is the stable sort *)

Lemma sort_possibilities_by_sorted (possibilities : list str) (metric : str -> Z) :
  sort_possibilities_by possibilities (map metric possibilities)
  = Ok (sorted metric possibilities).
Proof.
  unfold sort_possibilities_by. rewrite enumerate_map.
  rewrite <- (sorted_map (fun ix : nat * str => (ix.1, metric ix.2))
               (fun ix => metric ix.2) snd) by reflexivity.
  rewrite map_map. cbn [fst].
  rewrite <- (enumerate_snd possibilities) at 2.
  rewrite <- (sorted_map snd (fun ix : nat * str => metric ix.2) metric) by reflexivity.
  assert (forall ix, In ix (sorted (fun ix : nat * str => metric ix.2) (enumerate possibilities)) ->
                     possibilities !! ix.1 = Some ix.2) as Hl.
  { intros [i x] H. apply enumerate_lookup.
    eapply Permutation_in; [apply sorted_Permutation | exact H]. }
  revert Hl. generalize (sorted (fun ix : nat * str => metric ix.2) (enumerate possibilities)).
  intros t Hl. rewrite <- (map_map (fun ix : nat * str => ix.1) (fun i => i)).
  rewrite map_id. induction t as [|[i x] t IH]; simpl; [reflexivity|].
  pose proof (Hl (i, x) (or_introl eq_refl)) as Hix. simpl in Hix.
  rewrite (getitem_Some _ _ _ Hix). simpl.
  rewrite IH by (intros ix H; apply Hl; right; exact H). reflexivity.
Qed.

Lemma sorted_stably (key : str -> Z) (l : list str) : stably_sorted_by key l (sorted key l).
Proof.
  exists (sorted (fun ix : nat * str => key ix.2) (enumerate l)). split; [|split].
  - rewrite (sorted_map snd (fun ix : nat * str => key ix.2) key) by reflexivity.
    rewrite enumerate_snd. reflexivity.
  - apply sorted_Permutation.
  - apply sorted_refines, enumerate_sorted.
Qed.

(** ** The length-fit stage *)

Lemma count_from_digraph (a b : Z) :
  a <> b ->
  forall fuel s, (length s <= fuel)%nat -> count_from fuel s [a; b] = occurrences [a; b] s.
Proof.
  intros Hab. induction fuel as [|fuel IH]; intros s Hlen.
  - destruct s; [reflexivity | simpl in Hlen; lia].
  - destruct s as [|c rest]; [reflexivity|].
    cbn [count_from occurrences].
    destruct (startswith (c :: rest) [a; b]) eqn:Hs.
    + apply startswith_app in Hs as [rest' Hs]. injection Hs as -> ->.
      cbn [length drop app occurrences].
      replace (startswith (b :: rest') [a; b]) with false.
      * rewrite drop_0, IH by (simpl in Hlen; lia). lia.
      * simpl. destruct (Z.eqb_spec b a); [congruence | reflexivity].
    + rewrite IH by (simpl in Hlen; lia). lia.
Qed.

Lemma count_digraph (a b : Z) (s : str) : a <> b -> count s [a; b] = occurrences [a; b] s.
Proof. intros Hab. apply count_from_digraph; [exact Hab | lia]. Qed.

Section Ranking.

Variable lower : str -> str.

Lemma sort_possibilities_by_length_sorted (lat_string : str) (possibilities : list str) :
  sort_possibilities_by_length lower lat_string possibilities
  = Ok (sorted (length_difference lower lat_string) possibilities).
Proof.
  unfold sort_possibilities_by_length, digraphs_to_monographs. cbn [fold_left].
  rewrite !count_digraph by discriminate.
  apply (sort_possibilities_by_sorted possibilities (length_difference lower lat_string)).
Qed.

(** C7: the length-fit stage returns the candidates stably sorted in
    ascending order of the absolute difference between the candidate's
    length and the adjusted Latin length, which is the character count of
    the Latin word minus one for each occurrence of "ch", "th" and "ps" in
    the lowercased Latin word. *)
Theorem sort_possibilities_by_length_stable (lat_string : str) (possibilities : list str) :
  exists r,
    sort_possibilities_by_length lower lat_string possibilities = Ok r
    /\ stably_sorted_by (length_difference lower lat_string) possibilities r.
Proof.
  exists (sorted (length_difference lower lat_string) possibilities).
  split; [apply sort_possibilities_by_length_sorted | apply sorted_stably].
Qed.

End Ranking.

(** ** Accents *)

Lemma str_in_single (c : Z) (s : str) : str_in [c] s = true <-> In c s.
Proof.
  induction s as [|x s IH]; simpl.
  - split; [discriminate | contradiction].
  - rewrite andb_true_r, orb_true_iff, Z.eqb_eq, IH. reflexivity.
Qed.

Lemma accent_mark_false (c : Z) :
  ~ In c greek_accented -> ~ In c lat_accented -> accent_mark c = false.
Proof.
  intros Hg Hl. unfold accent_mark. apply orb_false_iff. split.
  - destruct (str_in [c] greek_accented) eqn:H; [apply str_in_single in H; contradiction | reflexivity].
  - destruct (str_in [c] lat_accented) eqn:H; [apply str_in_single in H; contradiction | reflexivity].
Qed.

Lemma find_accent_first_from (k : nat) (s : str) :
  head (flat_map (fun '(pos, l) =>
                    if str_in [l] greek_accented || str_in [l] lat_accented
                    then [pos] else [])
          (zip (seq k (length s)) s))
  = first_accent_from k s.
Proof.
  revert k. induction s as [|c s IH]; intros k; [reflexivity|].
  cbn [length seq zip_with flat_map first_accent_from].
  change (str_in [c] greek_accented || str_in [c] lat_accented) with (accent_mark c).
  destruct (accent_mark c).
  - reflexivity.
  - cbn [app]. apply IH.
Qed.

Lemma find_accent_first (s : str) :
  getitem (find_accent s) 0
  = match first_accent_from 0 s with
    | Some pos => Ok pos
    | None => Raise IndexError
    end.
Proof.
  rewrite <- find_accent_first_from. unfold getitem, find_accent, enumerate.
  destruct (flat_map _ _); reflexivity.
Qed.

Lemma first_accent_from_None (k : nat) (s : str) :
  (forall c, In c s -> accent_mark c = false) -> first_accent_from k s = None.
Proof.
  revert k. induction s as [|c s IH]; intros k H; simpl; [reflexivity|].
  rewrite (H c) by (left; reflexivity). apply IH. intros x Hx. apply H. right. exact Hx.
Qed.

Lemma first_accent_from_Some (k : nat) (before after : str) (c : Z) :
  (forall x, In x before -> accent_mark x = false) -> accent_mark c = true ->
  first_accent_from k (before ++ c :: after) = Some (k + length before)%nat.
Proof.
  revert k. induction before as [|x before IH]; intros k Hb Hc; simpl.
  - rewrite Hc. f_equal. lia.
  - rewrite (Hb x) by (left; reflexivity). rewrite IH; [f_equal; lia | | exact Hc].
    intros y Hy. apply Hb. right. exact Hy.
Qed.

Lemma find_accent_nil (s : str) :
  (forall c, In c s -> accent_mark c = false) -> find_accent s = [].
Proof.
  intros H. unfold find_accent.
  assert (forall ix, In ix (enumerate s) -> accent_mark ix.2 = false) as He.
  { intros [i x] Hix. apply H. eapply enumerate_In, Hix. }
  induction (enumerate s) as [|[i x] l IH]; [reflexivity|].
  pose proof (He (i, x) (or_introl eq_refl)) as Hx. cbn [snd] in Hx.
  cbn [flat_map].
  change (str_in [x] greek_accented || str_in [x] lat_accented) with (accent_mark x).
  rewrite Hx. apply IH. intros ix Hix. apply He. right. exact Hix.
Qed.

Lemma split_nonempty (s : str) : Forall (fun g => g <> []) (split s).
Proof. apply split_from_nonempty. Qed.

Lemma find_accent_graph_position_accent (before after : str) (c : Z) (graph_string : str) :
  (forall x, In x before -> accent_mark x = false) -> accent_mark c = true ->
  exists toks,
    tokenize_graphs (strip_accents (before ++ [c])) (GraphString graph_string) = Ok toks
    /\ find_accent_graph_position (before ++ c :: after) (GraphString graph_string)
       = Ok (Z.of_nat (length toks)).
Proof.
  intros Hb Hc.
  destruct (tokenize_loop_returns (split graph_string) (split_nonempty _)
              (length (strip_accents (before ++ [c]))) (strip_accents (before ++ [c])) [])
    as [toks Ht]; [lia|].
  change (tokenize_graphs (strip_accents (before ++ [c])) (GraphString graph_string) = Ok toks)
    in Ht.
  exists toks. split; [exact Ht|].
  unfold find_accent_graph_position. rewrite find_accent_first.
  rewrite (first_accent_from_Some 0 before after c Hb Hc).
  replace (0 + length before + 1)%nat with (length (before ++ [c]))
    by (rewrite length_app; simpl; lia).
  replace (before ++ c :: after) with ((before ++ [c]) ++ after)
    by (rewrite <- app_assoc; reflexivity).
  rewrite take_app_length.
  rewrite replace_greek_accent. cbn [mbind M_bind getitem lookup list_lookup].
  rewrite replace_lat_accent. cbn [mbind M_bind getitem lookup list_lookup].
  unfold count_graphs.
  change (map (table_char lat_accent_dictionary)
            (map (table_char greek_accent_dictionary) (before ++ [c])))
    with (strip_accents (before ++ [c])).
  rewrite Ht. reflexivity.
Qed.

Lemma find_accent_graph_position_none (word : str) (graphs : graph_string_or_dict) :
  (forall c, In c word -> accent_mark c = false) ->
  find_accent_graph_position word graphs = Ok 100.
Proof.
  intros H. unfold find_accent_graph_position.
  rewrite find_accent_first, (first_accent_from_None 0 word H). reflexivity.
Qed.

(** A word either has no accent or splits at its first accent. *)
Lemma first_accent_split (s : str) :
  (forall c, In c s -> accent_mark c = false)
  \/ exists before c after,
       s = before ++ c :: after
       /\ (forall x, In x before -> accent_mark x = false) /\ accent_mark c = true.
Proof.
  induction s as [|x s IH].
  - left. intros c [].
  - destruct (accent_mark x) eqn:Hx.
    + right. exists [], x, s. split; [reflexivity|]. split; [intros y [] | exact Hx].
    + destruct IH as [IH | (before & c & after & -> & Hb & Hc)].
      * left. intros c [<- | Hc]; [exact Hx | apply IH, Hc].
      * right. exists (x :: before), c, after. split; [reflexivity|].
        split; [|exact Hc]. intros y [<- | Hy]; [exact Hx | apply Hb, Hy].
Qed.

Lemma find_accent_graph_position_total (word graph_string : str) :
  exists p, find_accent_graph_position word (GraphString graph_string) = Ok p.
Proof.
  destruct (first_accent_split word) as [H | (before & c & after & -> & Hb & Hc)].
  - exists 100. apply find_accent_graph_position_none, H.
  - destruct (find_accent_graph_position_accent before after c graph_string Hb Hc)
      as (toks & _ & H).
    eexists. exact H.
Qed.

Lemma accent_mark_true (c : Z) :
  In c greek_accented \/ In c lat_accented -> accent_mark c = true.
Proof.
  unfold accent_mark. rewrite orb_true_iff, !str_in_single. auto.
Qed.

(** ** The accent-position stage *)

Lemma find_accent_graph_position_value (word graph_string : str) :
  find_accent_graph_position word (GraphString graph_string)
  = Ok (accent_graph_position word graph_string).
Proof.
  unfold accent_graph_position.
  destruct (find_accent_graph_position_total word graph_string) as [p ->]. reflexivity.
Qed.

Lemma sort_possibilities_by_accent_sorted (lat_string : str) (possibilities : list str) :
  sort_possibilities_by_accent lat_string possibilities
  = Ok (if (length (find_accent lat_string) =? 0)%nat then possibilities
        else sorted (accent_difference lat_string) possibilities).
Proof.
  unfold sort_possibilities_by_accent.
  destruct (length (find_accent lat_string) =? 0)%nat; [reflexivity|].
  fold lish_graphs. fold greek_graphs.
  rewrite find_accent_graph_position_value. cbn [mbind M_bind].
  rewrite (for_each_Ok _ (accent_difference lat_string)).
  - cbn [mbind M_bind]. apply sort_possibilities_by_sorted.
  - intros greek_word _. rewrite find_accent_graph_position_value. reflexivity.
Qed.

(** C6: for a Latin word none of whose characters occurs in the strings
    [greek_accented] and [lat_accented] (the test of [find_accent], on the
    strings as they are written), [sort_possibilities_by_accent] returns
    the candidate list as it is. *)
Theorem sort_possibilities_by_accent_no_accent (lat_string : str) (possibilities : list str) :
  (forall c, In c lat_string -> ~ In c greek_accented /\ ~ In c lat_accented) ->
  sort_possibilities_by_accent lat_string possibilities = Ok possibilities.
Proof.
  intros H. unfold sort_possibilities_by_accent.
  rewrite find_accent_nil; [reflexivity|].
  intros c Hc. destruct (H c Hc). apply accent_mark_false; assumption.
Qed.

Ltac not_in_table :=
  let H := fresh in
  intros H; apply list_elem_of_In in H; revert H;
  apply (bool_decide_eq_false_1 _); vm_compute; reflexivity.

Lemma sort_possibilities_by_accent_no_accent_witness :
  sort_possibilities_by_accent (u8 "ta") [u8 "τά"; u8 "τα"] = Ok [u8 "τά"; u8 "τα"].
Proof.
  apply (sort_possibilities_by_accent_no_accent (u8 "ta") [u8 "τά"; u8 "τα"]).
  intros c [<- | [<- | []]]; split; not_in_table.
Defined.

(** ** The graphs of a word *)

Lemma find_first {A} (P : A -> bool) (l : list A) (x : A) :
  find P l = Some x ->
  exists l1 l2, l = l1 ++ x :: l2 /\ P x = true /\ forall y, In y l1 -> P y = false.
Proof.
  induction l as [|a l IH]; [discriminate|]. cbn [find].
  destruct (P a) eqn:Ha.
  - intros [= <-]. exists [], l. split; [reflexivity|]. split; [exact Ha | intros y []].
  - intros H. destruct (IH H) as (l1 & l2 & -> & Hx & Hl1).
    exists (a :: l1), l2. split; [reflexivity|]. split; [exact Hx|].
    intros y [<- | Hy]; [exact Ha | exact (Hl1 y Hy)].
Qed.

Lemma find_first_inv {A} (P : A -> bool) (l1 l2 : list A) (x : A) :
  P x = true -> (forall y, In y l1 -> P y = false) -> find P (l1 ++ x :: l2) = Some x.
Proof.
  intros Hx. induction l1 as [|a l1 IH]; intros H; cbn [app find].
  - rewrite Hx. reflexivity.
  - rewrite (H a (or_introl eq_refl)). apply IH. intros y Hy. apply H. right. exact Hy.
Qed.

Lemma find_all_false {A} (P : A -> bool) (l : list A) :
  (forall y, In y l -> P y = false) -> find P l = None.
Proof.
  induction l as [|a l IH]; intros H; cbn [find]; [reflexivity|].
  rewrite (H a (or_introl eq_refl)). apply IH. intros y Hy. apply H. right. exact Hy.
Qed.

Lemma startswith_false (s prefix : str) :
  startswith s prefix = false <-> ~ exists rest, s = prefix ++ rest.
Proof. rewrite <- startswith_app. symmetry. apply not_true_iff_false. Qed.

Lemma tokenize_loop_graphs_of (graph_list : list str) :
  List.Forall (fun g => g <> []) graph_list ->
  forall fuel word token_list, (length word <= fuel)%nat ->
  exists toks,
    tokenize_loop fuel graph_list word token_list = Ok (token_list ++ toks)
    /\ graphs_of graph_list word toks.
Proof.
  intros Hg. induction fuel as [|fuel IH]; intros word ts Hlen.
  - destruct word; [|simpl in Hlen; lia]. exists []. rewrite app_nil_r.
    split; [reflexivity | constructor].
  - destruct word as [|c rest].
    { exists []. rewrite app_nil_r. split; [reflexivity | constructor]. }
    cbn [tokenize_loop].
    destruct (find (startswith (c :: rest)) graph_list) as [g|] eqn:Hf.
    + destruct (find_first _ _ _ Hf) as (l1 & l2 & Hl & Hs & Hl1).
      pose proof (startswith_drop _ _ Hs) as Hd.
      assert (g <> []) as Hne.
      { rewrite List.Forall_forall in Hg. apply Hg. rewrite Hl. apply in_elt. }
      destruct (IH (drop (length g) (c :: rest)) (ts ++ [g])) as (toks & Ht & Hseg).
      { rewrite length_drop. destruct g; [congruence|]. cbn [length] in *. lia. }
      exists (g :: toks). split; [rewrite Ht, <- app_assoc; reflexivity|].
      rewrite Hd. apply graphs_of_graph; [exact Hne | | exact Hseg].
      exists l1, l2. split; [exact Hl|]. split; [eexists; reflexivity|].
      intros g' Hg'. rewrite <- Hd. apply startswith_false, Hl1, Hg'.
    + destruct (IH rest (ts ++ [[c]])) as (toks & Ht & Hseg); [simpl in Hlen; lia|].
      exists ([c] :: toks). split; [rewrite Ht, <- app_assoc; reflexivity|].
      apply graphs_of_char; [|exact Hseg].
      intros g Hgin. apply startswith_false. exact (find_none _ _ Hf g Hgin).
Qed.

Lemma graphs_of_tokenize (graph_list : list str) (word : str) (toks : list str) :
  graphs_of graph_list word toks ->
  forall fuel token_list, (length word <= fuel)%nat ->
  tokenize_loop fuel graph_list word token_list = Ok (token_list ++ toks).
Proof.
  induction 1 as [|g rest toks Hne Hfirst Hseg IH|c rest toks Hnone Hseg IH];
    intros fuel ts Hlen.
  - destruct fuel; cbn [tokenize_loop]; rewrite app_nil_r; reflexivity.
  - destruct Hfirst as (l1 & l2 & Hl & Hpre & Hl1).
    assert (find (startswith (g ++ rest)) graph_list = Some g) as Hf.
    { rewrite Hl. apply find_first_inv; [apply startswith_app, Hpre|].
      intros y Hy. apply startswith_false, Hl1, Hy. }
    destruct g as [|c g']; [congruence|]. rewrite length_app in Hlen.
    cbn [length app] in *. destruct fuel as [|fuel]; [lia|].
    cbn [tokenize_loop]. rewrite Hf.
    change (c :: g' ++ rest) with ((c :: g') ++ rest).
    change (S (length g')) with (length (c :: g')). rewrite drop_app_length.
    rewrite IH by lia. rewrite <- app_assoc. reflexivity.
  - cbn [length] in Hlen. destruct fuel as [|fuel]; [lia|]. cbn [tokenize_loop].
    rewrite find_all_false.
    + rewrite IH by lia. rewrite <- app_assoc. reflexivity.
    + intros g Hg. apply startswith_false, Hnone, Hg.
Qed.

Lemma graphs_of_unique (graph_list : list str) (word : str) (toks toks' : list str) :
  graphs_of graph_list word toks -> graphs_of graph_list word toks' -> toks' = toks.
Proof.
  intros H H'.
  pose proof (graphs_of_tokenize _ _ _ H (length word) [] (le_n _)) as E.
  rewrite (graphs_of_tokenize _ _ _ H' (length word) [] (le_n _)) in E.
  injection E as E. exact E.
Qed.

Lemma tokenize_graphs_graphs_of (word graph_string : str) (toks : list str) :
  tokenize_graphs word (GraphString graph_string) = Ok toks ->
  graphs_of (split graph_string) word toks.
Proof.
  intros H.
  destruct (tokenize_loop_graphs_of (split graph_string) (split_nonempty _)
              (length word) word []) as (toks' & Ht & Hseg); [lia|].
  unfold tokenize_graphs in H. rewrite Ht in H. injection H as <-. exact Hseg.
Qed.

Lemma sorted_pair {A} (key : A -> Z) (a b : A) :
  sorted key [a; b] = if key b <? key a then [b; a] else [a; b].
Proof. reflexivity. Qed.




(** ** Canonical forms are fixed by the transduction passes *)

Lemma find_None_no_start (d : dict) (c : Z) (rest : str) :
  graph_start d c = false -> find (startswith (c :: rest)) (keys d) = None.
Proof.
  unfold graph_start. induction (keys d) as [|k ks IH]; simpl; [reflexivity|].
  rewrite orb_false_iff. intros [Hk Hks]. destruct k as [|k0 k']; [discriminate|].
  simpl. rewrite Z.eqb_sym, Hk. simpl. apply IH, Hks.
Qed.

Lemma find_None_closed (d : dict) (c : Z) (rest : str) :
  monograph_closed d = true -> find (startswith (c :: rest)) (keys d) = None ->
  graph_start d c = false.
Proof.
  intros Hcl Hf. destruct (graph_start d c) eqn:Hs; [|reflexivity].
  unfold graph_start in Hs. apply existsb_exists in Hs as (k & Hk & Hk0).
  unfold monograph_closed in Hcl. rewrite forallb_forall in Hcl. specialize (Hcl k Hk).
  destruct k as [|k0 k']; [discriminate|]. apply Z.eqb_eq in Hk0. subst k0.
  apply existsb_exists in Hcl as (k1 & Hk1 & Heq). apply bool_decide_eq_true_1 in Heq. subst k1.
  apply (find_none _ _ Hf) in Hk1. simpl in Hk1. rewrite Z.eqb_refl in Hk1. discriminate.
Qed.

Lemma replace_loop_fixed (d : dict) (u : str) :
  (forall c, In c u -> graph_start d c = false) ->
  forall fuel o, (length u <= fuel)%nat -> replace_loop fuel d u [o] = Ok [o ++ u].
Proof.
  induction u as [|c u IH]; intros Hu fuel o Hlen.
  - destruct fuel; simpl; rewrite app_nil_r; reflexivity.
  - destruct fuel as [|fuel]; [simpl in Hlen; lia|]. cbn [replace_loop].
    rewrite find_None_no_start by (apply Hu; left; reflexivity). cbn [map].
    rewrite IH; [rewrite <- app_assoc; reflexivity | | simpl in Hlen; lia].
    intros x Hx. apply Hu. right. exact Hx.
Qed.

Lemma replace_fixed (d : dict) (u : str) :
  (forall c, In c u -> graph_start d c = false) -> replace u d = Ok [u].
Proof. intros Hu. apply (replace_loop_fixed d u Hu (length u) []). lia. Qed.

Lemma replace_loop_chars (P0 P : Z -> Prop) (d : dict) :
  (forall k v, In (k, v) d -> List.Forall P v) ->
  (forall c rest, find (startswith (c :: rest)) (keys d) = None -> P0 c -> P c) ->
  forall fuel s o l,
  List.Forall P0 s -> List.Forall (List.Forall P) o -> replace_loop fuel d s o = Ok l ->
  List.Forall (List.Forall P) l.
Proof.
  intros Hv Hn. induction fuel as [|fuel IH]; intros s o l Hs Ho H.
  - destruct s; [|discriminate]. injection H as <-. exact Ho.
  - destruct s as [|c rest]; [injection H as <-; exact Ho|]. cbn [replace_loop] in H.
    destruct (find (startswith (c :: rest)) (keys d)) as [k|] eqn:Hf.
    + apply bind_Ok in H as (v & Hg & H). apply dict_get_In, Hv in Hg.
      refine (IH _ _ _ _ _ H).
      * apply Forall_drop, Hs.
      * clear -Hg Ho. induction Hg as [|a alts Ha Hg IHg]; simpl; [constructor|].
        apply Forall_app. split; [|exact IHg].
        clear -Ha Ho. induction Ho as [|x o Hx Ho IHo]; simpl; constructor; [|exact IHo].
        apply Forall_app. split; [exact Hx | constructor; [exact Ha | constructor]].
    + inversion Hs as [|? ? Hc Hrest]; subst. refine (IH _ _ _ Hrest _ H).
      specialize (Hn _ _ Hf Hc). clear -Hn Ho.
      induction Ho as [|x o Hx Ho IHo]; simpl; constructor; [|exact IHo].
      apply Forall_app. split; [exact Hx | constructor; [exact Hn | constructor]].
Qed.

Lemma table_char_no_start (d : dict) (c : Z) :
  graph_start d c = false -> table_char d c = c.
Proof.
  intros H. unfold table_char. rewrite (find_None_get d c []); [reflexivity|].
  apply find_None_no_start, H.
Qed.

Lemma dict_get_keys (d : dict) (k : str) : In k (keys d) -> exists v, dict_get d k = Ok v.
Proof.
  induction d as [|[k' v'] d IH]; simpl; [contradiction|].
  case_bool_decide as Hk; [eauto|]. intros [H | H]; [congruence | exact (IH H)].
Qed.

Lemma dict_get_returns (d : dict) (k : str) : dict_get d k <> Diverge.
Proof.
  induction d as [|[k' v'] d IH]; simpl; [discriminate|].
  case_bool_decide; [discriminate | exact IH].
Qed.

(** An accent-stripped character is no accented letter. *)
Lemma greek_accent_stripped (c : Z) :
  graph_start greek_accent_dictionary (table_char greek_accent_dictionary c) = false.
Proof.
  unfold table_char. destruct (dict_get greek_accent_dictionary [c]) as [v|e|] eqn:Hg.
  - apply dict_get_In in Hg.
    assert (List.Forall (fun kv : str * str =>
                           match kv.2 with
                           | v0 :: _ => graph_start greek_accent_dictionary v0 = false
                           | [] => False
                           end) greek_accent_dictionary) as Ht
      by (repeat constructor).
    rewrite List.Forall_forall in Ht. specialize (Ht _ Hg). simpl in Ht.
    destruct v as [|v0 v']; [contradiction | exact Ht].
  - destruct (graph_start greek_accent_dictionary c) eqn:Hs; [|reflexivity].
    unfold graph_start in Hs. apply existsb_exists in Hs as (k & Hk & Hk0).
    assert (List.Forall (fun k : str => length k = 1%nat) (keys greek_accent_dictionary)) as Hl
      by (repeat constructor).
    rewrite List.Forall_forall in Hl. specialize (Hl _ Hk).
    destruct k as [|k0 [|]]; try discriminate. apply Z.eqb_eq in Hk0. subst k0.
    apply dict_get_keys in Hk as [v Hv]. congruence.
  - exfalso. exact (dict_get_returns _ _ Hg).
Qed.

Lemma replace_list_single (s : str) (d : dict) :
  replace_list [s] d = (r ← replace s d; Ok r).
Proof.
  simpl. destruct (replace s d); simpl; [rewrite app_nil_r|..]; reflexivity.
Qed.

Lemma greek_passes_canonical (s : str) (us : list str) (u : str) :
  greek_passes s = Ok us -> In u us -> List.Forall canonical u.
Proof.
  unfold greek_passes. rewrite replace_greek_accent. cbn [mbind M_bind].
  rewrite replace_list_single. intros H Hu.
  apply bind_Ok in H as (us' & H & [= <-]). apply bind_Ok in H as (r & H & [= <-]).
  unfold replace in H.
  eapply (replace_loop_chars
            (fun c => graph_start greek_accent_dictionary c = false) canonical) in H.
  - rewrite List.Forall_forall in H. exact (H _ Hu).
  - assert (List.Forall (fun kv : str * str => List.Forall canonical kv.2) g2u_dict) as Ht
      by (repeat constructor).
    rewrite List.Forall_forall in Ht. intros k v Hkv. exact (Ht _ Hkv).
  - intros c rest Hf Hc. split; [exact Hc|].
    apply (find_None_closed g2u_dict c rest); [reflexivity | exact Hf].
  - apply List.Forall_forall. intros c Hc. apply in_map_iff in Hc as (c0 & <- & _).
    apply greek_accent_stripped.
  - repeat constructor.
Qed.

Lemma greek_passes_fixed (u : str) : List.Forall canonical u -> greek_passes u = Ok [u].
Proof.
  intros Hu. rewrite List.Forall_forall in Hu. unfold greek_passes.
  rewrite replace_fixed by (intros c Hc; apply Hu, Hc). cbn [mbind M_bind].
  rewrite replace_list_single.
  rewrite replace_fixed by (intros c Hc; apply Hu, Hc). reflexivity.
Qed.

Lemma greek_passes_returns (s : str) : exists us, greek_passes s = Ok us.
Proof.
  unfold greek_passes. rewrite replace_greek_accent. cbn [mbind M_bind].
  rewrite replace_list_single.
  destruct (make_dictionary_from_strings_nonempty _ _ _ (proj1 (proj2 (proj2 tables_built))))
    as [Hk Hv].
  destruct (replace_returns g2u_dict (map (table_char greek_accent_dictionary) s) Hk Hv)
    as (l & x & -> & _).
  exists l. reflexivity.
Qed.

Section Canonical.

Variable lower : str -> str.

Lemma greek_to_uglish_passes (w : str) : greek_to_uglish lower w = greek_passes (lower w).
Proof. reflexivity. Qed.

(** C4 (as amended): for every word [w], Greek or not, [greek_to_uglish]
    returns, and for every canonical string [u] it returns, the two
    transduction passes of [greek_to_uglish] applied to [u] return exactly
    [[u]], no symbol of [u] being matched by an entry of the accent table or
    of the Greek graph table; [greek_to_uglish u], which lowercases [u]
    first, is [[u]] whenever [u] is its own lowercase form. *)
Theorem greek_to_uglish_idempotent (w : str) :
  exists us,
    greek_to_uglish lower w = Ok us
    /\ forall u, In u us ->
         greek_passes u = Ok [u]
         /\ (lower u = u -> greek_to_uglish lower u = Ok [u]).
Proof.
  rewrite greek_to_uglish_passes.
  destruct (greek_passes_returns (lower w)) as [us Hus]. exists us. split; [exact Hus|].
  intros u Hu. pose proof (greek_passes_fixed u (greek_passes_canonical _ _ _ Hus Hu)) as Hfix.
  split; [exact Hfix|]. intros Hl. rewrite greek_to_uglish_passes, Hl. exact Hfix.
Qed.

End Canonical.

Lemma greek_to_uglish_idempotent_witness :
  greek_to_uglish lower_model (u8 "και") = Ok [u8 "ke"]
  /\ greek_to_uglish lower_model (u8 "ke") = Ok [u8 "ke"].
Proof.
  destruct (greek_to_uglish_idempotent lower_model (u8 "και")) as (us & Hus & H).
  assert (us = [u8 "ke"]) as -> by (vm_compute in Hus; injection Hus as <-; reflexivity).
  split; [exact Hus|]. apply (H (u8 "ke")); [left; reflexivity | reflexivity].
Defined.

(** C4 as stated fails on the upper-case canonical symbols: the Greek word
    "αυ" has the canonical form "A", which [greek_to_uglish] lowercases
    to "a". *)
Lemma greek_to_uglish_not_idempotent :
  is_greek lower_model (u8 "αυ") = Ok true
  /\ greek_to_uglish lower_model (u8 "αυ") = Ok [u8 "A"]
  /\ greek_to_uglish lower_model (u8 "A") = Ok [u8 "a"]
  /\ greek_to_uglish lower_model (u8 "A") <> Ok [u8 "A"].
Proof. repeat split; try (vm_compute; reflexivity). vm_compute. discriminate. Qed.

(** ** The tie-break stage *)

Lemma tiebreak_token_from (i : nat) (target : str) (tps : list (list str)) :
  List.Forall (fun tp => (i < length tp)%nat) tps ->
  forall (pre probs : list Z), length probs = length tps ->
  for_loop (fun inverse_probabilities '(j, tokenized_possibility) =>
              tok ← getitem tokenized_possibility i;
              if bool_decide (tok = target)
              then p ← getitem inverse_probabilities j;
                   Ok (<[j := p - 1]> inverse_probabilities)
              else Ok inverse_probabilities)
           (zip (seq (length pre) (length tps)) tps) (pre ++ probs)
  = Ok (pre ++ zip_with (tiebreak_step i target) tps probs).
Proof.
  induction 1 as [|tp tps Htp Htps IH]; intros pre probs Hlen.
  - destruct probs; [reflexivity | discriminate].
  - destruct probs as [|p probs]; [discriminate|]. injection Hlen as Hlen.
    cbn [length seq zip_with for_loop].
    destruct (lookup_lt_is_Some_2 tp i Htp) as [tok Htok].
    rewrite (getitem_Some _ _ _ Htok). cbn [mbind M_bind].
    unfold tiebreak_step at 1. rewrite Htok.
    assert (forall q, pre ++ q :: probs = (pre ++ [q]) ++ probs) as Hq
      by (intros q; rewrite <- app_assoc; reflexivity).
    assert (S (length pre) = length (pre ++ [p])) as Hp
      by (rewrite length_app; simpl; lia).
    assert (S (length pre) = length (pre ++ [p - 1])) as Hp'
      by (rewrite length_app; simpl; lia).
    destruct (bool_decide_reflect (tok = target)) as [-> | Hne].
    + rewrite bool_decide_eq_true_2 by reflexivity.
      rewrite (getitem_Some _ _ p) by (rewrite lookup_app_r, Nat.sub_diag by lia; reflexivity).
      cbn [mbind M_bind].
      replace (<[length pre := p - 1]> (pre ++ p :: probs)) with (pre ++ (p - 1) :: probs).
      * rewrite (Hq (p - 1)), Hp'. rewrite IH by exact Hlen.
        rewrite <- app_assoc. reflexivity.
      * rewrite insert_app_r_alt, Nat.sub_diag by lia. reflexivity.
    + rewrite bool_decide_eq_false_2 by congruence.
      cbn [mbind M_bind].
      rewrite (Hq p), Hp. rewrite IH by exact Hlen. rewrite <- app_assoc. reflexivity.
Qed.

Lemma tiebreak_token_steps (i : nat) (target : str) (tps : list (list str)) (probs : list Z) :
  List.Forall (fun tp => (i < length tp)%nat) tps -> length probs = length tps ->
  tiebreak_token i target tps probs = Ok (zip_with (tiebreak_step i target) tps probs).
Proof.
  intros Htps Hlen. exact (tiebreak_token_from i target tps Htps [] probs Hlen).
Qed.

Lemma dict_get_exn (d : dict) (k : str) (e : exn) : dict_get d k = Raise e -> e = KeyError.
Proof.
  induction d as [|[k' v'] d IH]; simpl; [congruence|].
  case_bool_decide; [discriminate | exact IH].
Qed.

Lemma tiebreak_loop_steps (tps : list (list str)) (toks : list (nat * str)) (f : list str -> Z) :
  tokens_reach toks tps ->
  for_loop (fun inverse_probabilities '(i, tok) =>
              match dict_get tiebreaker_dict tok with
              | Raise KeyError => Ok inverse_probabilities
              | Ok target_greek_tok =>
                tiebreak_token i target_greek_tok tps inverse_probabilities
              | Raise e => Raise e
              | Diverge => Diverge
              end) toks (map f tps)
  = Ok (map (fun tp => tiebreak_fold toks tp (f tp)) tps).
Proof.
  revert f. induction toks as [|[i tok] toks IH]; intros f Hreach; [reflexivity|].
  cbn [for_loop]. unfold tiebreak_fold. cbn [fold_left].
  assert (tokens_reach toks tps) as Hreach'.
  { intros j t target Hin. apply (Hreach j t target). right. exact Hin. }
  destruct (dict_get tiebreaker_dict tok) as [target|e|] eqn:Hg.
  - rewrite tiebreak_token_steps.
    + cbn [mbind M_bind].
      replace (zip_with (tiebreak_step i target) tps (map f tps))
        with (map (fun tp => tiebreak_step i target tp (f tp)) tps).
      * rewrite (IH (fun tp => tiebreak_step i target tp (f tp)) Hreach'). reflexivity.
      * clear. induction tps as [|tp tps IHt]; simpl; [reflexivity | rewrite IHt; reflexivity].
    + apply List.Forall_forall. intros tp Htp.
      exact (Hreach i tok target (or_introl eq_refl) Hg tp Htp).
    + apply length_map.
  - rewrite (dict_get_exn _ _ _ Hg). cbn [mbind M_bind]. apply (IH f Hreach').
  - exfalso. exact (dict_get_returns _ _ Hg).
Qed.

Lemma tables_graphs_nonempty :
  graphs_nonempty l2u_dict /\ graphs_nonempty g2u_dict.
Proof.
  destruct tables_built as (_ & _ & Hg & Hl).
  apply make_dictionary_from_strings_nonempty in Hg as [Hg _].
  apply make_dictionary_from_strings_nonempty in Hl as [Hl _].
  split; assumption.
Qed.

Lemma graphs_nonempty_keys (d : dict) :
  graphs_nonempty d -> List.Forall (fun g => g <> []) (keys d).
Proof.
  unfold graphs_nonempty, keys. intros H. apply List.Forall_map. exact H.
Qed.

Lemma tokenize_graphs_dict_returns (word : str) (d : dict) :
  graphs_nonempty d ->
  tokenize_graphs word (GraphDict d) = Ok (from_ok [] (tokenize_graphs word (GraphDict d))).
Proof.
  intros Hd.
  destruct (tokenize_loop_returns (keys d) (graphs_nonempty_keys d Hd) (length word) word [])
    as [toks Ht]; [lia|].
  unfold tokenize_graphs. rewrite Ht. reflexivity.
Qed.

Section TieBreak.

Variable lower : str -> str.

Lemma sort_possibilities_by_tiebreakers_sorted (lat_string : str) (possibilities : list str) :
  candidates_reach lower lat_string possibilities ->
  sort_possibilities_by_tiebreakers lower lat_string possibilities
  = Ok (sorted (tiebreak_score lower lat_string) possibilities).
Proof.
  intros Hreach. unfold sort_possibilities_by_tiebreakers.
  rewrite replace_lat_accent. cbn [mbind M_bind getitem lookup list_lookup].
  rewrite tokenize_graphs_dict_returns by apply tables_graphs_nonempty.
  fold (lat_tokens lower lat_string). cbn [mbind M_bind].
  rewrite (for_each_Ok _ (greek_tokens lower)).
  - cbn [mbind M_bind].
    replace (repeat 100 (length possibilities))
      with (map (fun _ : list str => 100) (map (greek_tokens lower) possibilities)).
    + rewrite (tiebreak_loop_steps _ _ _ Hreach). cbn [mbind M_bind].
      rewrite map_map. apply (sort_possibilities_by_sorted possibilities).
    + rewrite map_map. clear. induction possibilities as [|c cs IH]; simpl; [|rewrite IH]; reflexivity.
  - intros c _. rewrite replace_greek_accent. cbn [mbind M_bind getitem lookup list_lookup].
    apply tokenize_graphs_dict_returns, tables_graphs_nonempty.
Qed.

End TieBreak.

(** ** Candidates of a consistent index *)

Section Index.

Variable lower : str -> str.
Variable uglish_dict : gmap str (list str).

Lemma uglish_length (d accent : dict) (s : str) (us : list str) (u : str) :
  graphs_nonempty d -> char_table accent ->
  (s ← replace s accent; s ← replace_list s d; Ok s) = Ok us -> In u us ->
  length u
  = length (from_ok [] (tokenize_graphs (map (table_char accent) s) (GraphDict d))).
Proof.
  intros Hd Ha H Hu. rewrite (replace_char_table accent s Ha) in H. cbn [mbind M_bind] in H.
  rewrite replace_list_single in H.
  apply bind_Ok in H as (us' & H & [= <-]). apply bind_Ok in H as (r & H & [= <-]).
  unfold replace in H.
  apply (replace_tokenize_length d Hd _ _ _ [] 0%nat) in H as (toks & Ht & Hl);
    [| lia | repeat constructor].
  unfold tokenize_graphs. rewrite Ht. cbn [from_ok].
  rewrite List.Forall_forall in Hl. exact (Hl _ Hu).
Qed.

Lemma lish_to_uglish_length (lat_string : str) (us : list str) (u : str) :
  lish_to_uglish lower lat_string = Ok us -> In u us ->
  length u = length (lat_tokens lower lat_string).
Proof.
  apply uglish_length; [apply tables_graphs_nonempty | apply accent_tables_char].
Qed.

Lemma greek_to_uglish_length (word : str) (us : list str) (u : str) :
  greek_to_uglish lower word = Ok us -> In u us ->
  length u = length (greek_tokens lower word).
Proof.
  apply uglish_length; [apply tables_graphs_nonempty | apply accent_tables_char].
Qed.

Lemma lish_to_uglish_returns (lat_string : str) :
  exists us, lish_to_uglish lower lat_string = Ok us.
Proof.
  unfold lish_to_uglish. rewrite replace_lat_accent. cbn [mbind M_bind].
  rewrite replace_list_single.
  destruct (make_dictionary_from_strings_nonempty _ _ _ (proj2 (proj2 (proj2 tables_built))))
    as [Hk Hv].
  destruct (replace_returns l2u_dict (map (table_char lat_accent_dictionary) (lower lat_string))
              Hk Hv) as (l & x & -> & _).
  exists l. reflexivity.
Qed.

Lemma find_possibilities_tokens (lat_string : str) (possibilities : list str) (c : str) :
  index_consistent lower uglish_dict ->
  find_possibilities lower uglish_dict lat_string = Ok possibilities -> In c possibilities ->
  length (greek_tokens lower c) = length (lat_tokens lower lat_string).
Proof.
  intros Hidx H Hc. unfold find_possibilities in H.
  apply bind_Ok in H as (uglish & Hu & [= <-]).
  apply in_flat_map in Hc as (u & Hin & Hc).
  destruct (uglish_dict !! u) as [words|] eqn:Hw; [|contradiction].
  destruct (Hidx u words c Hw Hc) as (us & Hus & Huin).
  rewrite <- (greek_to_uglish_length c us u Hus Huin).
  apply (lish_to_uglish_length lat_string uglish u Hu Hin).
Qed.

Lemma equal_tokens_reach (lat_string : str) (possibilities : list str) :
  (forall c, In c possibilities ->
             (length (lat_tokens lower lat_string) <= length (greek_tokens lower c))%nat) ->
  candidates_reach lower lat_string possibilities.
Proof.
  intros H i tok target Hin _ tp Htp. apply in_map_iff in Htp as (c & <- & Hc).
  apply enumerate_lookup, lookup_lt_Some in Hin. specialize (H c Hc). lia.
Qed.

Lemma sorted_possibilities_returns (lat_string : str) :
  index_consistent lower uglish_dict ->
  exists possibilities r,
    find_possibilities lower uglish_dict lat_string = Ok possibilities
    /\ sorted_possibilities lower uglish_dict lat_string = Ok r
    /\ Permutation r possibilities.
Proof.
  intros Hidx. destruct (lish_to_uglish_returns lat_string) as [uglish Hu].
  unfold sorted_possibilities.
  assert (exists possibilities,
             find_possibilities lower uglish_dict lat_string = Ok possibilities)
    as [possibilities Hp] by (unfold find_possibilities; rewrite Hu; eexists; reflexivity).
  exists possibilities. rewrite Hp. cbn [mbind M_bind].
  rewrite sort_possibilities_by_length_sorted. cbn [mbind M_bind].
  rewrite sort_possibilities_by_accent_sorted. cbn [mbind M_bind].
  set (l1 := sorted (length_difference lower lat_string) possibilities).
  set (l2 := if (length (find_accent lat_string) =? 0)%nat then l1
             else sorted (accent_difference lat_string) l1).
  assert (Permutation l2 possibilities) as Hperm.
  { unfold l2, l1. destruct (length (find_accent lat_string) =? 0)%nat.
    - apply sorted_Permutation.
    - rewrite !sorted_Permutation. reflexivity. }
  rewrite sort_possibilities_by_tiebreakers_sorted.
  - eexists. split; [reflexivity|]. split; [reflexivity|].
    rewrite sorted_Permutation. exact Hperm.
  - apply equal_tokens_reach. intros c Hc.
    rewrite (find_possibilities_tokens lat_string possibilities c Hidx Hp); [lia|].
    eapply Permutation_in; [exact Hperm | exact Hc].
Qed.

Lemma build_line_consistent (d d' : gmap str (list str)) (line : str) :
  (forall uglish_word words word,
      d !! uglish_word = Some words -> In word words ->
      exists us, greek_to_uglish lower word = Ok us /\ In uglish_word us) ->
  build_line lower d line = Ok d' ->
  forall uglish_word words word,
    d' !! uglish_word = Some words -> In word words ->
    exists us, greek_to_uglish lower word = Ok us /\ In uglish_word us.
Proof.
  intros Hd H. unfold build_line in H.
  apply bind_Ok in H as (w & _ & H). apply bind_Ok in H as (greek & _ & H).
  destruct (negb greek); [injection H as <-; exact Hd|].
  destruct (1 <? length (find_accent (strip w)))%nat; [injection H as <-; exact Hd|].
  apply bind_Ok in H as (uglish & Hu & [= <-]).
  assert (forall u, In u uglish -> In u uglish) as Hsub by auto.
  revert d Hd Hsub. generalize uglish at 1 3. intros l.
  induction l as [|u l IH]; intros d Hd Hsub; [exact Hd|].
  cbn [fold_left]. apply IH; [|intros u' Hu'; apply Hsub; right; exact Hu'].
  intros k words word Hk Hw.
  assert (In u uglish) as Huin by (apply Hsub; left; reflexivity).
  destruct (d !! u) as [ws|] eqn:Hdu.
  - rewrite Hdu in Hk. destruct (decide (u = k)) as [-> | Hne].
    + rewrite lookup_insert_eq in Hk. injection Hk as <-.
      apply in_app_iff in Hw as [Hw | [<- | []]]; [exact (Hd k ws word Hdu Hw) | eauto].
    + rewrite lookup_insert_ne in Hk by exact Hne. exact (Hd k words word Hk Hw).
  - rewrite lookup_insert_eq in Hk. destruct (decide (u = k)) as [-> | Hne].
    + rewrite insert_insert_eq, lookup_insert_eq in Hk. injection Hk as <-.
      destruct Hw as [<- | []]. eauto.
    + rewrite !lookup_insert_ne in Hk by exact Hne. exact (Hd k words word Hk Hw).
Qed.

(** The index that [build_g_uglish_dict] builds is consistent. *)
Lemma build_g_uglish_dict_consistent (lines : list str) :
  build_g_uglish_dict lower lines = Ok uglish_dict -> index_consistent lower uglish_dict.
Proof.
  unfold build_g_uglish_dict, index_consistent. intros H.
  refine (for_loop_invariant
            (fun d : gmap str (list str) =>
               forall uglish_word words word,
                 d !! uglish_word = Some words -> In word words ->
                 exists us, greek_to_uglish lower word = Ok us /\ In uglish_word us)
            (fun _ => True) _ _ _ _ _ _ _ H).
  - apply List.Forall_forall. auto.
  - intros d line d' Hd _ Hb. exact (build_line_consistent d d' line Hd Hb).
  - intros k words word Hk. rewrite lookup_empty in Hk. discriminate.
Qed.

(** C1 (as amended): the tie-break stage reads the candidate's token at
    every position at which the Latin tokenization has a tiebreaker token,
    without a check of the candidate's token count.  When every candidate
    has a token at each of these positions, the stage returns a reordering
    of the candidates; this is the case for the candidates that
    [find_possibilities] retrieves from an index that files every word under
    its own canonical forms (a candidate then has as many tokens as the
    Latin word), so that [sorted_possibilities] returns without error; and
    every index that [build_g_uglish_dict] builds is such an index. *)
Theorem sort_possibilities_by_tiebreakers_reach :
  (forall (lat_string : str) (possibilities : list str),
      (forall i tok target,
          lat_tokens lower lat_string !! i = Some tok ->
          dict_get tiebreaker_dict tok = Ok target ->
          forall c, In c possibilities -> (i < length (greek_tokens lower c))%nat) ->
      exists r,
        sort_possibilities_by_tiebreakers lower lat_string possibilities = Ok r
        /\ Permutation r possibilities)
  /\ (index_consistent lower uglish_dict ->
      forall lat_string : str,
      exists possibilities r,
        find_possibilities lower uglish_dict lat_string = Ok possibilities
        /\ (forall c, In c possibilities ->
              length (greek_tokens lower c) = length (lat_tokens lower lat_string))
        /\ sorted_possibilities lower uglish_dict lat_string = Ok r)
  /\ (forall lines : list str,
        build_g_uglish_dict lower lines = Ok uglish_dict -> index_consistent lower uglish_dict).
Proof.
  split; [|split; [|exact build_g_uglish_dict_consistent]].
  - intros lat_string possibilities H.
    exists (sorted (tiebreak_score lower lat_string) possibilities).
    split; [|apply sorted_Permutation].
    apply sort_possibilities_by_tiebreakers_sorted.
    intros i tok target Hin Hg tp Htp. apply in_map_iff in Htp as (c & <- & Hc).
    apply enumerate_lookup in Hin. exact (H i tok target Hin Hg c Hc).
  - intros Hidx lat_string.
    destruct (sorted_possibilities_returns lat_string Hidx) as (possibilities & r & Hp & Hr & _).
    exists possibilities, r. split; [exact Hp|]. split; [|exact Hr].
    intros c Hc. exact (find_possibilities_tokens lat_string possibilities c Hidx Hp Hc).
Qed.

End Index.

Lemma example_index_built :
  build_g_uglish_dict lower_model [u8 "τα 9"; u8 "τά 7"; u8 "ξ 1"] = Ok example_index.
Proof. vm_compute. reflexivity. Qed.

Lemma sort_possibilities_by_tiebreakers_reach_witness :
  (exists r,
      sort_possibilities_by_tiebreakers lower_model (u8 "tou") [u8 "τω"; u8 "του"] = Ok r
      /\ Permutation r [u8 "τω"; u8 "του"])
  /\ exists possibilities r,
       find_possibilities lower_model example_index (u8 "ta") = Ok possibilities
       /\ (forall c, In c possibilities ->
             length (greek_tokens lower_model c) = length (lat_tokens lower_model (u8 "ta")))
       /\ sorted_possibilities lower_model example_index (u8 "ta") = Ok r.
Proof.
  destruct (sort_possibilities_by_tiebreakers_reach lower_model example_index)
    as (Hstage & Hindex & Hbuilt).
  split.
  - apply Hstage. intros i tok target Hi _ c Hc.
    assert (lat_tokens lower_model (u8 "tou") = [u8 "t"; u8 "ou"]) as Ht
      by (vm_compute; reflexivity).
    rewrite Ht in Hi. apply lookup_lt_Some in Hi. simpl in Hi.
    destruct Hc as [<- | [<- | []]]; vm_compute; lia.
  - apply Hindex. exact (Hbuilt _ example_index_built).
Defined.

(** C1 as stated fails: the Latin word "tou" has the tiebreaker token "ou"
    at position 1, the candidate "α" has one token, and the stage raises
    [IndexError] instead of counting a non-match. *)
Lemma sort_possibilities_by_tiebreakers_raises :
  lat_tokens lower_model (u8 "tou") = [u8 "t"; u8 "ou"]
  /\ dict_get tiebreaker_dict (u8 "ou") = Ok (u8 "ου")
  /\ greek_tokens lower_model (u8 "α") = [u8 "α"]
  /\ sort_possibilities_by_tiebreakers lower_model (u8 "tou") [u8 "α"] = Raise IndexError.
Proof. repeat split; vm_compute; reflexivity. Qed.

(** ** The three stages in sequence *)

Lemma sorted_constant {A} (key : A -> Z) (l : list A) :
  (forall x y, key x = key y) -> sorted key l = l.
Proof.
  intros Hk. induction l as [|x l IH]; simpl; [reflexivity|]. rewrite IH.
  destruct l as [|y l]; simpl; [reflexivity|].
  rewrite (Hk y x), Z.ltb_irrefl. reflexivity.
Qed.

Lemma lex_asymmetric {A} (key : A -> Z) (R : A -> A -> Prop) :
  (forall a b, R a b -> R b a -> False) ->
  forall a b, lex key R a b -> lex key R b a -> False.
Proof.
  intros HR a b [H1 | [H1 H1']] [H2 | [H2 H2']]; try lia. exact (HR a b H1' H2').
Qed.

Lemma by_position_asymmetric {A} (a b : nat * A) : by_position a b -> by_position b a -> False.
Proof. unfold by_position. lia. Qed.

Section Stages.

Variable lower : str -> str.

Lemma sort_possibilities_by_accent_key (lat_string : str) (possibilities : list str) :
  sort_possibilities_by_accent lat_string possibilities
  = Ok (sorted (accent_key lat_string) possibilities).
Proof.
  rewrite sort_possibilities_by_accent_sorted. unfold accent_key.
  destruct (length (find_accent lat_string) =? 0)%nat; [|reflexivity].
  rewrite sorted_constant by reflexivity. reflexivity.
Qed.

Lemma candidates_reach_Permutation (lat_string : str) (l l' : list str) :
  Permutation l' l -> candidates_reach lower lat_string l ->
  candidates_reach lower lat_string l'.
Proof.
  intros Hp H i tok target Hin Hg tp Htp. apply (H i tok target Hin Hg).
  apply in_map_iff in Htp as (c & <- & Hc). apply in_map.
  eapply Permutation_in; [exact Hp | exact Hc].
Qed.

Lemma sort_stages_sorted (lat_string : str) (possibilities : list str) :
  candidates_reach lower lat_string possibilities ->
  sort_stages lower lat_string possibilities
  = Ok (sorted (tiebreak_score lower lat_string)
          (sorted (accent_key lat_string)
             (sorted (length_difference lower lat_string) possibilities))).
Proof.
  intros Hreach. unfold sort_stages.
  rewrite sort_possibilities_by_length_sorted. cbn [mbind M_bind].
  rewrite sort_possibilities_by_accent_key. cbn [mbind M_bind].
  apply sort_possibilities_by_tiebreakers_sorted.
  eapply candidates_reach_Permutation; [|exact Hreach].
  rewrite !sorted_Permutation. reflexivity.
Qed.

Lemma rank_lt_asymmetric (lat_string : str) (a b : nat * str) :
  rank_lt lower lat_string a b -> rank_lt lower lat_string b a -> False.
Proof.
  unfold rank_lt. repeat apply lex_asymmetric. apply by_position_asymmetric.
Qed.

(** C2 (as amended): the length stage is a stable sort by the length
    difference; the accent stage is a stable sort by the accent-position
    difference when the Latin word has an accent and returns the list as
    it is (a stable sort by a constant key) when it has none; the tie-break
    stage is a stable sort by the tie-break score when every candidate has
    a token at each position at which the Latin word has a tiebreaker token;
    and then the three stages in sequence yield exactly the candidates in
    the lexicographic order of tie-break score, accent key, length
    difference and position in the list, the one arrangement of the list
    in that order. *)
Theorem sort_stages_lexicographic (lat_string : str) (possibilities : list str) :
  (forall i tok target,
      lat_tokens lower lat_string !! i = Some tok ->
      dict_get tiebreaker_dict tok = Ok target ->
      forall c, In c possibilities -> (i < length (greek_tokens lower c))%nat) ->
  (exists r, sort_possibilities_by_length lower lat_string possibilities = Ok r
             /\ stably_sorted_by (length_difference lower lat_string) possibilities r)
  /\ (exists r, sort_possibilities_by_accent lat_string possibilities = Ok r
                /\ stably_sorted_by (accent_key lat_string) possibilities r)
  /\ (exists r, sort_possibilities_by_tiebreakers lower lat_string possibilities = Ok r
                /\ stably_sorted_by (tiebreak_score lower lat_string) possibilities r)
  /\ exists t : list (nat * str),
       sort_stages lower lat_string possibilities = Ok (map snd t)
       /\ Permutation t (enumerate possibilities)
       /\ StronglySorted (rank_lt lower lat_string) t
       /\ forall t', Permutation t' (enumerate possibilities) ->
                     StronglySorted (rank_lt lower lat_string) t' -> t' = t.
Proof.
  intros H.
  assert (candidates_reach lower lat_string possibilities) as Hreach.
  { intros i tok target Hin Hg tp Htp. apply in_map_iff in Htp as (c & <- & Hc).
    apply enumerate_lookup in Hin. exact (H i tok target Hin Hg c Hc). }
  split; [|split; [|split]].
  - eexists. split; [apply sort_possibilities_by_length_sorted | apply sorted_stably].
  - eexists. split; [apply sort_possibilities_by_accent_key | apply sorted_stably].
  - eexists. split; [apply sort_possibilities_by_tiebreakers_sorted, Hreach | apply sorted_stably].
  - set (k1 := fun ix : nat * str => length_difference lower lat_string ix.2).
    set (k2 := fun ix : nat * str => accent_key lat_string ix.2).
    set (k3 := fun ix : nat * str => tiebreak_score lower lat_string ix.2).
    set (t := sorted k3 (sorted k2 (sorted k1 (enumerate possibilities)))).
    assert (Permutation t (enumerate possibilities)) as Hperm
      by (unfold t; rewrite !sorted_Permutation; reflexivity).
    assert (StronglySorted (rank_lt lower lat_string) t) as Hsorted
      by (unfold t, rank_lt; repeat apply sorted_refines; apply enumerate_sorted).
    exists t. split; [|split; [exact Hperm | split; [exact Hsorted|]]].
    + rewrite (sort_stages_sorted _ _ Hreach). f_equal. unfold t.
      rewrite (sorted_map snd k3 (tiebreak_score lower lat_string)) by reflexivity.
      rewrite (sorted_map snd k2 (accent_key lat_string)) by reflexivity.
      rewrite (sorted_map snd k1 (length_difference lower lat_string)) by reflexivity.
      rewrite enumerate_snd. reflexivity.
    + intros t' Hperm' Hsorted'.
      apply (sorted_Permutation_unique (rank_lt lower lat_string)); [| assumption | assumption |].
      * intros a b _ _ Hab Hba. destruct (rank_lt_asymmetric _ _ _ Hab Hba).
      * rewrite Hperm, Hperm'. reflexivity.
Qed.

End Stages.

(** [sorted_possibilities] is the lookup followed by the three stages. *)
Lemma sorted_possibilities_stages (lower : str -> str) (uglish_dict : gmap str (list str))
    (lat_string : str) :
  sorted_possibilities lower uglish_dict lat_string
  = (possibilities ← find_possibilities lower uglish_dict lat_string;
     sort_stages lower lat_string possibilities).
Proof.
  unfold sorted_possibilities, sort_stages. apply bind_ext. intros p.
  destruct (sort_possibilities_by_length lower lat_string p) as [p1| |]; try reflexivity.
  cbn [mbind M_bind].
  destruct (sort_possibilities_by_accent lat_string p1) as [p2| |]; try reflexivity.
  cbn [mbind M_bind]. apply bind_ret.
Qed.

Lemma sort_stages_lexicographic_witness :
  exists t : list (nat * str),
    sort_stages lower_model (u8 "tou") [u8 "τω"; u8 "του"] = Ok (map snd t)
    /\ Permutation t (enumerate [u8 "τω"; u8 "του"])
    /\ StronglySorted (rank_lt lower_model (u8 "tou")) t.
Proof.
  destruct (sort_stages_lexicographic lower_model (u8 "tou") [u8 "τω"; u8 "του"])
    as (_ & _ & _ & t & Ht & Hperm & Hsorted & _).
  - intros i tok target Hi _ c Hc.
    assert (lat_tokens lower_model (u8 "tou") = [u8 "t"; u8 "ou"]) as Hl
      by (vm_compute; reflexivity).
    rewrite Hl in Hi. apply lookup_lt_Some in Hi. simpl in Hi.
    destruct Hc as [<- | [<- | []]]; vm_compute; lia.
  - exists t. split; [exact Ht|]. split; [exact Hperm | exact Hsorted].
Defined.

(** C2 as stated fails for a Latin word without accent: the accent stage
    does not sort by the accent-position difference then.  For "ta" and the
    candidates "τά", "τα" the stages return the list as it is, although the
    two have the same tie-break score and "τα" has the smaller
    accent-position difference: the result is not in the lexicographic
    order with the accent-position difference as second key. *)
Lemma sort_stages_not_accent_difference :
  let lat_string := u8 "ta" in
  let possibilities := [u8 "τά"; u8 "τα"] in
  sort_stages lower_model lat_string possibilities = Ok possibilities
  /\ ~ exists t : list (nat * str),
         possibilities = map snd t
         /\ Permutation t (enumerate possibilities)
         /\ StronglySorted
              (lex (fun ix => tiebreak_score lower_model lat_string ix.2)
                 (lex (fun ix => accent_difference lat_string ix.2)
                    (lex (fun ix => length_difference lower_model lat_string ix.2)
                       by_position))) t.
Proof.
  intros lat_string possibilities. split; [vm_compute; reflexivity|].
  intros (t & Hmap & Hperm & Hs).
  apply Permutation_sym, Permutation_length_2_inv in Hperm as [-> | ->].
  - inversion Hs as [|? ? _ Hlt]; subst. inversion Hlt as [|? ? H _]; subst.
    unfold lex in H. cbn [snd] in H.
    replace (tiebreak_score lower_model lat_string (u8 "τά")) with 100 in H
      by (vm_compute; reflexivity).
    replace (tiebreak_score lower_model lat_string (u8 "τα")) with 100 in H
      by (vm_compute; reflexivity).
    replace (accent_difference lat_string (u8 "τά")) with 98 in H
      by (vm_compute; reflexivity).
    replace (accent_difference lat_string (u8 "τα")) with 0 in H
      by (vm_compute; reflexivity).
    lia.
  - vm_compute in Hmap. discriminate.
Qed.

(** ** The Latin letters *)

Lemma latin_alphabet_letters (x : Z) :
  In x latin_alphabet <-> x = 32 \/ In x latin_letters.
Proof.
  split.
  - assert (forallb (fun x => (x =? 32) || existsb (Z.eqb x) latin_letters) latin_alphabet
            = true) as Hall by (vm_compute; reflexivity).
    rewrite forallb_forall in Hall. intros Hx. specialize (Hall x Hx).
    apply orb_true_iff in Hall as [H | H]; [left; apply Z.eqb_eq, H|].
    right. apply existsb_exists in H as (y & Hy & Hxy). apply Z.eqb_eq in Hxy.
    subst y. exact Hy.
  - assert (forallb (fun x => existsb (Z.eqb x) latin_alphabet) (32 :: latin_letters) = true)
      as Hall by (vm_compute; reflexivity).
    rewrite forallb_forall in Hall. intros Hx.
    assert (In x (32 :: latin_letters)) as Hx' by (destruct Hx as [-> | Hx]; [left | right]; auto).
    specialize (Hall x Hx'). apply existsb_exists in Hall as (y & Hy & Hxy).
    apply Z.eqb_eq in Hxy. subst y. exact Hy.
Qed.

Lemma is_latin_letter_spec (c : Z) :
  is_latin_letter [c] = true <-> In c latin_alphabet /\ c <> 32.
Proof.
  unfold is_latin_letter. fold latin_alphabet.
  rewrite <- str_in_single.
  destruct (str_in [c] latin_alphabet); cbn [andb].
  - case_bool_decide as Hc; cbn [negb].
    + injection Hc as ->. split; [discriminate | intros [_ H]; destruct H; reflexivity].
    + split; [intros _; split; [reflexivity|] | reflexivity].
      intros ->. apply Hc. reflexivity.
  - split; [discriminate | intros [H _]; discriminate].
Qed.

Lemma is_latin_letter_letters (c : Z) :
  is_latin_letter [c] = true <-> In c (u8 "abcdefghijklmnopqrstuvwxyz3894àèìòùẁáéíóúẃ").
Proof.
  change (u8 "abcdefghijklmnopqrstuvwxyz3894àèìòùẁáéíóúẃ") with latin_letters.
  rewrite is_latin_letter_spec, latin_alphabet_letters.
  assert (~ In 32 latin_letters) as Hsp by not_in_table.
  split.
  - intros [[-> | H] Hc]; [destruct Hc; reflexivity | exact H].
  - intros H. split; [right; exact H|]. intros ->. exact (Hsp H).
Qed.

(** ** The segmenter *)

Section Translate.

Variable lower upper : str -> str.
Variable isupper : str -> bool.
Variable uglish_dict : gmap str (list str).

Local Abbreviation guess_word := (guess lower upper isupper uglish_dict).
Local Abbreviation step := (translate_step lower upper isupper uglish_dict).
Local Abbreviation translate := (translate_text lower upper isupper uglish_dict).

Lemma translate_text_from (text : str) : translate text = translate_from lower upper isupper uglish_dict text ([], []).
Proof.
  unfold translate_text, translate_from. apply bind_ext. intros [word text_out]. reflexivity.
Qed.

Lemma translate_from_cons (c : Z) (text : str) (state : str * str) :
  translate_from lower upper isupper uglish_dict (c :: text) state
  = (state' ← step state c; translate_from lower upper isupper uglish_dict text state').
Proof. unfold translate_from. cbn [for_loop]. apply bind_assoc. Qed.

Lemma translate_from_out (text : str) (word text_out : str) :
  translate_from lower upper isupper uglish_dict text (word, text_out)
  = (r ← translate_from lower upper isupper uglish_dict text (word, []); Ok (text_out ++ r)).
Proof.
  revert word text_out. induction text as [|c text IH]; intros word text_out.
  - unfold translate_from. destruct word as [|w0 word]; cbn [for_loop mbind M_bind flush].
    + rewrite app_nil_r. reflexivity.
    + rewrite bind_assoc. apply bind_ext. intros g. reflexivity.
  - rewrite !translate_from_cons. unfold step.
    destruct (negb (is_latin_letter (lower [c]))).
    + destruct word as [|w0 word].
      * cbn [mbind M_bind]. rewrite IH. rewrite (IH [] ([] ++ [c])).
        rewrite bind_assoc. apply bind_ext. intros r. cbn [mbind M_bind].
        rewrite <- app_assoc. reflexivity.
      * rewrite !bind_assoc. apply bind_ext. intros g. cbn [mbind M_bind].
        rewrite IH. rewrite (IH [] ([] ++ g ++ [c])).
        rewrite bind_assoc. apply bind_ext. intros r. cbn [mbind M_bind].
        rewrite <- !app_assoc. reflexivity.
    + cbn [mbind M_bind]. apply IH.
Qed.

Lemma translate_from_word (w text : str) (word text_out : str) :
  forallb (latin lower) w = true ->
  translate_from lower upper isupper uglish_dict (w ++ text) (word, text_out) = translate_from lower upper isupper uglish_dict text (word ++ w, text_out).
Proof.
  revert word. induction w as [|c w IH]; intros word Hw.
  - rewrite app_nil_r. reflexivity.
  - cbn [forallb] in Hw. apply andb_true_iff in Hw as [Hc Hw].
    cbn [app]. rewrite translate_from_cons. unfold step.
    unfold latin in Hc. rewrite Hc. cbn [negb mbind M_bind].
    rewrite IH by exact Hw. rewrite <- app_assoc. reflexivity.
Qed.

Lemma translate_text_separator (c : Z) (text : str) :
  latin lower c = false ->
  translate (c :: text) = (r ← translate text; Ok (c :: r)).
Proof.
  intros Hc. rewrite !translate_text_from, translate_from_cons. unfold step.
  unfold latin in Hc. rewrite Hc. cbn [negb mbind M_bind].
  apply (translate_from_out text [] ([] ++ [c])).
Qed.

Lemma translate_text_word_separator (w : str) (c : Z) (text : str) :
  w <> [] -> forallb (latin lower) w = true -> latin lower c = false ->
  translate (w ++ c :: text)
  = (g ← guess_word w; r ← translate text; Ok (g ++ c :: r)).
Proof.
  intros Hne Hw Hc. rewrite !translate_text_from, translate_from_word by exact Hw.
  rewrite translate_from_cons. unfold step.
  unfold latin in Hc. rewrite Hc. cbn [negb app].
  destruct w as [|w0 w]; [congruence|].
  rewrite bind_assoc. apply bind_ext. intros g. cbn [mbind M_bind].
  rewrite (translate_from_out text [] (g ++ [c])).
  apply bind_ext. intros r. rewrite <- app_assoc. reflexivity.
Qed.

Lemma translate_text_word (w : str) :
  w <> [] -> forallb (latin lower) w = true -> translate w = guess_word w.
Proof.
  intros Hne Hw. rewrite translate_text_from.
  rewrite <- (app_nil_r w) at 1. rewrite translate_from_word by exact Hw.
  unfold translate_from. cbn [for_loop mbind M_bind flush app].
  destruct w as [|w0 w]; [congruence|]. apply bind_ret.
Qed.

Lemma translate_text_separators (text : str) :
  forallb (fun c => negb (latin lower c)) text = true -> translate text = Ok text.
Proof.
  induction text as [|c text IH]; intros H; [reflexivity|].
  cbn [forallb] in H. apply andb_true_iff in H as [Hc H].
  rewrite translate_text_separator by (apply negb_true_iff, Hc).
  rewrite IH by exact H. reflexivity.
Qed.

Lemma translate_from_split (c : Z) (text1 text2 : str) (state : str * str) :
  latin lower c = false ->
  translate_from lower upper isupper uglish_dict (text1 ++ c :: text2) state
  = (r1 ← translate_from lower upper isupper uglish_dict text1 state; r2 ← translate text2; Ok (r1 ++ c :: r2)).
Proof.
  intros Hc. revert state. induction text1 as [|d text1 IH]; intros [word text_out].
  - cbn [app]. rewrite translate_from_cons. unfold step.
    unfold latin in Hc. rewrite Hc. cbn [negb].
    unfold translate_from at 2. cbn [for_loop mbind M_bind flush].
    destruct word as [|w0 word].
    + cbn [mbind M_bind]. rewrite translate_from_out, translate_text_from.
      apply bind_ext. intros r. rewrite <- app_assoc. reflexivity.
    + rewrite !bind_assoc. apply bind_ext. intros g. cbn [mbind M_bind].
      rewrite translate_from_out, translate_text_from.
      apply bind_ext. intros r. rewrite <- !app_assoc. reflexivity.
  - cbn [app]. rewrite !translate_from_cons, bind_assoc.
    apply bind_ext. intros state'. apply IH.
Qed.

Lemma translate_text_split (c : Z) (text1 text2 : str) :
  latin lower c = false ->
  translate (text1 ++ c :: text2)
  = (r1 ← translate text1; r2 ← translate text2; Ok (r1 ++ c :: r2)).
Proof.
  intros Hc. rewrite (translate_text_from (text1 ++ c :: text2)), (translate_text_from text1).
  apply translate_from_split, Hc.
Qed.

(** ** The guess for a word *)

Lemma guess_value (word : str) (w0 : Z) (rest : str) (guess_list : list str) :
  word = w0 :: rest ->
  sorted_possibilities lower uglish_dict word = Ok guess_list ->
  guess_word word
  = let translated_word := match guess_list with c :: _ => c | [] => word end in
    if isupper [w0]
    then match translated_word with
         | t0 :: t' => Ok (upper [t0] ++ t')
         | [] => Raise IndexError
         end
    else Ok translated_word.
Proof.
  intros -> Hs. unfold guess. cbn [getitem lookup list_lookup mbind M_bind].
  rewrite Hs. cbn [mbind M_bind].
  destruct guess_list as [|c guess_list]; cbn [getitem lookup list_lookup];
    destruct (isupper [w0]); try reflexivity.
  destruct c as [|t0 t']; reflexivity.
Qed.

Lemma sorted_possibilities_none (word : str) (us : list str) :
  lish_to_uglish lower word = Ok us ->
  (forall u, In u us -> uglish_dict !! u = None \/ uglish_dict !! u = Some []) ->
  find_possibilities lower uglish_dict word = Ok []
  /\ sorted_possibilities lower uglish_dict word = Ok [].
Proof.
  intros Hus Hnone.
  assert (find_possibilities lower uglish_dict word = Ok []) as Hf.
  { unfold find_possibilities. rewrite Hus. cbn [mbind M_bind]. f_equal.
    clear Hus. induction us as [|u us IH]; [reflexivity|]. cbn [flat_map].
    destruct (Hnone u (or_introl eq_refl)) as [-> | ->]; cbn [app].
    all: apply IH; intros u' Hu'; apply Hnone; right; exact Hu'. }
  split; [exact Hf|]. unfold sorted_possibilities. rewrite Hf. cbn [mbind M_bind].
  rewrite sort_possibilities_by_length_sorted. cbn [mbind M_bind sorted].
  rewrite sort_possibilities_by_accent_key. cbn [mbind M_bind sorted].
  rewrite sort_possibilities_by_tiebreakers_sorted; [reflexivity|].
  intros i tok target _ _ tp [].
Qed.

(** What the lookup and the ranking read of the word: the lowercase form,
    but for the length of the word and for the accent stage, which reads
    the word as it is typed. *)

Lemma find_possibilities_lower (word : str) :
  lower (lower word) = lower word ->
  find_possibilities lower uglish_dict (lower word)
  = find_possibilities lower uglish_dict word.
Proof. intros H. unfold find_possibilities, lish_to_uglish. rewrite H. reflexivity. Qed.

Lemma sort_possibilities_by_length_lower (word : str) (possibilities : list str) :
  lower (lower word) = lower word -> length (lower word) = length word ->
  sort_possibilities_by_length lower (lower word) possibilities
  = sort_possibilities_by_length lower word possibilities.
Proof. intros H Hl. unfold sort_possibilities_by_length. rewrite H, Hl. reflexivity. Qed.

Lemma sort_possibilities_by_tiebreakers_lower (word : str) (possibilities : list str) :
  lower (lower word) = lower word ->
  sort_possibilities_by_tiebreakers lower (lower word) possibilities
  = sort_possibilities_by_tiebreakers lower word possibilities.
Proof. intros H. unfold sort_possibilities_by_tiebreakers. rewrite H. reflexivity. Qed.

Lemma sort_possibilities_by_accent_agree (w w' : str) (possibilities : list str) :
  (find_accent w = [] <-> find_accent w' = []) ->
  find_accent_graph_position w (GraphString lish_graphs)
  = find_accent_graph_position w' (GraphString lish_graphs) ->
  sort_possibilities_by_accent w possibilities
  = sort_possibilities_by_accent w' possibilities.
Proof.
  intros He Hp. unfold sort_possibilities_by_accent. fold lish_graphs. rewrite Hp.
  destruct (find_accent w) eqn:E, (find_accent w') eqn:E'; cbn [length Nat.eqb];
    try reflexivity.
  - destruct He as [He _]. discriminate (He eq_refl).
  - destruct He as [_ He]. discriminate (He eq_refl).
Qed.

Lemma sorted_possibilities_lower (word : str) :
  lower (lower word) = lower word -> length (lower word) = length word ->
  (find_accent word = [] <-> find_accent (lower word) = []) ->
  find_accent_graph_position word (GraphString lish_graphs)
  = find_accent_graph_position (lower word) (GraphString lish_graphs) ->
  sorted_possibilities lower uglish_dict (lower word)
  = sorted_possibilities lower uglish_dict word.
Proof.
  intros H Hl He Hp. unfold sorted_possibilities.
  rewrite (find_possibilities_lower word H). apply bind_ext. intros ps.
  rewrite (sort_possibilities_by_length_lower word ps H Hl). apply bind_ext. intros ps'.
  rewrite (sort_possibilities_by_accent_agree word (lower word) ps' He Hp).
  apply bind_ext. intros ps''.
  rewrite (sort_possibilities_by_tiebreakers_lower word ps'' H). reflexivity.
Qed.


(** C3: a Latin word none of whose canonical forms has an entry in the
    index (or has one with no word) has no candidates, and is translated to
    itself (an uppercase
    first letter being its own uppercase form): alone, and between
    separators, which are copied as they are around it while the text before
    and after is translated on its own. *)
Theorem translate_text_lookup_miss (w : str) (w0 : Z) (rest : str) (us : list str) :
  w = w0 :: rest -> forallb (latin lower) w = true ->
  lish_to_uglish lower w = Ok us ->
  (forall u, In u us -> uglish_dict !! u = None \/ uglish_dict !! u = Some []) ->
  (isupper [w0] = true -> upper [w0] = [w0]) ->
  find_possibilities lower uglish_dict w = Ok []
  /\ guess_word w = Ok w
  /\ translate w = Ok w
  /\ (forall (c : Z) (text : str), latin lower c = false ->
        translate (w ++ c :: text) = (r ← translate text; Ok (w ++ c :: r)))
  /\ (forall (c : Z) (text : str), latin lower c = false ->
        translate (text ++ c :: w) = (r ← translate text; Ok (r ++ c :: w)))
  /\ (forall (c1 c2 : Z) (text1 text2 : str), latin lower c1 = false -> latin lower c2 = false ->
        translate (text1 ++ c1 :: w ++ c2 :: text2)
        = (r1 ← translate text1; r2 ← translate text2; Ok (r1 ++ c1 :: w ++ c2 :: r2))).
Proof.
  intros Hw Hl Hus Hnone Hup.
  destruct (sorted_possibilities_none w us Hus Hnone) as [Hf Hs].
  assert (w <> []) as Hne by (subst; discriminate).
  assert (guess_word w = Ok w) as Hg.
  { rewrite (guess_value w w0 rest [] Hw Hs). cbv zeta.
    destruct (isupper [w0]) eqn:Hi; [|reflexivity].
    rewrite Hw. rewrite Hup by reflexivity. reflexivity. }
  assert (translate w = Ok w) as Ht by (rewrite translate_text_word; assumption).
  assert (forall c text, latin lower c = false ->
            translate (w ++ c :: text) = (r ← translate text; Ok (w ++ c :: r))) as Hleft.
  { intros c text Hc. rewrite translate_text_word_separator by assumption.
    rewrite Hg. reflexivity. }
  repeat split; try assumption.
  - intros c text Hc. rewrite translate_text_split by exact Hc.
    apply bind_ext. intros r. rewrite Ht. reflexivity.
  - intros c1 c2 text1 text2 Hc1 Hc2. rewrite translate_text_split by exact Hc1.
    apply bind_ext. intros r1. rewrite Hleft by exact Hc2.
    rewrite bind_assoc. apply bind_ext. intros r2. reflexivity.
Qed.

(** C5 (as amended): the characters classified as Latin letters are the
    letters a to z, the digits 3, 8, 9 and 4, and the accented vowels of
    [lat_accented]; every character whose lowercase form is not one of
    them (Greek letters, white space, punctuation, the other digits) is a
    boundary: it ends the word buffer, is copied as it is, and the texts
    before and after it are translated on their own; a non-empty run of
    Latin letters is replaced by its guess. *)
Theorem translate_text_segments :
  (forall c : Z,
      is_latin_letter [c] = true
      <-> In c (u8 "abcdefghijklmnopqrstuvwxyz3894àèìòùẁáéíóúẃ"))
  /\ (forall (c : Z) (text1 text2 : str), latin lower c = false ->
        translate (text1 ++ c :: text2)
        = (r1 ← translate text1; r2 ← translate text2; Ok (r1 ++ c :: r2)))
  /\ (forall w : str, w <> [] -> forallb (latin lower) w = true -> translate w = guess_word w)
  /\ translate [] = Ok [].
Proof.
  split; [|split; [|split]].
  - exact is_latin_letter_letters.
  - intros c text1 text2 Hc. apply translate_text_split, Hc.
  - intros w Hne Hw. apply translate_text_word; assumption.
  - reflexivity.
Qed.

End Translate.

(** The model case functions have the property of Python's that C3 uses. *)
Lemma upper_model_isupper (c : Z) : isupper_model [c] = true -> upper_model [c] = [c].
Proof.
  unfold isupper_model, upper_model. cbn [existsb forallb map].
  rewrite orb_false_r, andb_true_r, andb_true_iff, Z.eqb_eq. intros [_ ->]. reflexivity.
Qed.

(** ** The theorems of the segmenter on examples *)

Lemma accent_index_built :
  build_g_uglish_dict lower_model [u8 "ειχύ 1"; u8 "είχυ 1"] = Ok accent_index.
Proof. vm_compute. reflexivity. Qed.



Lemma translate_text_lookup_miss_witness :
  guess lower_model upper_model isupper_model example_index (u8 "Xyz") = Ok (u8 "Xyz")
  /\ translate_text lower_model upper_model isupper_model example_index (u8 "ta, Xyz! ta")
     = (r1 ← translate_text lower_model upper_model isupper_model example_index (u8 "ta,");
        r2 ← translate_text lower_model upper_model isupper_model example_index (u8 " ta");
        Ok (r1 ++ u8 " Xyz!" ++ r2)).
Proof.
  destruct (translate_text_lookup_miss lower_model upper_model isupper_model example_index
              (u8 "Xyz") 88 (u8 "yz") [u8 "3iz"; u8 "xiz"])
    as (_ & Hguess & _ & _ & _ & Hmid);
    [reflexivity | vm_compute; reflexivity | vm_compute; reflexivity
    | intros u [<- | [<- | []]]; left; vm_compute; reflexivity
    | apply upper_model_isupper |].
  split; [exact Hguess|].
  apply (Hmid 32 33 (u8 "ta,") (u8 " ta")); vm_compute; reflexivity.
Defined.

Lemma translate_text_segments_witness :
  translate_text lower_model upper_model isupper_model example_index (u8 "ta, ta")
  = (r1 ← translate_text lower_model upper_model isupper_model example_index (u8 "ta");
     r2 ← translate_text lower_model upper_model isupper_model example_index (u8 " ta");
     Ok (r1 ++ u8 "," ++ r2))
  /\ translate_text lower_model upper_model isupper_model example_index (u8 "ta")
     = guess lower_model upper_model isupper_model example_index (u8 "ta").
Proof.
  destruct (translate_text_segments lower_model upper_model isupper_model example_index)
    as (_ & Hsplit & Hword & _).
  split.
  - apply (Hsplit 44 (u8 "ta") (u8 " ta")). vm_compute. reflexivity.
  - apply Hword; [discriminate | vm_compute; reflexivity].
Defined.

(** C5 as stated fails on the digits 3, 8, 9 and 4: they are Latin letters
    for the tables, so the digit 3 is not a boundary and is not copied: it
    is a word, replaced by its candidate. *)
Lemma digit_is_latin_letter :
  is_latin_letter (lower_model (u8 "3")) = true
  /\ example_index !! u8 "3" = Some [u8 "ξ"]
  /\ translate_text lower_model upper_model isupper_model example_index (u8 "3")
     = Ok (u8 "ξ")
  /\ translate_text lower_model upper_model isupper_model example_index (u8 "3")
     <> Ok (u8 "3").
Proof. repeat split; try (vm_compute; reflexivity). vm_compute. discriminate. Qed.

(** * Further properties *)

(** ** Tokens *)

Lemma tokenize_loop_tokens (graph_list : list str) :
  List.Forall (fun g => g <> []) graph_list ->
  forall fuel word token_list, (length word <= fuel)%nat ->
  exists toks,
    tokenize_loop fuel graph_list word token_list = Ok (token_list ++ toks)
    /\ concat toks = word
    /\ List.Forall (fun t => t <> [] /\ (In t graph_list \/ exists c, t = [c])) toks.
Proof.
  intros Hg. induction fuel as [|fuel IH]; intros word ts Hlen.
  - destruct word; [|simpl in Hlen; lia]. exists []. rewrite app_nil_r.
    split; [reflexivity|]. split; [reflexivity | constructor].
  - destruct word as [|c rest].
    { exists []. rewrite app_nil_r. split; [reflexivity|]. split; [reflexivity | constructor]. }
    cbn [tokenize_loop].
    destruct (find (startswith (c :: rest)) graph_list) as [g|] eqn:Hf.
    + apply find_some in Hf as [Hin Hs].
      rewrite List.Forall_forall in Hg. pose proof (Hg _ Hin) as Hne.
      pose proof (startswith_drop _ _ Hs) as Hd.
      destruct (IH (drop (length g) (c :: rest)) (ts ++ [g])) as (toks & Ht & Hc & Hall).
      { apply (f_equal length) in Hd. rewrite length_app in Hd.
        destruct g; [congruence|]. simpl in *. lia. }
      exists (g :: toks). rewrite Ht, <- app_assoc. split; [reflexivity|].
      split; [cbn [concat]; rewrite Hc; symmetry; exact Hd|].
      constructor; [split; [exact Hne | left; exact Hin] | exact Hall].
    + destruct (IH rest (ts ++ [[c]])) as (toks & Ht & Hc & Hall); [simpl in Hlen; lia|].
      exists ([c] :: toks). rewrite Ht, <- app_assoc. split; [reflexivity|].
      split; [cbn [concat app]; rewrite Hc; reflexivity|].
      constructor; [split; [discriminate | right; exists c; reflexivity] | exact Hall].
Qed.

(** X1: for the graphs of a graph string, and for those of a table none of
    whose graphs is empty, [tokenize_graphs] returns tokens whose
    concatenation is the word: every token is non-empty and is a graph of
    the list or a single character, so a word has at most as many tokens
    as characters. *)
Theorem tokenize_graphs_concat (word : str) (graphs : graph_string_or_dict) :
  match graphs with
  | GraphDict d => graphs_nonempty d
  | GraphString _ => True
  end ->
  exists toks,
    tokenize_graphs word graphs = Ok toks
    /\ concat toks = word
    /\ List.Forall
         (fun t => t <> []
                   /\ (In t match graphs with GraphDict d => keys d | GraphString s => split s end
                       \/ exists c, t = [c])) toks
    /\ count_graphs word graphs = Ok (Z.of_nat (length toks))
    /\ (length toks <= length word)%nat.
Proof.
  intros Hg.
  set (graph_list := match graphs with GraphDict d => keys d | GraphString s => split s end).
  assert (List.Forall (fun g => g <> []) graph_list) as Hne.
  { unfold graph_list. destruct graphs as [s | d];
      [apply split_nonempty | apply graphs_nonempty_keys, Hg]. }
  destruct (tokenize_loop_tokens graph_list Hne (length word) word []) as (toks & Ht & Hc & Hall);
    [lia|].
  assert (tokenize_graphs word graphs = Ok toks) as Htok by exact Ht.
  exists toks. split; [exact Htok|]. split; [exact Hc|]. split; [|split].
  - exact Hall.
  - unfold count_graphs. rewrite Htok. reflexivity.
  - rewrite <- Hc. clear -Hall. induction Hall as [|t toks [Ht _] _ IH]; [simpl; lia|].
    cbn [concat length]. rewrite length_app. destruct t; [congruence|]. simpl. lia.
Qed.

Lemma tokenize_graphs_concat_witness :
  exists toks,
    tokenize_graphs (u8 "nchthe") (GraphDict l2u_dict) = Ok toks
    /\ concat toks = u8 "nchthe".
Proof.
  destruct (tokenize_graphs_concat (u8 "nchthe") (GraphDict l2u_dict))
    as (toks & Ht & Hc & _).
  - apply tables_graphs_nonempty.
  - exists toks. split; assumption.
Defined.

(** ** The transducer and the tokens *)

Lemma fan_out_single (s_out : list str) (c : Z) :
  fan_out s_out [c] = map (fun string => string ++ [c]) s_out.
Proof. unfold fan_out. cbn [flat_map]. apply app_nil_r. Qed.

Lemma replace_loop_tokens (d : dict) :
  graphs_nonempty d ->
  forall fuel s s_out token_list, (length s <= fuel)%nat ->
  exists toks,
    tokenize_loop fuel (keys d) s token_list = Ok (token_list ++ toks)
    /\ replace_loop fuel d s s_out
       = Ok (fold_left (fun s_out tok => fan_out s_out (token_alternatives d tok)) toks s_out).
Proof.
  intros Hk. induction fuel as [|fuel IH]; intros s o ts Hlen.
  - destruct s; [|simpl in Hlen; lia]. exists []. rewrite app_nil_r. split; reflexivity.
  - destruct s as [|c rest]; [exists []; rewrite app_nil_r; split; reflexivity|].
    cbn [tokenize_loop replace_loop].
    destruct (find (startswith (c :: rest)) (keys d)) as [g|] eqn:Hf.
    + pose proof (find_graph_shorter _ _ _ Hk Hf) as Hsh.
      destruct (find_keys_get _ _ _ Hf) as (v & Hv & _).
      destruct (IH (drop (length g) (c :: rest)) (fan_out o v) (ts ++ [g]))
        as (toks & Ht & Hr); [simpl in *; lia|].
      exists (g :: toks). rewrite Ht, <- app_assoc. split; [reflexivity|].
      rewrite Hv. cbn [mbind M_bind fold_left]. unfold token_alternatives at 2. rewrite Hv.
      exact Hr.
    + destruct (IH rest (fan_out o [c]) (ts ++ [[c]])) as (toks & Ht & Hr);
        [simpl in Hlen; lia|].
      exists ([c] :: toks). rewrite Ht, <- app_assoc. split; [reflexivity|].
      cbn [fold_left]. unfold token_alternatives at 2. rewrite (find_None_get _ _ _ Hf).
      rewrite <- fan_out_single. exact Hr.
Qed.

Lemma fold_fan_out_single (d : dict) (toks : list str) (o : str) :
  List.Forall (fun t => length (token_alternatives d t) = 1%nat) toks ->
  fold_left (fun s_out tok => fan_out s_out (token_alternatives d tok)) toks [o]
  = [o ++ concat (map (token_alternatives d) toks)].
Proof.
  intros H. revert o. induction H as [|t toks Ht _ IH]; intros o.
  - simpl. rewrite app_nil_r. reflexivity.
  - cbn [fold_left map concat].
    destruct (token_alternatives d t) as [|a [|]] eqn:Ha; try discriminate.
    rewrite fan_out_single. cbn [map]. rewrite IH, <- app_assoc. reflexivity.
Qed.

Lemma single_valued_tokens (d : dict) (toks : list str) :
  single_valued d ->
  List.Forall (fun t => t <> [] /\ (In t (keys d) \/ exists c, t = [c])) toks ->
  List.Forall (fun t => length (token_alternatives d t) = 1%nat) toks.
Proof.
  intros Hd Ht. unfold single_valued in Hd. rewrite List.Forall_forall in *.
  intros t Hin. unfold token_alternatives.
  destruct (dict_get d t) as [v|e|] eqn:Hg.
  - apply dict_get_In in Hg. exact (Hd _ Hg).
  - destruct (Ht t Hin) as [_ [Hk | [c ->]]]; [|reflexivity].
    apply dict_get_keys in Hk as [v Hv]. congruence.
  - destruct (dict_get_returns _ _ Hg).
Qed.

(** X2: for a table none of whose graphs is empty, [replace] is
    [tokenize_graphs] followed by the fan-out, token by token, of the
    alternatives of each token (the characters of the value of its graph, or
    the token itself when it is no graph); for a table with one alternative
    per graph it returns one string, the concatenation of the alternatives
    of the tokens. *)
Theorem replace_by_tokens (word : str) (d : dict) :
  graphs_nonempty d ->
  exists toks,
    tokenize_graphs word (GraphDict d) = Ok toks
    /\ replace word d
       = Ok (fold_left (fun s_out tok => fan_out s_out (token_alternatives d tok)) toks [[]])
    /\ (single_valued d -> replace word d = Ok [concat (map (token_alternatives d) toks)]).
Proof.
  intros Hk.
  destruct (replace_loop_tokens d Hk (length word) word [[]] []) as (toks & Ht & Hr); [lia|].
  exists toks. split; [exact Ht|]. split; [exact Hr|].
  intros Hs. unfold replace. rewrite Hr.
  destruct (tokenize_loop_tokens (keys d) (graphs_nonempty_keys d Hk) (length word) word [])
    as (toks' & Ht' & _ & Hall); [lia|].
  rewrite Ht in Ht'. injection Ht' as <-.
  rewrite (fold_fan_out_single d toks []); [reflexivity|].
  apply single_valued_tokens; assumption.
Qed.

Lemma replace_by_tokens_witness :
  exists toks,
    tokenize_graphs (u8 "αυτου") (GraphDict g2u_dict) = Ok toks
    /\ replace (u8 "αυτου") g2u_dict = Ok [concat (map (token_alternatives g2u_dict) toks)].
Proof.
  destruct (replace_by_tokens (u8 "αυτου") g2u_dict) as (toks & Ht & _ & Hs).
  - apply tables_graphs_nonempty.
  - exists toks. split; [exact Ht|]. apply Hs. repeat constructor.
Defined.

Lemma g2u_single_valued : single_valued g2u_dict.
Proof. repeat constructor. Qed.

(** X3: every canonical form of a word has one symbol per graph of the
    word: the forms [lish_to_uglish] returns, of which there is at least
    one, have the length of the Latin tokenization, and [greek_to_uglish]
    returns exactly one form, of the length of the Greek tokenization. *)
Theorem canonical_forms_length (lower : str -> str) (w : str) :
  (exists us,
      lish_to_uglish lower w = Ok us /\ us <> []
      /\ forall u, In u us -> length u = length (lat_tokens lower w))
  /\ (exists u,
        greek_to_uglish lower w = Ok [u] /\ length u = length (greek_tokens lower w)).
Proof.
  split.
  - destruct (lish_to_uglish_returns lower w) as [us Hus]. exists us.
    split; [exact Hus|]. split.
    + unfold lish_to_uglish in Hus. rewrite replace_lat_accent in Hus.
      cbn [mbind M_bind] in Hus. rewrite replace_list_single in Hus.
      apply bind_Ok in Hus as (us' & Hus & [= <-]). apply bind_Ok in Hus as (r & Hr & [= <-]).
      destruct (make_dictionary_from_strings_nonempty _ _ _
                  (proj2 (proj2 (proj2 tables_built)))) as [Hk Hv].
      destruct (replace_returns l2u_dict (map (table_char lat_accent_dictionary) (lower w))
                  Hk Hv) as (l & x & Hl & Hx).
      rewrite Hl in Hr. injection Hr as <-. intros ->. discriminate.
    + intros u Hu. exact (lish_to_uglish_length lower w us u Hus Hu).
  - pose proof (proj2 tables_graphs_nonempty) as Hk.
    set (s := map (table_char greek_accent_dictionary) (lower w)).
    destruct (replace_loop_tokens g2u_dict Hk (length s) s [[]] []) as (toks & Ht & Hr); [lia|].
    destruct (tokenize_loop_tokens (keys g2u_dict) (graphs_nonempty_keys _ Hk) (length s) s [])
      as (toks' & Ht' & _ & Hall); [lia|].
    rewrite Ht in Ht'. injection Ht' as <-.
    assert (replace s g2u_dict = Ok [concat (map (token_alternatives g2u_dict) toks)]) as Hs.
    { unfold replace. rewrite Hr, (fold_fan_out_single g2u_dict toks []); [reflexivity|].
      apply single_valued_tokens; [exact g2u_single_valued | exact Hall]. }
    subst s.
    assert (greek_to_uglish lower w
            = Ok [concat (map (token_alternatives g2u_dict) toks)]) as Hg.
    { unfold greek_to_uglish. rewrite replace_greek_accent. cbn [mbind M_bind].
      rewrite replace_list_single, Hs. reflexivity. }
    eexists. split; [exact Hg|].
    apply (greek_to_uglish_length lower w _ _ Hg). left. reflexivity.
Qed.

(** ** Accent stripping and the classification of words *)

Lemma graph_start_key (d : dict) (c : Z) (k : str) :
  In (c :: k) (keys d) -> graph_start d c = true.
Proof.
  intros H. unfold graph_start. apply existsb_exists. exists (c :: k).
  split; [exact H | apply Z.eqb_refl].
Qed.

Lemma char_table_stripped (d : dict) (c : Z) :
  char_table d ->
  List.Forall (fun kv : str * str =>
                 match kv.2 with
                 | v0 :: _ => graph_start d v0 = false
                 | [] => False
                 end) d ->
  graph_start d (table_char d c) = false.
Proof.
  intros Hd Hv. unfold table_char. destruct (dict_get d [c]) as [v|e|] eqn:Hg.
  - apply dict_get_In in Hg. rewrite List.Forall_forall in Hv. specialize (Hv _ Hg).
    simpl in Hv. destruct v as [|v0 v']; [contradiction | exact Hv].
  - destruct (graph_start d c) eqn:Hs; [|reflexivity].
    unfold graph_start in Hs. apply existsb_exists in Hs as (k & Hk & Hk0).
    assert (length k = 1%nat) as Hl.
    { unfold keys in Hk. apply in_map_iff in Hk as ([k' v'] & <- & Hin).
      unfold char_table in Hd. rewrite List.Forall_forall in Hd. apply (Hd _ Hin). }
    destruct k as [|k0 [|]]; try discriminate. apply Z.eqb_eq in Hk0. subst k0.
    apply dict_get_keys in Hk as [v Hv']. congruence.
  - destruct (dict_get_returns _ _ Hg).
Qed.

Lemma accent_tables_stripped (c : Z) :
  graph_start greek_accent_dictionary (table_char greek_accent_dictionary c) = false
  /\ graph_start lat_accent_dictionary (table_char lat_accent_dictionary c) = false.
Proof.
  split; apply char_table_stripped; try apply accent_tables_char; repeat constructor.
Qed.

Lemma strip_table (d : dict) (s : str) :
  char_table d ->
  (forall c, graph_start d (table_char d c) = false) ->
  let t := map (table_char d) s in
  replace s d = Ok [t] /\ length t = length s /\ replace t d = Ok [t]
  /\ (forall c, In c t -> ~ In [c] (keys d))
  /\ (forall i c, s !! i = Some c -> ~ In [c] (keys d) -> t !! i = Some c).
Proof.
  intros Hd Hs t. split; [apply replace_char_table, Hd|]. split; [apply length_map|].
  assert (forall c, In c t -> graph_start d c = false) as Ht.
  { intros c Hc. apply in_map_iff in Hc as (c0 & <- & _). apply Hs. }
  split; [apply replace_fixed, Ht|]. split.
  - intros c Hc Hk. apply graph_start_key in Hk. rewrite (Ht c Hc) in Hk. discriminate.
  - intros i c Hi Hk. unfold t. rewrite list_lookup_fmap, Hi. cbn [fmap option_fmap option_map].
    f_equal. unfold table_char. destruct (dict_get d [c]) as [v|e|] eqn:Hg; try reflexivity.
    apply dict_get_In in Hg. apply (in_map fst) in Hg. contradiction.
Qed.

(** X4: stripping the accents of a string with either accent table
    returns one string, of the length of the input, in which no accented
    letter of the table is left and every other character is where it
    was; stripping it again returns it unchanged. *)
Theorem accent_stripping (s : str) (d : dict) :
  d = greek_accent_dictionary \/ d = lat_accent_dictionary ->
  exists t,
    replace s d = Ok [t] /\ length t = length s /\ replace t d = Ok [t]
    /\ (forall c, In c t -> ~ In [c] (keys d))
    /\ (forall i c, s !! i = Some c -> ~ In [c] (keys d) -> t !! i = Some c).
Proof.
  intros Hd. exists (map (table_char d) s).
  destruct Hd as [-> | ->]; apply strip_table;
    try apply accent_tables_char; intros c; apply accent_tables_stripped.
Qed.

Lemma accent_stripping_witness :
  exists t,
    replace (u8 "γλώσσα") greek_accent_dictionary = Ok [t]
    /\ length t = length (u8 "γλώσσα")
    /\ replace t greek_accent_dictionary = Ok [t].
Proof.
  destruct (accent_stripping (u8 "γλώσσα") greek_accent_dictionary)
    as (t & H1 & H2 & H3 & _); [left; reflexivity|].
  exists t. split; [exact H1|]. split; [exact H2 | exact H3].
Defined.

Lemma is_greek_letter_spec (c : Z) :
  is_greek_letter [c] = true <-> In c greek_alphabet /\ c <> 32.
Proof.
  unfold is_greek_letter. fold greek_alphabet.
  rewrite <- str_in_single.
  destruct (str_in [c] greek_alphabet); cbn [andb].
  - case_bool_decide as Hc; cbn [negb].
    + injection Hc as ->. split; [discriminate | intros [_ H]; destruct H; reflexivity].
    + split; [intros _; split; [reflexivity|] | reflexivity].
      intros ->. apply Hc. reflexivity.
  - split; [discriminate | intros [H _]; discriminate].
Qed.

(** A Greek accented letter and its unaccented form are both Greek letters
    and both no Latin letters. *)
Lemma greek_accent_class (c : Z) :
  is_greek_letter [table_char greek_accent_dictionary c] = is_greek_letter [c]
  /\ is_latin_letter [table_char greek_accent_dictionary c] = is_latin_letter [c].
Proof.
  unfold table_char.
  destruct (dict_get greek_accent_dictionary [c]) as [v|e|] eqn:Hg; try (split; reflexivity).
  apply dict_get_In in Hg.
  assert (List.Forall (fun kv : str * str =>
                         match kv.1, kv.2 with
                         | [k0], v0 :: _ =>
                           is_greek_letter [v0] = is_greek_letter [k0]
                           /\ is_latin_letter [v0] = is_latin_letter [k0]
                         | _, _ => False
                         end) greek_accent_dictionary) as Ht
    by (repeat constructor).
  rewrite List.Forall_forall in Ht. specialize (Ht _ Hg). simpl in Ht.
  destruct v as [|v0 v']; [contradiction | exact Ht].
Qed.

Lemma forallb_map_ext {A B} (f : B -> bool) (g : A -> bool) (h : A -> B) (l : list A) :
  (forall x, f (h x) = g x) -> forallb f (map h l) = forallb g l.
Proof.
  intros H. induction l as [|x l IH]; simpl; [reflexivity|]. rewrite H, IH. reflexivity.
Qed.

Lemma greek_not_latin (c : Z) : is_greek_letter [c] = true -> is_latin_letter [c] = false.
Proof.
  intros H. apply is_greek_letter_spec in H as [Hin Hc].
  assert (forallb (fun c => (c =? 32) || negb (is_latin_letter [c])) greek_alphabet = true)
    as Hall by (vm_compute; reflexivity).
  rewrite forallb_forall in Hall. specialize (Hall c Hin).
  apply orb_true_iff in Hall as [H | H]; [apply Z.eqb_eq in H; contradiction|].
  apply negb_true_iff, H.
Qed.

Section Words.

Variable lower : str -> str.

Lemma is_greek_value (w : str) :
  is_greek lower w = Ok (forallb (fun c => is_greek_letter [c]) (lower w)).
Proof.
  unfold is_greek. rewrite replace_greek_accent. cbn [mbind M_bind getitem lookup list_lookup].
  f_equal. apply forallb_map_ext. intros c. apply greek_accent_class.
Qed.

Lemma is_latin_value (w : str) :
  is_latin lower w = Ok (forallb (fun c => is_latin_letter [c]) (lower w)).
Proof.
  unfold is_latin. rewrite replace_greek_accent. cbn [mbind M_bind getitem lookup list_lookup].
  f_equal. apply forallb_map_ext. intros c. apply greek_accent_class.
Qed.

(** X5: the accent stripping of [is_greek] and [is_latin] (both strip the
    Greek accents) does not change their verdict: [is_greek] holds of a word
    exactly when every character of its lowercase form is in the Greek
    alphabet, accented letters included, and [is_latin] exactly when every
    one is in the Latin alphabet, accented letters included; neither
    raises. *)
Theorem is_greek_is_latin_letters (w : str) :
  is_greek lower w = Ok (forallb (fun c => is_greek_letter [c]) (lower w))
  /\ is_latin lower w = Ok (forallb (fun c => is_latin_letter [c]) (lower w))
  /\ (is_greek lower w = Ok true
      <-> forall c, In c (lower w) -> In c greek_alphabet /\ c <> 32)
  /\ (is_latin lower w = Ok true
      <-> forall c, In c (lower w) -> In c latin_alphabet /\ c <> 32).
Proof.
  split; [apply is_greek_value|]. split; [apply is_latin_value|]. split.
  - rewrite is_greek_value. split.
    + intros [= H]. rewrite forallb_forall in H. intros c Hc.
      apply is_greek_letter_spec, H, Hc.
    + intros H. f_equal. apply forallb_forall. intros c Hc.
      apply is_greek_letter_spec, H, Hc.
  - rewrite is_latin_value. split.
    + intros [= H]. rewrite forallb_forall in H. intros c Hc.
      apply is_latin_letter_spec, H, Hc.
    + intros H. f_equal. apply forallb_forall. intros c Hc.
      apply is_latin_letter_spec, H, Hc.
Qed.

(** X6: no word is both Greek and Latin, unless its lowercase form is
    empty: the empty word is both. *)
Theorem is_greek_is_latin_exclusive (w : str) :
  (lower w <> [] -> is_greek lower w = Ok true -> is_latin lower w = Ok false)
  /\ (lower w <> [] -> is_latin lower w = Ok true -> is_greek lower w = Ok false)
  /\ (lower w = [] -> is_greek lower w = Ok true /\ is_latin lower w = Ok true).
Proof.
  rewrite is_greek_value, is_latin_value.
  destruct (lower w) as [|c s] eqn:Hw.
  - repeat split; intros; congruence.
  - cbn [forallb]. split; [|split].
    + intros _ [= H]. apply andb_true_iff in H as [Hc _].
      rewrite (greek_not_latin c Hc). reflexivity.
    + intros _ [= H]. apply andb_true_iff in H as [Hc _].
      destruct (is_greek_letter [c]) eqn:Hg; [|reflexivity].
      rewrite (greek_not_latin c Hg) in Hc. discriminate.
    + discriminate.
Qed.

End Words.

Lemma is_greek_is_latin_exclusive_witness :
  is_latin lower_model (u8 "Καλημέρα") = Ok false
  /\ is_greek lower_model (u8 "kalimera") = Ok false
  /\ is_greek lower_model [] = Ok true /\ is_latin lower_model [] = Ok true.
Proof.
  destruct (is_greek_is_latin_exclusive lower_model (u8 "Καλημέρα")) as (H1 & _ & _).
  destruct (is_greek_is_latin_exclusive lower_model (u8 "kalimera")) as (_ & H2 & _).
  destruct (is_greek_is_latin_exclusive lower_model []) as (_ & _ & H3).
  split; [apply H1; [discriminate | vm_compute; reflexivity]|].
  split; [apply H2; [discriminate | vm_compute; reflexivity]|].
  apply H3. reflexivity.
Defined.

Lemma is_greek_is_latin_letters_witness :
  is_greek lower_model (u8 "Ώρα") = Ok true.
Proof.
  apply (proj1 (proj2 (proj2 (is_greek_is_latin_letters lower_model (u8 "Ώρα"))))).
  intros c Hc. vm_compute in Hc. destruct Hc as [<- | [<- | [<- | []]]];
    (split; [vm_compute; tauto | discriminate]).
Defined.

Lemma canonical_forms_length_witness :
  length (u8 "bx") = length (lat_tokens lower_model (u8 "mph")).
Proof.
  destruct (canonical_forms_length lower_model (u8 "mph")) as ((us & Hus & _ & Hlen) & _).
  apply Hlen. vm_compute in Hus. injection Hus as <-. left. reflexivity.
Defined.

(** ** Building a table *)

Lemma dict_set_fresh (d : dict) (k v : str) :
  ~ In k (keys d) -> dict_set d k v = d ++ [(k, v)].
Proof.
  induction d as [|[k' v'] d IH]; intros H; simpl; [reflexivity|].
  case_bool_decide as Hk; [subst; destruct H; left; reflexivity|].
  rewrite IH; [reflexivity|]. intros Hin. apply H. right. exact Hin.
Qed.

Lemma make_dictionary_loop (replace_list : list str) (orig_list : list str) :
  forall (k : nat) (d : dict), (k <= length replace_list)%nat ->
  for_loop (fun output_dict '(i, l) =>
              r ← getitem replace_list i; Ok (dict_set output_dict l r))
           (zip (seq k (length orig_list)) orig_list) d
  = if (k + length orig_list <=? length replace_list)%nat
    then Ok (fold_left (fun d '(l, r) => dict_set d l r)
               (zip orig_list (drop k replace_list)) d)
    else Raise IndexError.
Proof.
  induction orig_list as [|l orig_list IH]; intros k d Hk.
  - cbn [length seq zip_with for_loop fold_left]. rewrite Nat.add_0_r.
    rewrite (proj2 (Nat.leb_le _ _) Hk). reflexivity.
  - cbn [length seq zip_with for_loop].
    destruct (replace_list !! k) as [r|] eqn:Hr.
    + rewrite (getitem_Some _ _ _ Hr). cbn [mbind M_bind].
      pose proof (lookup_lt_Some _ _ _ Hr) as Hlt.
      rewrite IH by lia. rewrite (drop_S _ _ _ Hr). cbn [zip_with fold_left].
      replace (S k + length orig_list)%nat with (k + S (length orig_list))%nat by lia.
      reflexivity.
    + unfold getitem. rewrite Hr. cbn [mbind M_bind].
      apply lookup_ge_None in Hr.
      rewrite (proj2 (Nat.leb_gt _ _)) by lia. reflexivity.
Qed.

Lemma fold_dict_set_fresh (pairs : list (str * str)) (d : dict) :
  NoDup (keys d ++ map fst pairs) ->
  fold_left (fun d '(l, r) => dict_set d l r) pairs d = d ++ pairs.
Proof.
  revert d. induction pairs as [|[l r] pairs IH]; intros d Hnd.
  - simpl. rewrite app_nil_r. reflexivity.
  - cbn [fold_left]. rewrite dict_set_fresh.
    + rewrite IH; [rewrite <- app_assoc; reflexivity|].
      unfold keys in *. rewrite map_app. cbn [map fst app]. rewrite <- app_assoc. exact Hnd.
    + apply NoDup_app in Hnd as (_ & Hdis & _). intros Hin.
      apply (Hdis l); [apply list_elem_of_In, Hin | left].
Qed.

(** X7: [make_dictionary_from_strings] raises [IndexError] exactly when
    the replacement string has fewer words than the original string; for
    distinct original words it otherwise returns the table that pairs the
    words of the two strings in order, surplus replacement words being
    ignored, so that the [i]-th original word is mapped to the [i]-th
    replacement word. *)
Theorem make_dictionary_from_strings_zip (original_string replace_string : str) :
  ((length (split replace_string) < length (split original_string))%nat ->
   make_dictionary_from_strings original_string replace_string = Raise IndexError)
  /\ ((length (split original_string) <= length (split replace_string))%nat ->
      exists d, make_dictionary_from_strings original_string replace_string = Ok d)
  /\ ((length (split original_string) <= length (split replace_string))%nat ->
      NoDup (split original_string) ->
      make_dictionary_from_strings original_string replace_string
      = Ok (zip (split original_string) (split replace_string))
      /\ forall i l r,
           split original_string !! i = Some l -> split replace_string !! i = Some r ->
           dict_get (zip (split original_string) (split replace_string)) l = Ok r).
Proof.
  unfold make_dictionary_from_strings, enumerate.
  rewrite make_dictionary_loop by lia. cbn [Nat.add]. rewrite drop_0.
  split; [|split].
  - intros H. rewrite (proj2 (Nat.leb_gt _ _)) by lia. reflexivity.
  - intros H. rewrite (proj2 (Nat.leb_le _ _) H). eexists. reflexivity.
  - intros H Hnd. rewrite (proj2 (Nat.leb_le _ _) H).
    assert (fold_left (fun d '(l, r) => dict_set d l r)
              (zip (split original_string) (split replace_string)) []
            = zip (split original_string) (split replace_string)) as Hz.
    { rewrite fold_dict_set_fresh; [reflexivity|]. cbn [keys map app].
      rewrite fst_zip by exact H. exact Hnd. }
    rewrite Hz. split; [reflexivity|].
    intros i l r Hl Hr. revert i H Hl Hr Hnd.
    generalize (split replace_string) as rs. generalize (split original_string) as ls.
    induction ls as [|l0 ls IH]; intros rs i H Hl Hr Hnd; [rewrite lookup_nil in Hl; discriminate|].
    destruct rs as [|r0 rs]; [simpl in H; lia|]. cbn [zip_with dict_get].
    destruct i as [|i].
    + injection Hl as ->. injection Hr as ->.
      rewrite bool_decide_eq_true_2 by reflexivity. reflexivity.
    + cbn [lookup list_lookup] in Hl, Hr. apply NoDup_cons in Hnd as [Hnot Hnd].
      rewrite bool_decide_eq_false_2.
      * apply (IH rs i); [simpl in H; lia | exact Hl | exact Hr | exact Hnd].
      * intros ->. apply Hnot. eapply list_elem_of_lookup_2, Hl.
Qed.

Lemma make_dictionary_from_strings_zip_witness :
  make_dictionary_from_strings (u8 "ά έ ή") (u8 "α ε") = Raise IndexError
  /\ make_dictionary_from_strings (u8 "ά έ") (u8 "α ε η")
     = Ok (zip (split (u8 "ά έ")) (split (u8 "α ε η"))).
Proof.
  split.
  - apply (proj1 (make_dictionary_from_strings_zip (u8 "ά έ ή") (u8 "α ε"))).
    vm_compute. lia.
  - apply (proj2 (proj2 (make_dictionary_from_strings_zip (u8 "ά έ") (u8 "α ε η")))).
    + vm_compute. lia.
    + apply (bool_decide_eq_true_1 _). vm_compute. reflexivity.
Defined.

(** ** The positions of the accents *)

Lemma accent_mark_iff (c : Z) :
  accent_mark c = true <-> In c greek_accented \/ In c lat_accented.
Proof. unfold accent_mark. rewrite orb_true_iff, !str_in_single. reflexivity. Qed.

Lemma find_accent_from (s : str) (k : nat) :
  let positions :=
    flat_map (fun '(pos, l) =>
                if str_in [l] greek_accented || str_in [l] lat_accented then [pos] else [])
             (zip (seq k (length s)) s) in
  (forall i, In i positions
             <-> (k <= i)%nat /\ exists c, s !! (i - k)%nat = Some c /\ accent_mark c = true)
  /\ StronglySorted lt positions.
Proof.
  revert k. induction s as [|c s IH]; intros k.
  - cbn. split; [|constructor]. intros i. split; [contradiction|].
    intros (_ & c & Hc & _). discriminate.
  - cbn [length seq zip_with flat_map].
    change (str_in [c] greek_accented || str_in [c] lat_accented) with (accent_mark c).
    destruct (IH (S k)) as [Hin Hs]. cbv zeta in Hin, Hs.
    set (rest := flat_map _ (zip (seq (S k) (length s)) s)) in *.
    assert (forall i, In i rest -> (k < i)%nat) as Hlt by (intros i Hi; apply Hin in Hi; lia).
    split.
    + intros i. rewrite in_app_iff, Hin. split.
      * intros [Hi | (Hle & c' & Hc' & Ha)].
        -- destruct (accent_mark c) eqn:Hc; [|contradiction]. destruct Hi as [<- | []].
           split; [lia|]. exists c. rewrite Nat.sub_diag. split; [reflexivity | exact Hc].
        -- split; [lia|]. exists c'. replace (i - k)%nat with (S (i - S k)) by lia.
           split; [exact Hc' | exact Ha].
      * intros (Hle & c' & Hc' & Ha). destruct (decide (i = k)) as [-> | Hne].
        -- left. rewrite Nat.sub_diag in Hc'. injection Hc' as ->. rewrite Ha. left. reflexivity.
        -- right. split; [lia|]. exists c'.
           replace (i - k)%nat with (S (i - S k)) in Hc' by lia. split; [exact Hc' | exact Ha].
    + destruct (accent_mark c); cbn [app]; [|exact Hs].
      constructor; [exact Hs|]. apply List.Forall_forall. exact Hlt.
Qed.

(** X8: [find_accent] returns, in increasing order and each once, exactly
    the positions of the string that hold a character of [greek_accented]
    or [lat_accented]. *)
Theorem find_accent_positions (s : str) :
  (forall i, In i (find_accent s)
             <-> exists c, s !! i = Some c /\ (In c greek_accented \/ In c lat_accented))
  /\ StronglySorted lt (find_accent s).
Proof.
  destruct (find_accent_from s 0) as [Hin Hs]. split; [|exact Hs].
  intros i. unfold find_accent, enumerate. rewrite (Hin i), Nat.sub_0_r. split.
  - intros (_ & c & Hc & Ha). exists c. split; [exact Hc | apply accent_mark_iff, Ha].
  - intros (c & Hc & Ha). split; [lia|]. exists c. split; [exact Hc | apply accent_mark_iff, Ha].
Qed.

Lemma find_accent_positions_witness : In 2%nat (find_accent (u8 "γλώσσα")).
Proof.
  apply (proj1 (find_accent_positions (u8 "γλώσσα"))). exists 974.
  split; [reflexivity|]. left. vm_compute. tauto.
Defined.

(** ** [sort_possibilities_by] on lists of different lengths *)

Lemma for_each_raise {A B} (f : A -> M B) (e : exn) (l : list A) (x : A) :
  In x l -> f x = Raise e ->
  (forall y, In y l -> f y = Raise e \/ exists b, f y = Ok b) ->
  for_each f l = Raise e.
Proof.
  induction l as [|y l IH]; intros Hin Hx Hall; [contradiction|]. cbn [for_each].
  destruct (Hall y (or_introl eq_refl)) as [-> | [b Hb]]; [reflexivity|].
  rewrite Hb. cbn [mbind M_bind].
  destruct Hin as [-> | Hin]; [congruence|].
  rewrite IH; [reflexivity | exact Hin | exact Hx |].
  intros z Hz. apply Hall. right. exact Hz.
Qed.

Lemma zip_seq_zip {A B} (m : list A) (p : list B) (k : nat) :
  (length m <= length p)%nat ->
  map (fun t : nat * (A * B) => (t.1, t.2.1)) (zip (seq k (length m)) (zip m p))
  = zip (seq k (length m)) m
  /\ map snd (zip (seq k (length m)) (zip m p)) = zip m p
  /\ forall t, In t (zip (seq k (length m)) (zip m p)) ->
               (k <= t.1)%nat /\ p !! (t.1 - k)%nat = Some t.2.2.
Proof.
  revert p k. induction m as [|x m IH]; intros p k Hlen.
  - cbn. repeat split; contradiction.
  - destruct p as [|y p]; [simpl in Hlen; lia|]. cbn [length seq zip_with map].
    destruct (IH p (S k)) as (H1 & H2 & H3); [simpl in Hlen; lia|].
    rewrite H1, H2. split; [reflexivity|]. split; [reflexivity|].
    intros t [<- | Ht]; cbn [fst snd].
    + split; [lia|]. rewrite Nat.sub_diag. reflexivity.
    + destruct (H3 t Ht) as [Hle Hl]. split; [lia|].
      replace (t.1 - k)%nat with (S (t.1 - S k)) by lia. exact Hl.
Qed.

(** X9: [sort_possibilities_by] pairs the metrics with the possibilities
    in order.  With no more metrics than possibilities it returns the
    possibilities that have a metric, stably sorted by it, and silently
    drops the others; with more metrics than possibilities it raises
    [IndexError]. *)
Theorem sort_possibilities_by_lengths (possibilities : list str) (metric_list : list Z) :
  ((length metric_list <= length possibilities)%nat ->
   sort_possibilities_by possibilities metric_list
   = Ok (map snd (sorted fst (zip metric_list possibilities))))
  /\ ((length possibilities < length metric_list)%nat ->
      sort_possibilities_by possibilities metric_list = Raise IndexError).
Proof.
  unfold sort_possibilities_by, enumerate. split.
  - intros Hlen.
    destruct (zip_seq_zip metric_list possibilities 0 Hlen) as (H1 & H2 & H3).
    set (T := zip (seq 0 (length metric_list)) (zip metric_list possibilities)) in *.
    rewrite <- H1, <- H2.
    rewrite <- (sorted_map (fun t : nat * (Z * str) => (t.1, t.2.1))
                 (fun t => t.2.1) snd) by reflexivity.
    rewrite <- (sorted_map snd (fun t : nat * (Z * str) => t.2.1) fst) by reflexivity.
    assert (forall t, In t (sorted (fun t : nat * (Z * str) => t.2.1) T) ->
                      possibilities !! t.1 = Some t.2.2) as Hl.
    { intros t Ht. apply (Permutation_in _ (sorted_Permutation _ T)) in Ht.
      destruct (H3 t Ht) as [_ H]. rewrite Nat.sub_0_r in H. exact H. }
    revert Hl. generalize (sorted (fun t : nat * (Z * str) => t.2.1) T). intros l Hl.
    rewrite !map_map. cbn [fst snd].
    induction l as [|t l IH]; [reflexivity|]. cbn [map for_each].
    rewrite (getitem_Some _ _ _ (Hl t (or_introl eq_refl))). cbn [mbind M_bind].
    rewrite IH by (intros t' Ht'; apply Hl; right; exact Ht'). reflexivity.
  - intros Hlen. apply (for_each_raise _ IndexError _ (length possibilities)).
    + assert (In (length possibilities) (seq 0 (length metric_list))) as Hin
        by (apply in_seq; lia).
      rewrite <- (fst_zip (seq 0 (length metric_list)) metric_list) in Hin
        by (rewrite length_seq; lia).
      apply in_map_iff in Hin as (t & Ht & Hin). apply in_map_iff. exists t.
      split; [exact Ht|]. eapply Permutation_in; [symmetry; apply sorted_Permutation | exact Hin].
    + unfold getitem. rewrite (proj2 (lookup_ge_None _ _)) by lia. reflexivity.
    + intros i _. unfold getitem. destruct (possibilities !! i); [right; eauto | left; reflexivity].
Qed.

Lemma sort_possibilities_by_lengths_witness :
  sort_possibilities_by [u8 "α"; u8 "β"; u8 "γ"] [5; 3] = Ok [u8 "β"; u8 "α"]
  /\ sort_possibilities_by [u8 "α"] [5; 3] = Raise IndexError.
Proof.
  split.
  - apply (proj1 (sort_possibilities_by_lengths [u8 "α"; u8 "β"; u8 "γ"] [5; 3])).
    simpl. lia.
  - apply (proj2 (sort_possibilities_by_lengths [u8 "α"] [5; 3])). simpl. lia.
Defined.

(** ** The earlier transducer *)

Lemma take_startswith (s g : str) :
  bool_decide (take (length g) s = g) = startswith s g.
Proof.
  destruct (startswith s g) eqn:Hs.
  - apply bool_decide_eq_true_2. apply startswith_app in Hs as [rest ->].
    apply take_app_length.
  - apply bool_decide_eq_false_2. intros H.
    assert (startswith s g = true) as Hs'; [|congruence].
    apply startswith_app. exists (drop (length g) s).
    rewrite <- H at 1. symmetry. apply take_drop.
Qed.

Lemma underscore_free_keys (d : dict) (g : str) :
  underscore_free d -> In g (keys d) -> exists c g', g = c :: g' /\ c <> 95.
Proof.
  intros Hd Hg. unfold keys in Hg. apply in_map_iff in Hg as (kv & <- & Hin).
  unfold underscore_free in Hd. rewrite List.Forall_forall in Hd. apply (Hd _ Hin).
Qed.

Lemma underscore_free_nonempty (d : dict) : underscore_free d -> graphs_nonempty d.
Proof.
  unfold underscore_free, graphs_nonempty. apply List.Forall_impl.
  intros kv [(c & g & -> & _) _]. discriminate.
Qed.

Lemma find_underscore (ks : list str) (s : str) :
  (forall g, In g ks -> exists c g', g = c :: g' /\ c <> 95) ->
  find (startswith (95 :: s)) ks = None.
Proof.
  intros H. induction ks as [|k ks IH]; [reflexivity|]. cbn [find].
  destruct (H k (or_introl eq_refl)) as (c & g' & -> & Hc). cbn [startswith].
  destruct (Z.eqb_spec 95 c); [congruence|]. cbn [andb].
  apply IH. intros g Hg. apply H. right. exact Hg.
Qed.

Lemma replace_old_graph_at (d : dict) (P X : str) (s_out : list str) (made : bool)
    (k : str) :
  replace_old_graph (length P) d (made, P ++ X, s_out) k
  = if startswith X k
    then v ← dict_get d k;
         Ok (true, P ++ repeat 95 (length k) ++ drop (length k) X, fan_out s_out v)
    else Ok (made, P ++ X, s_out).
Proof.
  unfold replace_old_graph. rewrite drop_app_length, take_startswith.
  destruct (startswith X k); [|reflexivity].
  rewrite take_app_length, drop_app_add' by reflexivity. reflexivity.
Qed.

Lemma replace_old_graphs (d : dict) (P : str) (ks : list str) :
  (forall g, In g ks -> exists c g', g = c :: g' /\ c <> 95) ->
  (forall g, In g ks -> exists v, dict_get d g = Ok v) ->
  forall (X : str) (s_out : list str) (made : bool),
  for_loop (replace_old_graph (length P) d) ks (made, P ++ X, s_out)
  = match find (startswith X) ks with
    | Some g =>
      Ok (true, P ++ repeat 95 (length g) ++ drop (length g) X,
          fan_out s_out (token_alternatives d g))
    | None => Ok (made, P ++ X, s_out)
    end.
Proof.
  induction ks as [|k ks IH]; intros Hh Hg X s_out made; [reflexivity|].
  cbn [for_loop find]. rewrite replace_old_graph_at.
  assert (forall g, In g ks -> exists c g', g = c :: g' /\ c <> 95) as Hh'
    by (intros g Hin; apply Hh; right; exact Hin).
  assert (forall g, In g ks -> exists v, dict_get d g = Ok v) as Hg'
    by (intros g Hin; apply Hg; right; exact Hin).
  destruct (startswith X k) eqn:Hs.
  - destruct (Hg k (or_introl eq_refl)) as [v Hv]. rewrite Hv. cbn [mbind M_bind].
    rewrite (IH Hh' Hg').
    destruct (Hh k (or_introl eq_refl)) as (c & g' & -> & _).
    cbn [length repeat app]. rewrite (find_underscore ks _ Hh').
    unfold token_alternatives. rewrite Hv. reflexivity.
  - cbn [mbind M_bind]. apply (IH Hh' Hg').
Qed.

Lemma replace_old_position_at (d : dict) (P X : str) (s_out : list str) :
  underscore_free d ->
  replace_old_position d (P ++ X, s_out) (length P)
  = match find (startswith X) (keys d) with
    | Some g =>
      Ok (P ++ repeat 95 (length g) ++ drop (length g) X,
          fan_out s_out (token_alternatives d g))
    | None =>
      match X with
      | [] => Raise IndexError
      | c :: _ =>
        if c =? 95 then Ok (P ++ X, s_out)
        else Ok (P ++ X, map (fun string => string ++ [c]) s_out)
      end
    end.
Proof.
  intros Hd. unfold replace_old_position.
  rewrite replace_old_graphs;
    [| intros g Hg; exact (underscore_free_keys d g Hd Hg) | apply dict_get_keys].
  destruct (find (startswith X) (keys d)) as [g|]; cbn [mbind M_bind negb]; [reflexivity|].
  unfold getitem. rewrite lookup_app_r, Nat.sub_diag by lia.
  destruct X as [|c X]; cbn [lookup list_lookup mbind M_bind]; [reflexivity|].
  destruct (c =? 95); reflexivity.
Qed.

Lemma without_underscores_snoc (s : str) (c : Z) :
  without_underscores (s ++ [c])
  = without_underscores s ++ (if c =? 95 then [] else [c]).
Proof.
  unfold without_underscores. rewrite filter_app. f_equal.
  destruct (Z.eqb_spec c 95) as [-> | Hc].
  - rewrite filter_cons_False by (intros H; apply H; reflexivity). reflexivity.
  - rewrite filter_cons_True by exact Hc. reflexivity.
Qed.

Lemma without_underscores_fan_out (s_out : list str) (v : str) :
  ~ In 95 v ->
  fan_out (map without_underscores s_out) v = map without_underscores (fan_out s_out v).
Proof.
  unfold fan_out. induction v as [|a v IH]; intros Hv; [reflexivity|].
  cbn [flat_map]. rewrite map_app, IH by (intros H; apply Hv; right; exact H). f_equal.
  rewrite !map_map. apply map_ext. intros s. rewrite without_underscores_snoc.
  destruct (Z.eqb_spec a 95) as [-> | _]; [destruct Hv; left; reflexivity | reflexivity].
Qed.

Lemma replace_old_loop (d : dict) :
  underscore_free d ->
  forall (n k : nat) (R P : str) (s_out : list str) (fuel : nat) (l : list str),
  n = (k + length R)%nat -> (length R <= fuel)%nat ->
  replace_loop fuel d R s_out = Ok l ->
  exists s_in',
    for_loop (replace_old_position d) (seq (length P) n)
      (P ++ repeat 95 k ++ R, map without_underscores s_out)
    = Ok (s_in', map without_underscores l).
Proof.
  intros Hd. induction n as [|n IH]; intros k R P o fuel l Hn Hfuel Hl.
  - destruct k; [|discriminate]. destruct R; [|discriminate].
    destruct fuel; injection Hl as <-; eexists; reflexivity.
  - cbn [seq for_loop].
    assert (forall c : Z, S (length P) = length (P ++ [c])) as HS
      by (intros c; rewrite length_app; simpl; lia).
    assert (forall (c : Z) (Y : str), P ++ c :: Y = (P ++ [c]) ++ Y) as Hmid
      by (intros c Y; rewrite <- app_assoc; reflexivity).
    destruct k as [|k].
    + destruct R as [|c R]; [discriminate|]. destruct fuel as [|fuel]; [simpl in Hfuel; lia|].
      cbn [repeat app]. rewrite (replace_old_position_at d P (c :: R)) by exact Hd.
      cbn [replace_loop] in Hl.
      destruct (find (startswith (c :: R)) (keys d)) as [g|] eqn:Hf.
      * pose proof (find_graph_shorter _ _ _ (underscore_free_nonempty d Hd) Hf) as Hsh.
        destruct (find_keys_get _ _ _ Hf) as (v & Hv & Hin).
        rewrite Hv in Hl. cbn [mbind M_bind] in Hl. fold (fan_out o v) in Hl.
        unfold token_alternatives. rewrite Hv.
        assert (~ In 95 v) as Hnv.
        { unfold underscore_free in Hd. rewrite List.Forall_forall in Hd.
          apply (Hd _ Hin). }
        rewrite without_underscores_fan_out by exact Hnv.
        apply find_some in Hf as [Hk Hs]. apply startswith_drop in Hs.
        assert (length (c :: R) = (length g + length (drop (length g) (c :: R)))%nat) as Hlen
          by (rewrite Hs at 1; apply length_app).
        destruct (underscore_free_keys d g Hd Hk) as (c' & g' & -> & _).
        cbn [length repeat app] in *. cbn [mbind M_bind].
        rewrite (Hmid 95), (HS 95).
        apply (IH (length g') _ (P ++ [95]) _ fuel l); [lia | lia | exact Hl].
      * cbn [mbind M_bind]. destruct (Z.eqb_spec c 95) as [-> | Hc].
        -- rewrite (Hmid 95), (HS 95).
           replace (map without_underscores o)
             with (map without_underscores (map (fun string => string ++ [95]) o)).
           ++ apply (IH 0%nat R (P ++ [95]) _ fuel l); [simpl in *; lia | simpl in *; lia | exact Hl].
           ++ rewrite map_map. apply map_ext. intros s.
              rewrite without_underscores_snoc. cbn. apply app_nil_r.
        -- rewrite (Hmid c), (HS c).
           replace (map (fun string => string ++ [c]) (map without_underscores o))
             with (map without_underscores (map (fun string => string ++ [c]) o)).
           ++ apply (IH 0%nat R (P ++ [c]) _ fuel l); [simpl in *; lia | simpl in *; lia | exact Hl].
           ++ rewrite !map_map. apply map_ext. intros s.
              rewrite without_underscores_snoc.
              destruct (Z.eqb_spec c 95); [contradiction | reflexivity].
    + cbn [repeat app]. rewrite (replace_old_position_at d P (95 :: repeat 95 k ++ R)) by exact Hd.
      rewrite find_underscore by (intros g Hg; exact (underscore_free_keys d g Hd Hg)).
      cbn [Z.eqb Pos.eqb mbind M_bind]. rewrite (Hmid 95), (HS 95).
      apply (IH k R (P ++ [95]) o fuel l); [lia | exact Hfuel | exact Hl].
Qed.

(** X10: for a table in which no graph is empty or starts with an
    underscore and no alternative is an underscore, as in all tables of the
    module, [replace_old] returns the outputs of [replace] with the
    underscores of the input deleted; on an input without underscore the
    two functions return the same list. *)
Theorem replace_old_replace (s : str) (d : dict) :
  underscore_free d ->
  replace_old s d = (l ← replace s d; Ok (map without_underscores l))
  /\ (~ In 95 s -> replace_old s d = replace s d).
Proof.
  intros Hd.
  destruct (replace_loop_tokens d (underscore_free_nonempty d Hd) (length s) s [[]] [])
    as (toks & _ & Hr); [lia|].
  set (l := fold_left _ toks [[]]) in Hr.
  destruct (replace_old_loop d Hd (length s) 0 s [] [[]] (length s) l eq_refl (le_n _) Hr)
    as (s_in' & Hold).
  assert (replace_old s d = Ok (map without_underscores l)) as Ho.
  { unfold replace_old. cbn [length repeat app map] in Hold.
    change (without_underscores []) with (@nil Z) in Hold.
    rewrite Hold. reflexivity. }
  unfold replace at 1. rewrite Hr. cbn [mbind M_bind]. split; [exact Ho|].
  intros Hs. rewrite Ho. unfold replace. rewrite Hr. f_equal.
  assert (List.Forall (List.Forall (fun c => c <> 95)) l) as Hall.
  { apply (replace_loop_chars (fun c => c <> 95) (fun c => c <> 95) d) with
      (fuel := length s) (s := s) (o := [[]]).
    - intros k v Hin. apply List.Forall_forall. intros c Hc ->.
      unfold underscore_free in Hd. rewrite List.Forall_forall in Hd.
      destruct (Hd _ Hin) as [_ Hv]. exact (Hv Hc).
    - auto.
    - apply List.Forall_forall. intros c Hc ->. exact (Hs Hc).
    - repeat constructor.
    - exact Hr. }
  clear -Hall. induction Hall as [|u l Hu _ IH]; [reflexivity|]. cbn [map]. f_equal; [|exact IH].
  clear -Hu. induction Hu as [|c u Hc _ IH]; [reflexivity|].
  unfold without_underscores in *. rewrite filter_cons_True by exact Hc. f_equal. exact IH.
Qed.

Lemma tables_underscore_free :
  underscore_free greek_accent_dictionary /\ underscore_free lat_accent_dictionary
  /\ underscore_free g2u_dict /\ underscore_free l2u_dict.
Proof.
  repeat split;
    (apply List.Forall_forall; intros kv Hin; apply list_elem_of_In in Hin; revert kv Hin;
     apply Forall_forall;
     repeat (apply Forall_cons; split;
             [split; [eexists _, _; split; [reflexivity | discriminate]
                     | intros H; apply list_elem_of_In in H; revert H;
                       apply (bool_decide_eq_false_1 _); reflexivity]|]);
     apply Forall_nil; exact I).
Qed.

Lemma replace_old_replace_witness :
  replace_old (u8 "kai_mph") l2u_dict
  = (l ← replace (u8 "kai_mph") l2u_dict; Ok (map without_underscores l))
  /\ replace_old (u8 "mph") l2u_dict = replace (u8 "mph") l2u_dict.
Proof.
  split.
  - apply (proj1 (replace_old_replace (u8 "kai_mph") l2u_dict
                    (proj2 (proj2 (proj2 tables_underscore_free))))).
  - apply (proj2 (replace_old_replace (u8 "mph") l2u_dict
                    (proj2 (proj2 (proj2 tables_underscore_free))))).
    intros H. apply list_elem_of_In in H. revert H.
    apply (bool_decide_eq_false_1 _). reflexivity.
Defined.

(** ** Texts that are left as they are *)

Section Text.

Variable lower upper : str -> str.
Variable isupper : str -> bool.
Variable uglish_dict : gmap str (list str).

(** X11: a text none of whose characters is a Latin letter, such as a
    Greek text with its punctuation, is returned unchanged, whatever the
    index holds. *)
Theorem translate_text_no_latin (text : str) :
  forallb (fun c => negb (is_latin_letter (lower [c]))) text = true ->
  translate_text lower upper isupper uglish_dict text = Ok text.
Proof. apply translate_text_separators. Qed.

Lemma guess_no_words (word : str) :
  (forall u, uglish_dict !! u = None \/ uglish_dict !! u = Some []) ->
  (forall c, isupper [c] = true -> upper [c] = [c]) ->
  word <> [] ->
  guess lower upper isupper uglish_dict word = Ok word.
Proof.
  intros Hd Hup Hw. destruct word as [|w0 rest]; [congruence|].
  destruct (lish_to_uglish_returns lower (w0 :: rest)) as [us Hus].
  destruct (sorted_possibilities_none lower uglish_dict (w0 :: rest) us Hus) as [_ Hs];
    [intros u _; apply Hd|].
  rewrite (guess_value lower upper isupper uglish_dict (w0 :: rest) w0 rest [] eq_refl Hs).
  cbv zeta. destruct (isupper [w0]) eqn:Hi; [|reflexivity].
  rewrite (Hup w0 Hi). reflexivity.
Qed.

Lemma translate_from_no_words (text : str) :
  (forall u, uglish_dict !! u = None \/ uglish_dict !! u = Some []) ->
  (forall c, isupper [c] = true -> upper [c] = [c]) ->
  forall word text_out,
  translate_from lower upper isupper uglish_dict text (word, text_out)
  = Ok (text_out ++ word ++ text).
Proof.
  intros Hd Hup. induction text as [|c text IH]; intros word out.
  - unfold translate_from. cbn [for_loop mbind M_bind flush]. rewrite app_nil_r.
    destruct word as [|w0 word]; [rewrite app_nil_r; reflexivity|].
    rewrite (guess_no_words (w0 :: word) Hd Hup) by discriminate. reflexivity.
  - rewrite translate_from_cons. unfold translate_step.
    destruct (negb (is_latin_letter (lower [c]))).
    + destruct word as [|w0 word].
      * cbn [mbind M_bind]. rewrite IH. rewrite <- !app_assoc. reflexivity.
      * rewrite (guess_no_words (w0 :: word) Hd Hup) by discriminate.
        cbn [mbind M_bind]. rewrite IH. rewrite <- !app_assoc. reflexivity.
    + cbn [mbind M_bind]. rewrite IH. rewrite <- !app_assoc. reflexivity.
Qed.

(** X12: with an index that holds no word, every text is returned
    unchanged, capitalised words included (an uppercase letter being its
    own uppercase form). *)
Theorem translate_text_no_words (text : str) :
  (forall u, uglish_dict !! u = None \/ uglish_dict !! u = Some []) ->
  (forall c, isupper [c] = true -> upper [c] = [c]) ->
  translate_text lower upper isupper uglish_dict text = Ok text.
Proof.
  intros Hd Hup. rewrite translate_text_from.
  apply (translate_from_no_words text Hd Hup [] []).
Qed.

End Text.

Lemma translate_text_no_latin_witness :
  translate_text lower_model upper_model isupper_model example_index (u8 "Τα 12, και τα!")
  = Ok (u8 "Τα 12, και τα!").
Proof.
  apply (translate_text_no_latin lower_model upper_model isupper_model example_index).
  vm_compute. reflexivity.
Defined.

Lemma translate_text_no_words_witness :
  translate_text lower_model upper_model isupper_model ∅ (u8 "Kalimera, Maria 38!")
  = Ok (u8 "Kalimera, Maria 38!").
Proof.
  apply (translate_text_no_words lower_model upper_model isupper_model ∅).
  - intros u. left. apply lookup_empty.
  - apply upper_model_isupper.
Defined.

(** ** The index that [build_g_uglish_dict] builds *)

Lemma replace_single_valued (d : dict) (s : str) :
  graphs_nonempty d -> single_valued d -> exists u, replace s d = Ok [u].
Proof.
  intros Hk Hs.
  destruct (replace_loop_tokens d Hk (length s) s [[]] []) as (toks & Ht & Hr); [lia|].
  destruct (tokenize_loop_tokens (keys d) (graphs_nonempty_keys d Hk) (length s) s [])
    as (toks' & Ht' & _ & Hall); [lia|].
  rewrite Ht in Ht'. injection Ht' as <-.
  unfold replace. rewrite Hr, (fold_fan_out_single d toks []).
  - eexists. reflexivity.
  - apply single_valued_tokens; assumption.
Qed.

Lemma split_from_tokens (s cur : str) :
  List.Forall (fun c => isspace c = false) cur ->
  List.Forall (fun t => t <> [] /\ List.Forall (fun c => isspace c = false) t)
    (split_from cur s).
Proof.
  revert cur. induction s as [|c s IH]; intros cur Hcur; simpl.
  - destruct cur; [constructor | constructor; [split; [discriminate | exact Hcur] | constructor]].
  - destruct (isspace c) eqn:Hc.
    + destruct cur; [apply IH; constructor|].
      constructor; [split; [discriminate | exact Hcur] | apply IH; constructor].
    + apply IH. apply Forall_app. split; [exact Hcur | constructor; [exact Hc | constructor]].
Qed.

Lemma lstrip_no_space (t : str) :
  match t with c :: _ => isspace c = false | [] => True end -> lstrip t = t.
Proof. destruct t as [|c t]; [reflexivity|]. simpl. intros ->. reflexivity. Qed.

Lemma strip_token (t : str) :
  List.Forall (fun c => isspace c = false) t -> strip t = t.
Proof.
  intros Ht. unfold strip. rewrite (lstrip_no_space t).
  - rewrite lstrip_no_space; [apply rev_involutive|].
    destruct (rev t) as [|c r] eqn:Hr; [exact I|].
    rewrite List.Forall_forall in Ht. apply Ht. apply in_rev. rewrite Hr. left. reflexivity.
  - destruct Ht; [exact I | assumption].
Qed.

Lemma line_word_token (line : str) :
  split line <> [] ->
  line_word line = hd [] (split line) /\ line_word line <> [].
Proof.
  intros Hne. unfold line_word.
  pose proof (split_from_tokens line [] (List.Forall_nil _)) as Ht. fold (split line) in Ht.
  destruct (split line) as [|tok toks]; [congruence|]. cbn [hd].
  inversion Ht as [|? ? [Hn Hs] _]; subst. rewrite (strip_token tok Hs). split; [reflexivity | exact Hn].
Qed.

Section Build.

Variable lower : str -> str.

Lemma greek_to_uglish_canonical_form (word : str) :
  greek_to_uglish lower word = Ok [canonical_form lower word].
Proof.
  unfold canonical_form.
  destruct (replace_single_valued g2u_dict
              (map (table_char greek_accent_dictionary) (lower word))
              (proj2 tables_graphs_nonempty) g2u_single_valued) as [u Hu].
  assert (greek_to_uglish lower word = Ok [u]) as ->; [|reflexivity].
  unfold greek_to_uglish. rewrite replace_greek_accent. cbn [mbind M_bind].
  rewrite replace_list_single, Hu. reflexivity.
Qed.

Lemma build_line_value (d : gmap str (list str)) (line : str) :
  build_line lower d line
  = match split line with
    | [] => Raise IndexError
    | _ :: _ =>
      let word := line_word line in
      if qualifies lower word
      then Ok (<[canonical_form lower word :=
                   bucket d (canonical_form lower word) ++ [word]]> d)
      else Ok d
    end.
Proof.
  unfold build_line, line_word, qualifies.
  destruct (split line) as [|tok toks]; [reflexivity|].
  cbn [getitem lookup list_lookup mbind M_bind hd]. cbv zeta.
  rewrite is_greek_value. cbn [mbind M_bind from_ok].
  destruct (forallb _ (lower (strip tok))); cbn [negb andb]; [|reflexivity].
  rewrite Nat.ltb_antisym. destruct (length (find_accent (strip tok)) <=? 1)%nat;
    cbn [negb]; [|reflexivity].
  rewrite greek_to_uglish_canonical_form. cbn [mbind M_bind fold_left]. f_equal.
  unfold bucket. destruct (d !! canonical_form lower (strip tok)) as [ws|] eqn:Hd.
  - rewrite Hd. reflexivity.
  - rewrite lookup_insert_eq, insert_insert_eq. reflexivity.
Qed.

Lemma bucket_insert (d : gmap str (list str)) (k u : str) (ws : list str) :
  bucket (<[k := ws]> d) u = if bool_decide (k = u) then ws else bucket d u.
Proof.
  unfold bucket. case_bool_decide as Hk.
  - subst. rewrite lookup_insert_eq. reflexivity.
  - rewrite lookup_insert_ne by exact Hk. reflexivity.
Qed.

Lemma build_from (lines : list str) :
  (forall line, In line lines -> split line <> []) ->
  forall d0 : gmap str (list str),
  exists d,
    for_loop (build_line lower) lines d0 = Ok d
    /\ (forall u, bucket d u = bucket d0 u ++ filed_under lower lines u)
    /\ ((forall u, d0 !! u <> Some []) -> forall u, d !! u <> Some []).
Proof.
  induction lines as [|line lines IH]; intros Hl d0.
  - exists d0. split; [reflexivity|]. split; [|auto].
    intros u. unfold filed_under. cbn. rewrite app_nil_r. reflexivity.
  - cbn [for_loop]. rewrite build_line_value.
    destruct (split line) as [|tok toks] eqn:Hs;
      [destruct (Hl line (or_introl eq_refl) Hs)|].
    cbv zeta.
    assert (forall l, In l lines -> split l <> []) as Hl' by (intros l Hin; apply Hl; right; exact Hin).
    unfold filed_under. cbn [map List.filter].
    destruct (qualifies lower (line_word line)) eqn:Hq; cbn [mbind M_bind andb].
    + destruct (IH Hl' (<[canonical_form lower (line_word line) :=
                            bucket d0 (canonical_form lower (line_word line))
                              ++ [line_word line]]> d0)) as (d & Hd & Hb & Hne).
      exists d. split; [exact Hd|]. split.
      * intros u. rewrite Hb, bucket_insert. unfold filed_under.
        case_bool_decide as Hk; [subst u; rewrite <- app_assoc|]; reflexivity.
      * intros H0. apply Hne. intros u.
        destruct (decide (canonical_form lower (line_word line) = u)) as [<- | Hk].
        -- rewrite lookup_insert_eq. intros [= H]. destruct (bucket d0 _); discriminate.
        -- rewrite lookup_insert_ne by exact Hk. apply H0.
    + destruct (IH Hl' d0) as (d & Hd & Hb & Hne). exists d. split; [exact Hd|].
      split; [exact Hb | exact Hne].
Qed.

(** X13: on a word list without blank line, [build_g_uglish_dict] returns
    the index whose entry for a canonical form lists, in the order of the
    lines, the first words of the lines that are Greek, have at most one
    accent and have this canonical form; a canonical form of no such word
    has no entry. *)
Theorem build_g_uglish_dict_buckets (lines : list str) :
  (forall line, In line lines -> split line <> []) ->
  exists d,
    build_g_uglish_dict lower lines = Ok d
    /\ (forall u, d !! u = match filed_under lower lines u with
                           | [] => None
                           | words => Some words
                           end)
    /\ (forall line, In line lines -> line_word line = hd [] (split line)).
Proof.
  intros Hl. destruct (build_from lines Hl ∅) as (d & Hd & Hb & Hne).
  exists d. split; [exact Hd|]. split.
  - intros u. specialize (Hb u). unfold bucket in Hb. rewrite lookup_empty in Hb.
    cbn [default app] in Hb.
    assert (d !! u <> Some []) as Hu
      by (apply Hne; intros u'; rewrite lookup_empty; discriminate).
    destruct (d !! u) as [ws|]; cbn [default] in Hb; rewrite <- Hb.
    + destruct ws; [congruence | reflexivity].
    + reflexivity.
  - intros line Hin. apply line_word_token, Hl, Hin.
Qed.

Lemma for_loop_raise {S A} (body : S -> A -> M S) (e : exn) (l : list A) (x : A) :
  In x l -> (forall st, body st x = Raise e) ->
  (forall st y, In y l -> body st y = Raise e \/ exists st', body st y = Ok st') ->
  forall st, for_loop body l st = Raise e.
Proof.
  induction l as [|y l IH]; intros Hin Hx Hall st; [contradiction|]. cbn [for_loop].
  destruct (Hall st y (or_introl eq_refl)) as [-> | [st' Hst]]; [reflexivity|].
  rewrite Hst. cbn [mbind M_bind].
  destruct Hin as [-> | Hin]; [rewrite Hx in Hst; discriminate|].
  apply IH; [exact Hin | exact Hx |]. intros st0 z Hz. apply Hall. right. exact Hz.
Qed.

(** X14: a blank line in the word list, one of white space only, makes
    [build_g_uglish_dict] raise [IndexError], whatever the other lines
    hold. *)
Theorem build_g_uglish_dict_blank_line (lines : list str) (line : str) :
  In line lines -> split line = [] ->
  build_g_uglish_dict lower lines = Raise IndexError.
Proof.
  intros Hin Hs. unfold build_g_uglish_dict.
  apply (for_loop_raise _ IndexError lines line Hin).
  - intros st. rewrite build_line_value, Hs. reflexivity.
  - intros st y _. rewrite build_line_value.
    destruct (split y); [left; reflexivity|]. cbv zeta. right.
    destruct (qualifies lower (line_word y)); eexists; reflexivity.
Qed.

End Build.

Lemma build_g_uglish_dict_buckets_witness :
  exists d,
    build_g_uglish_dict lower_model [u8 "τα 9"; u8 "of 8"; u8 "τά 7"] = Ok d
    /\ d !! u8 "ta" = Some [u8 "τα"; u8 "τά"].
Proof.
  destruct (build_g_uglish_dict_buckets lower_model [u8 "τα 9"; u8 "of 8"; u8 "τά 7"])
    as (d & Hd & Hb & _).
  - intros line [<- | [<- | [<- | []]]]; vm_compute; discriminate.
  - exists d. split; [exact Hd|]. rewrite (Hb (u8 "ta")). vm_compute. reflexivity.
Defined.

Lemma build_g_uglish_dict_blank_line_witness :
  build_g_uglish_dict lower_model [u8 "τα 9"; u8 "  "; u8 "τά 7"] = Raise IndexError.
Proof.
  apply (build_g_uglish_dict_blank_line lower_model _ (u8 "  ")).
  - right. left. reflexivity.
  - reflexivity.
Defined.

(** ** Translation never fails on a built index *)

Section Safety.

Variable lower upper : str -> str.
Variable isupper : str -> bool.
Variable uglish_dict : gmap str (list str).

Lemma find_possibilities_In (lat_string : str) (possibilities : list str) (c : str) :
  find_possibilities lower uglish_dict lat_string = Ok possibilities -> In c possibilities ->
  exists uglish u words,
    lish_to_uglish lower lat_string = Ok uglish /\ In u uglish
    /\ uglish_dict !! u = Some words /\ In c words.
Proof.
  unfold find_possibilities. intros H Hc. apply bind_Ok in H as (uglish & Hu & [= <-]).
  apply in_flat_map in Hc as (u & Hin & Hc).
  destruct (uglish_dict !! u) as [words|] eqn:Hw; [|contradiction].
  exists uglish, u, words. repeat split; assumption.
Qed.

Lemma guess_returns (word : str) :
  index_consistent lower uglish_dict -> words_nonempty uglish_dict -> word <> [] ->
  exists r, guess lower upper isupper uglish_dict word = Ok r.
Proof.
  intros Hidx Hne Hw. destruct word as [|w0 rest]; [congruence|].
  destruct (sorted_possibilities_returns lower uglish_dict (w0 :: rest) Hidx)
    as (possibilities & gl & Hf & Hs & Hperm).
  rewrite (guess_value lower upper isupper uglish_dict (w0 :: rest) w0 rest gl eq_refl Hs).
  cbv zeta. destruct (isupper [w0]); [|eexists; reflexivity].
  destruct gl as [|c gl]; [eexists; reflexivity|].
  assert (c <> []) as Hc.
  { assert (In c possibilities) as Hin
      by (eapply Permutation_in; [exact Hperm | left; reflexivity]).
    destruct (find_possibilities_In _ _ _ Hf Hin) as (_ & u & words & _ & _ & Hu & Hcw).
    exact (Hne u words c Hu Hcw). }
  destruct c as [|t0 t']; [congruence|]. eexists. reflexivity.
Qed.

Lemma translate_from_returns (text : str) :
  index_consistent lower uglish_dict -> words_nonempty uglish_dict ->
  forall state, exists out, translate_from lower upper isupper uglish_dict text state = Ok out.
Proof.
  intros Hidx Hne. induction text as [|c text IH]; intros [word text_out].
  - unfold translate_from. cbn [for_loop mbind M_bind flush].
    destruct word as [|w0 word]; [eexists; reflexivity|].
    destruct (guess_returns (w0 :: word) Hidx Hne) as [r ->]; [discriminate|].
    eexists. reflexivity.
  - rewrite translate_from_cons. unfold translate_step.
    destruct (negb (is_latin_letter (lower [c]))).
    + destruct word as [|w0 word]; [cbn [mbind M_bind]; apply IH|].
      destruct (guess_returns (w0 :: word) Hidx Hne) as [r ->]; [discriminate|].
      cbn [mbind M_bind]. apply IH.
    + cbn [mbind M_bind]. apply IH.
Qed.

Lemma built_index_filed (lines : list str) :
  build_g_uglish_dict lower lines = Ok uglish_dict ->
  (forall line, In line lines -> split line <> [])
  /\ forall u, bucket uglish_dict u = filed_under lower lines u.
Proof.
  intros Hb.
  assert (forall line, In line lines -> split line <> []) as Hl.
  { intros line Hin Hs. unfold build_g_uglish_dict in Hb.
    rewrite (for_loop_raise (build_line lower) IndexError lines line Hin) in Hb;
      [discriminate | |].
    - intros st. rewrite build_line_value, Hs. reflexivity.
    - intros st y _. rewrite build_line_value.
      destruct (split y); [left; reflexivity|]. cbv zeta. right.
      destruct (qualifies lower (line_word y)); eexists; reflexivity. }
  split; [exact Hl|].
  destruct (build_from lower lines Hl ∅) as (d & Hd & Hbk & _).
  unfold build_g_uglish_dict in Hb. rewrite Hb in Hd. injection Hd as <-.
  intros u. rewrite Hbk. unfold bucket. rewrite lookup_empty. reflexivity.
Qed.

Lemma built_index_words (lines : list str) :
  build_g_uglish_dict lower lines = Ok uglish_dict -> words_nonempty uglish_dict.
Proof.
  intros Hb. destruct (built_index_filed lines Hb) as [Hl Hbk].
  intros u words word Hu Hw. specialize (Hbk u). unfold bucket in Hbk.
  rewrite Hu in Hbk. cbn [from_option id] in Hbk. subst words.
  unfold filed_under in Hw. apply filter_In in Hw as [Hw _].
  apply in_map_iff in Hw as (line & <- & Hin). apply line_word_token, Hl, Hin.
Qed.

(** X15: with an index that files every word under its own canonical
    forms and holds no empty word, [translate_text] returns a text for
    every input, raising no exception; every index that
    [build_g_uglish_dict] builds (with the same case functions) is such an
    index. *)
Theorem translate_text_returns :
  (index_consistent lower uglish_dict -> words_nonempty uglish_dict ->
   forall text, exists out, translate_text lower upper isupper uglish_dict text = Ok out)
  /\ (forall lines, build_g_uglish_dict lower lines = Ok uglish_dict ->
      index_consistent lower uglish_dict /\ words_nonempty uglish_dict
      /\ forall text, exists out, translate_text lower upper isupper uglish_dict text = Ok out).
Proof.
  assert (index_consistent lower uglish_dict -> words_nonempty uglish_dict ->
          forall text, exists out,
            translate_text lower upper isupper uglish_dict text = Ok out) as H.
  { intros Hidx Hne text. rewrite translate_text_from.
    apply (translate_from_returns text Hidx Hne). }
  split; [exact H|]. intros lines Hb.
  pose proof (build_g_uglish_dict_consistent lower uglish_dict lines Hb) as Hidx.
  pose proof (built_index_words lines Hb) as Hne.
  split; [exact Hidx|]. split; [exact Hne | exact (H Hidx Hne)].
Qed.

End Safety.

Lemma translate_text_returns_witness :
  exists out,
    translate_text lower_model upper_model isupper_model example_index
      (u8 "Ta 3, ta xyz!") = Ok out.
Proof.
  destruct (translate_text_returns lower_model upper_model isupper_model example_index)
    as [_ H].
  destruct (H _ example_index_built) as (_ & _ & Ht). apply Ht.
Defined.

(** ** Entries no Latin word reaches *)

Lemma table_values_not (d : dict) (x : Z) :
  forallb (fun kv : str * str => forallb (fun c => negb (c =? x)) kv.2) d = true ->
  forall k v, In (k, v) d -> List.Forall (fun c => c <> x) v.
Proof.
  intros H k v Hin. rewrite forallb_forall in H. specialize (H _ Hin). cbn [snd] in H.
  rewrite forallb_forall in H. apply List.Forall_forall. intros c Hc.
  specialize (H c Hc). apply negb_true_iff, Z.eqb_neq in H. exact H.
Qed.

Lemma table_char_not (d : dict) (x c : Z) :
  forallb (fun kv : str * str => forallb (fun c => negb (c =? x)) kv.2) d = true ->
  c <> x -> table_char d c <> x.
Proof.
  intros H Hc. unfold table_char.
  destruct (dict_get d [c]) as [[|v l]|e|] eqn:Hg; try exact Hc.
  apply dict_get_In in Hg. pose proof (table_values_not d x H _ _ Hg) as Hv.
  inversion Hv; assumption.
Qed.

Lemma uglish_not (d accent : dict) (x : Z) (s : str) (us : list str) :
  forallb (fun kv : str * str => forallb (fun c => negb (c =? x)) kv.2) accent = true ->
  forallb (fun kv : str * str => forallb (fun c => negb (c =? x)) kv.2) d = true ->
  char_table accent -> ~ In x s ->
  (s ← replace s accent; s ← replace_list s d; Ok s) = Ok us ->
  List.Forall (List.Forall (fun c => c <> x)) us.
Proof.
  intros Ha Hd Hc Hx H. rewrite (replace_char_table accent s Hc) in H. cbn [mbind M_bind] in H.
  rewrite replace_list_single in H.
  apply bind_Ok in H as (us' & H & [= <-]). apply bind_Ok in H as (r & H & [= <-]).
  unfold replace in H.
  refine (replace_loop_chars (fun c => c <> x) (fun c => c <> x) d _ _ _ _ _ _ _ _ H).
  - apply table_values_not, Hd.
  - intros c rest _ Hc'. exact Hc'.
  - apply List.Forall_forall. intros c Hin. apply in_map_iff in Hin as (c0 & <- & Hin).
    apply table_char_not; [exact Ha|]. intros ->. exact (Hx Hin).
  - repeat constructor.
Qed.

Lemma replace_single_valued_tokens (d : dict) (s : str) :
  graphs_nonempty d -> single_valued d ->
  replace s d
  = Ok [concat (map (token_alternatives d) (from_ok [] (tokenize_graphs s (GraphDict d))))].
Proof.
  intros Hk Hs.
  destruct (replace_loop_tokens d Hk (length s) s [[]] []) as (toks & Ht & Hr); [lia|].
  destruct (tokenize_loop_tokens (keys d) (graphs_nonempty_keys d Hk) (length s) s [])
    as (toks' & Ht' & _ & Hall); [lia|].
  rewrite Ht in Ht'. injection Ht' as <-.
  unfold replace, tokenize_graphs. rewrite Hr, Ht, (fold_fan_out_single d toks []).
  - reflexivity.
  - apply single_valued_tokens; assumption.
Qed.

Lemma fan_out_keeps (q : Z) (o : list str) (alts : str) :
  List.Forall (fun a => a = q) alts \/ List.Forall (In q) o ->
  List.Forall (In q)
    (flat_map (fun alternative => map (fun string => string ++ [alternative]) o) alts).
Proof.
  intros H. apply List.Forall_forall. intros x Hx.
  apply in_flat_map in Hx as (a & Ha & Hx). apply in_map_iff in Hx as (y & <- & Hy).
  apply in_or_app. destruct H as [H | H].
  - right. rewrite List.Forall_forall in H. rewrite (H a Ha). left. reflexivity.
  - left. rewrite List.Forall_forall in H. exact (H y Hy).
Qed.

Lemma replace_loop_keeps (q : Z) (d : dict) :
  (forall k v, In (k, v) d -> In q k -> List.Forall (fun a => a = q) v) ->
  forall fuel s o l,
  In q s \/ List.Forall (In q) o ->
  replace_loop fuel d s o = Ok l -> List.Forall (In q) l.
Proof.
  intros Hd. induction fuel as [|fuel IH]; intros s o l Hq H.
  - destruct s; [|discriminate]. injection H as <-. destruct Hq as [[]|Hq]; exact Hq.
  - destruct s as [|c rest]; [injection H as <-; destruct Hq as [[]|Hq]; exact Hq|].
    cbn [replace_loop] in H.
    destruct (find (startswith (c :: rest)) (keys d)) as [k|] eqn:Hf.
    + apply bind_Ok in H as (v & Hg & H). apply dict_get_In in Hg.
      apply find_some in Hf as [_ Hs]. apply startswith_drop in Hs.
      refine (IH _ _ _ _ H).
      destruct Hq as [Hq | Hq].
      * rewrite Hs in Hq. apply in_app_or in Hq as [Hq | Hq]; [|left; exact Hq].
        right. apply fan_out_keeps. left. exact (Hd k v Hg Hq).
      * right. apply fan_out_keeps. right. exact Hq.
    + refine (IH _ _ _ _ H). destruct Hq as [[<- | Hq] | Hq].
      * right. apply List.Forall_forall. intros x Hx.
        apply in_map_iff in Hx as (y & <- & _). apply in_or_app. right. left. reflexivity.
      * left. exact Hq.
      * right. apply List.Forall_forall. intros x Hx.
        apply in_map_iff in Hx as (y & <- & Hy). apply in_or_app. left.
        rewrite List.Forall_forall in Hq. exact (Hq y Hy).
Qed.

Section Unreachable.

Variable lower : str -> str.
Variable uglish_dict : gmap str (list str).

Lemma canonical_form_tokens (word : str) :
  canonical_form lower word
  = concat (map (token_alternatives g2u_dict) (greek_tokens lower word)).
Proof.
  pose proof (greek_to_uglish_canonical_form lower word) as H.
  unfold greek_to_uglish in H. rewrite replace_greek_accent in H. cbn [mbind M_bind] in H.
  rewrite replace_list_single in H.
  rewrite (replace_single_valued_tokens g2u_dict _ (proj2 tables_graphs_nonempty)
             g2u_single_valued) in H.
  cbn [mbind M_bind] in H. injection H as H. symmetry. exact H.
Qed.

Lemma lish_to_uglish_keeps_q (lat_string : str) (us : list str) :
  In 113 (lower lat_string) -> lish_to_uglish lower lat_string = Ok us ->
  List.Forall (In 113) us.
Proof.
  intros Hq H. unfold lish_to_uglish in H. rewrite replace_lat_accent in H.
  cbn [mbind M_bind] in H. rewrite replace_list_single in H.
  apply bind_Ok in H as (us' & H & [= <-]). apply bind_Ok in H as (r & H & [= <-]).
  unfold replace in H. refine (replace_loop_keeps 113 l2u_dict _ _ _ _ _ _ H).
  - intros k v Hin Hk.
    assert (forallb (fun kv : str * str =>
                       implb (existsb (Z.eqb 113) kv.1) (forallb (Z.eqb 113) kv.2))
              l2u_dict = true) as Ht by (vm_compute; reflexivity).
    rewrite forallb_forall in Ht. specialize (Ht _ Hin). cbn [fst snd] in Ht.
    assert (existsb (Z.eqb 113) k = true) as He
      by (apply existsb_exists; exists 113; split; [exact Hk | apply Z.eqb_refl]).
    rewrite He in Ht. cbn [implb] in Ht. rewrite forallb_forall in Ht.
    apply List.Forall_forall. intros a Ha. specialize (Ht a Ha). apply Z.eqb_eq in Ht.
    congruence.
  - left. apply in_map_iff. exists 113. split; [vm_compute; reflexivity | exact Hq].
Qed.

(** X16: the table of the Greek digraphs gives "εφ" the Greek capital
    epsilon (U+0395) as its symbol, which no graph of the Latin table has.
    So the canonical form of a Greek word with the graph "εφ" holds that
    character, and with an index that files every word under its own
    canonical forms such a word is no candidate for any Latin word whose
    lowercase form is without U+0395: it is neither looked up nor ranked. *)
Theorem digraph_ef_not_reached (lat_string word : str) :
  index_consistent lower uglish_dict ->
  ~ In 917 (lower lat_string) ->
  In (u8 "εφ") (greek_tokens lower word) ->
  In 917 (canonical_form lower word)
  /\ exists possibilities r,
       find_possibilities lower uglish_dict lat_string = Ok possibilities
       /\ sorted_possibilities lower uglish_dict lat_string = Ok r
       /\ ~ In word possibilities /\ ~ In word r.
Proof.
  intros Hidx Hx Htok.
  assert (In 917 (canonical_form lower word)) as Hc.
  { rewrite canonical_form_tokens. apply in_concat. exists [917].
    split; [|left; reflexivity].
    apply in_map_iff. exists (u8 "εφ"). split; [vm_compute; reflexivity | exact Htok]. }
  split; [exact Hc|].
  destruct (sorted_possibilities_returns lower uglish_dict lat_string Hidx)
    as (ps & r & Hf & Hs & Hperm).
  exists ps, r. split; [exact Hf|]. split; [exact Hs|].
  assert (~ In word ps) as Hn.
  { intros Hin.
    destruct (find_possibilities_In lower uglish_dict _ _ _ Hf Hin)
      as (us & u & words & Hus & Hu & Hw & Hcw).
    destruct (Hidx u words word Hw Hcw) as (us' & Hg & Hin').
    rewrite greek_to_uglish_canonical_form in Hg. injection Hg as <-.
    destruct Hin' as [<- | []].
    pose proof (uglish_not l2u_dict lat_accent_dictionary 917 (lower lat_string) us
                  eq_refl eq_refl (proj2 accent_tables_char) Hx Hus) as Hall.
    rewrite List.Forall_forall in Hall. specialize (Hall _ Hu).
    rewrite List.Forall_forall in Hall. exact (Hall 917 Hc eq_refl). }
  split; [exact Hn|]. intros Hin. apply Hn.
  eapply Permutation_in; [exact Hperm | exact Hin].
Qed.

(** X17: the Latin table gives the letter q the symbol q, which no graph
    of the Greek table has, and the index that [build_g_uglish_dict] builds
    holds Greek words only.  So with a built index a Latin word whose
    lowercase form has a q has no candidate at all. *)
Theorem letter_q_no_candidates (lines : list str) (lat_string : str) :
  build_g_uglish_dict lower lines = Ok uglish_dict ->
  In 113 (lower lat_string) ->
  find_possibilities lower uglish_dict lat_string = Ok []
  /\ sorted_possibilities lower uglish_dict lat_string = Ok [].
Proof.
  intros Hb Hq. destruct (lish_to_uglish_returns lower lat_string) as [us Hus].
  apply (sorted_possibilities_none lower uglish_dict lat_string us Hus).
  intros u Hu.
  destruct (uglish_dict !! u) as [[|w ws]|] eqn:Hw;
    [right; reflexivity | | left; reflexivity].
  exfalso.
  destruct (built_index_filed lower uglish_dict lines Hb) as [_ Hf]. specialize (Hf u).
  unfold bucket in Hf. rewrite Hw in Hf. cbn [from_option id] in Hf.
  assert (In w (filed_under lower lines u)) as Hin by (rewrite <- Hf; left; reflexivity).
  unfold filed_under in Hin. apply filter_In in Hin as [_ Hin].
  apply andb_true_iff in Hin as [Hqual Hcf]. apply bool_decide_eq_true_1 in Hcf.
  unfold qualifies in Hqual. apply andb_true_iff in Hqual as [Hg _].
  rewrite (is_greek_value lower w) in Hg. cbn [from_ok] in Hg.
  assert (~ In 113 (lower w)) as Hn.
  { intros H113. rewrite forallb_forall in Hg. specialize (Hg _ H113).
    vm_compute in Hg. discriminate. }
  pose proof (uglish_not g2u_dict greek_accent_dictionary 113 (lower w) _
                eq_refl eq_refl (proj1 accent_tables_char) Hn
                (greek_to_uglish_canonical_form lower w)) as Hall.
  inversion Hall as [|? ? Hcfq _]; subst.
  pose proof (lish_to_uglish_keeps_q _ _ Hq Hus) as Hk.
  rewrite List.Forall_forall in Hk. specialize (Hk _ Hu).
  rewrite List.Forall_forall in Hcfq. exact (Hcfq 113 Hk eq_refl).
Qed.

End Unreachable.

Lemma digraph_ef_not_reached_witness :
  In 917 (canonical_form lower_model (u8 "εφτά"))
  /\ exists possibilities r,
       find_possibilities lower_model example_index (u8 "efta") = Ok possibilities
       /\ sorted_possibilities lower_model example_index (u8 "efta") = Ok r
       /\ ~ In (u8 "εφτά") possibilities /\ ~ In (u8 "εφτά") r.
Proof.
  apply (digraph_ef_not_reached lower_model example_index (u8 "efta") (u8 "εφτά")).
  - exact (build_g_uglish_dict_consistent lower_model example_index _ example_index_built).
  - vm_compute. intros H. repeat (destruct H as [H | H]; [discriminate H|]). exact H.
  - vm_compute. left. reflexivity.
Defined.

Lemma letter_q_no_candidates_witness :
  find_possibilities lower_model example_index (u8 "Quo") = Ok []
  /\ sorted_possibilities lower_model example_index (u8 "Quo") = Ok [].
Proof.
  apply (letter_q_no_candidates lower_model example_index _ (u8 "Quo") example_index_built).
  vm_compute. left. reflexivity.
Defined.

(** ** The canonical forms of a Latin word *)

Lemma fan_out_In (o : list str) (alts x : str) :
  In x (fan_out o alts) <-> exists p a, x = p ++ [a] /\ In p o /\ In a alts.
Proof.
  unfold fan_out. rewrite in_flat_map. split.
  - intros (a & Ha & Hx). apply in_map_iff in Hx as (p & <- & Hp). exists p, a. auto.
  - intros (p & a & -> & Hp & Ha). exists a. split; [exact Ha|].
    apply in_map_iff. exists p. auto.
Qed.

Lemma fan_out_count (o : list str) (alts : str) :
  length (fan_out o alts) = (length alts * length o)%nat.
Proof.
  unfold fan_out. induction alts as [|a alts IH]; [reflexivity|].
  cbn [flat_map length]. rewrite length_app, length_map, IH. lia.
Qed.

Lemma fan_out_NoDup (o : list str) (alts : str) :
  List.NoDup o -> List.NoDup alts -> List.NoDup (fan_out o alts).
Proof.
  intros Ho Ha. unfold fan_out. induction Ha as [|a alts Hn Ha IH]; [constructor|].
  cbn [flat_map]. apply List.NoDup_app; [| exact IH |].
  - apply NoDup_map_NoDup_ForallPairs; [|exact Ho].
    intros x y _ _ H. apply app_inj_tail in H as [H _]. exact H.
  - intros x Hx Hx'. apply in_map_iff in Hx as (p & <- & _).
    apply in_flat_map in Hx' as (b & Hb & Hx'). apply in_map_iff in Hx' as (p' & H & _).
    apply app_inj_tail in H as [_ ->]. exact (Hn Hb).
Qed.

Lemma fold_fan_out_In (d : dict) (toks : list str) :
  forall (o : list str) (x : str),
  In x (fold_left (fun s_out tok => fan_out s_out (token_alternatives d tok)) toks o)
  <-> exists p cs, x = p ++ cs /\ In p o /\ picks d toks cs.
Proof.
  induction toks as [|t toks IH]; intros o x; cbn [fold_left].
  - split.
    + intros H. exists x, []. rewrite app_nil_r.
      split; [reflexivity|]. split; [exact H | constructor].
    + intros (p & cs & -> & Hp & Hcs). inversion Hcs. rewrite app_nil_r. exact Hp.
  - rewrite IH. split.
    + intros (p & cs & -> & Hp & Hcs). apply fan_out_In in Hp as (p0 & a & -> & Hp0 & Ha).
      exists p0, (a :: cs). rewrite <- app_assoc.
      split; [reflexivity|]. split; [exact Hp0 | constructor; assumption].
    + intros (p & cs & -> & Hp & Hcs).
      inversion Hcs as [|a t' cs' toks' Ha Hcs' E1 E2]; subst.
      exists (p ++ [a]), cs'. rewrite <- app_assoc.
      split; [reflexivity|]. split; [|exact Hcs'].
      apply fan_out_In. exists p, a. auto.
Qed.

Lemma fold_fan_out_count (d : dict) (toks : list str) :
  forall o : list str,
  length (fold_left (fun s_out tok => fan_out s_out (token_alternatives d tok)) toks o)
  = (length o * choices d toks)%nat.
Proof.
  unfold choices.
  induction toks as [|t toks IH]; intros o; cbn [fold_left map fold_right]; [lia|].
  rewrite IH, fan_out_count. lia.
Qed.

Lemma fold_fan_out_NoDup (d : dict) (toks : list str) :
  List.Forall (fun tok => List.NoDup (token_alternatives d tok)) toks ->
  forall o : list str, List.NoDup o ->
  List.NoDup (fold_left (fun s_out tok => fan_out s_out (token_alternatives d tok)) toks o).
Proof.
  induction 1 as [|t toks Ht _ IH]; intros o Ho; cbn [fold_left]; [exact Ho|].
  apply IH, fan_out_NoDup; assumption.
Qed.

Lemma l2u_alternatives_NoDup (toks : list str) :
  List.Forall (fun t => t <> [] /\ (In t (keys l2u_dict) \/ exists c, t = [c])) toks ->
  List.Forall (fun tok => List.NoDup (token_alternatives l2u_dict tok)) toks.
Proof.
  intros H. rewrite List.Forall_forall in *. intros t Hin. unfold token_alternatives.
  destruct (dict_get l2u_dict t) as [v|e|] eqn:Hg.
  - apply dict_get_In in Hg.
    assert (List.Forall (fun kv : str * str => List.NoDup kv.2) l2u_dict) as Ht.
    { unfold l2u_dict.
      repeat (apply List.Forall_cons;
              [cbn [snd];
               repeat (constructor; [cbn [In]; intuition discriminate|]); constructor|]).
      apply List.Forall_nil. }
    rewrite List.Forall_forall in Ht. exact (Ht _ Hg).
  - destruct (H t Hin) as [_ [Hk | [c ->]]].
    + apply dict_get_keys in Hk as [v Hv]. congruence.
    + constructor; [intros [] | constructor].
  - destruct (dict_get_returns _ _ Hg).
Qed.

Lemma fold_fan_out_picks (d : dict) (toks : list str) (u : str) :
  In u (fold_left (fun s_out tok => fan_out s_out (token_alternatives d tok)) toks [[]])
  <-> picks d toks u.
Proof.
  rewrite fold_fan_out_In. split.
  - intros (p & cs & -> & [<- | []] & Hcs). exact Hcs.
  - intros Hu. exists [], u. split; [reflexivity|]. split; [left; reflexivity | exact Hu].
Qed.

Lemma lish_to_uglish_fold (lower : str -> str) (lat_string : str) :
  lish_to_uglish lower lat_string
  = Ok (fold_left (fun s_out tok => fan_out s_out (token_alternatives l2u_dict tok))
          (lat_tokens lower lat_string) [[]])
  /\ List.Forall (fun t => t <> [] /\ (In t (keys l2u_dict) \/ exists c, t = [c]))
       (lat_tokens lower lat_string).
Proof.
  set (s := map (table_char lat_accent_dictionary) (lower lat_string)).
  pose proof (proj1 tables_graphs_nonempty) as Hk.
  destruct (replace_loop_tokens l2u_dict Hk (length s) s [[]] []) as (toks & Ht & Hr); [lia|].
  destruct (tokenize_loop_tokens (keys l2u_dict) (graphs_nonempty_keys _ Hk) (length s) s [])
    as (toks' & Ht' & _ & Hall); [lia|].
  rewrite Ht in Ht'. injection Ht' as <-.
  assert (lat_tokens lower lat_string = toks) as ->.
  { unfold lat_tokens, tokenize_graphs. fold s. rewrite Ht. reflexivity. }
  split; [|exact Hall].
  unfold lish_to_uglish. rewrite replace_lat_accent. cbn [mbind M_bind].
  rewrite replace_list_single. fold s. unfold replace. rewrite Hr. reflexivity.
Qed.

(** X18: [lish_to_uglish] returns, each once, exactly the strings that
    have for each graph of the Latin word (lowercased, without accents) one
    of the alternatives of the graph; their number is the product of the
    numbers of alternatives. *)
Theorem lish_to_uglish_forms (lower : str -> str) (lat_string : str) :
  exists us,
    lish_to_uglish lower lat_string = Ok us
    /\ (forall u, In u us <-> picks l2u_dict (lat_tokens lower lat_string) u)
    /\ length us = choices l2u_dict (lat_tokens lower lat_string)
    /\ List.NoDup us.
Proof.
  destruct (lish_to_uglish_fold lower lat_string) as [Hus Hall].
  eexists. split; [exact Hus|]. split; [|split].
  - intros u. apply fold_fan_out_picks.
  - rewrite fold_fan_out_count. cbn [length]. lia.
  - apply fold_fan_out_NoDup; [apply l2u_alternatives_NoDup, Hall|].
    constructor; [intros [] | constructor].
Qed.

(** ** Looking up a built index *)

Section Retrieval.

Variable lower : str -> str.
Variable uglish_dict : gmap str (list str).

Lemma find_possibilities_filed (lines : list str) (lat_string : str)
    (possibilities : list str) :
  build_g_uglish_dict lower lines = Ok uglish_dict ->
  find_possibilities lower uglish_dict lat_string = Ok possibilities ->
  forall word,
    In word possibilities
    <-> In word (map line_word lines) /\ qualifies lower word = true
        /\ picks l2u_dict (lat_tokens lower lat_string) (canonical_form lower word).
Proof.
  intros Hb Hf word. destruct (built_index_filed lower uglish_dict lines Hb) as [_ Hbk].
  destruct (lish_to_uglish_fold lower lat_string) as [Hus _].
  pose proof (fold_fan_out_picks l2u_dict (lat_tokens lower lat_string)) as Hpick.
  unfold find_possibilities in Hf. rewrite Hus in Hf. cbn [mbind M_bind] in Hf.
  injection Hf as <-. rewrite in_flat_map. split.
  - intros (u & Hu & Hw). specialize (Hbk u). unfold bucket in Hbk.
    destruct (uglish_dict !! u) as [words|]; [|contradiction].
    cbn [from_option id] in Hbk. subst words.
    unfold filed_under in Hw. apply filter_In in Hw as [Hl Hw].
    apply andb_true_iff in Hw as [Hq Hc]. apply bool_decide_eq_true_1 in Hc. subst u.
    split; [exact Hl|]. split; [exact Hq | apply Hpick, Hu].
  - intros (Hl & Hq & Hp). exists (canonical_form lower word).
    split; [apply Hpick, Hp|].
    specialize (Hbk (canonical_form lower word)). unfold bucket in Hbk.
    assert (In word (filed_under lower lines (canonical_form lower word))) as Hin.
    { unfold filed_under. apply filter_In. split; [exact Hl|].
      rewrite Hq. apply bool_decide_eq_true_2. reflexivity. }
    destruct (uglish_dict !! canonical_form lower word) as [words|];
      cbn [from_option id] in Hbk; rewrite Hbk; exact Hin.
Qed.

(** X19: looking up an index that [build_g_uglish_dict] has built from a
    word list: the candidates [find_possibilities] returns for a Latin word,
    and those [sorted_possibilities] ranks, are exactly the words of the list
    that qualified for the index (Greek, with at most one accent) and whose
    canonical form has for each graph of the Latin word one of the
    alternatives of the graph. *)
Theorem find_possibilities_built (lines : list str) (lat_string : str) :
  build_g_uglish_dict lower lines = Ok uglish_dict ->
  exists possibilities r,
    find_possibilities lower uglish_dict lat_string = Ok possibilities
    /\ sorted_possibilities lower uglish_dict lat_string = Ok r
    /\ Permutation r possibilities
    /\ forall word,
         (In word possibilities
          <-> In word (map line_word lines) /\ qualifies lower word = true
              /\ picks l2u_dict (lat_tokens lower lat_string) (canonical_form lower word))
         /\ (In word r <-> In word possibilities).
Proof.
  intros Hb.
  pose proof (build_g_uglish_dict_consistent lower uglish_dict lines Hb) as Hidx.
  destruct (sorted_possibilities_returns lower uglish_dict lat_string Hidx)
    as (ps & r & Hf & Hs & Hperm).
  exists ps, r. split; [exact Hf|]. split; [exact Hs|]. split; [exact Hperm|].
  intros word. split; [exact (find_possibilities_filed lines lat_string ps Hb Hf word)|].
  split; intros Hin.
  - eapply Permutation_in; [exact Hperm | exact Hin].
  - eapply Permutation_in; [symmetry; exact Hperm | exact Hin].
Qed.

End Retrieval.

Lemma find_possibilities_built_witness :
  exists possibilities r,
    find_possibilities lower_model example_index (u8 "ta") = Ok possibilities
    /\ sorted_possibilities lower_model example_index (u8 "ta") = Ok r
    /\ Permutation r possibilities
    /\ forall word,
         (In word possibilities
          <-> In word (map line_word [u8 "τα 9"; u8 "τά 7"; u8 "ξ 1"])
              /\ qualifies lower_model word = true
              /\ picks l2u_dict (lat_tokens lower_model (u8 "ta"))
                   (canonical_form lower_model word))
         /\ (In word r <-> In word possibilities).
Proof.
  exact (find_possibilities_built lower_model example_index _ (u8 "ta") example_index_built).
Defined.
